(** * liblatlng: angle normalisation, great-circle distance and azimuth

    A shallow embedding of [include/liblatlng.hpp].  The header is a set of
    templates over one numeric type [T]; the embedding keeps that shape: the
    code is written once over a type class of scalars and is then read at two
    instances,

    - [binary64]: IEEE 754 double precision ([LatLng = BasicLatLng<double>]),
      through the Standard Library's [SpecFloat] (the executable specification
      of the hardware operations, round to nearest even);
    - [exactR]: the real numbers, the reading of the formulas in exact
      arithmetic.

    [<cmath>]'s [sin], [cos], [tan], [acos] and [atan2] are not part of the
    header.  Over the reals they are the Standard Library's functions; over
    [binary64] they stay abstract (a [Trig] instance bound in a section). *)

From Stdlib Require Import ZArith QArith Qpower Qabs Qreals Bool Lia Reals Lra.
From Stdlib Require Import Floats.SpecFloat.

Set Implicit Arguments.

(** ** The numeric type parameter *)

(** What the templates ask of [T]: literals, the four operations, the two
    strict and non-strict comparisons and [std::isnan]. *)
Class Arith (T : Type) := {
  lit   : Z -> T;           (* an integer-valued literal such as [T{180.0}] *)
  pi    : T;                (* [Constants::pi<T>()] *)
  add   : T -> T -> T;
  sub   : T -> T -> T;
  mul   : T -> T -> T;
  div   : T -> T -> T;
  ltb   : T -> T -> bool;   (* [a < b] *)
  leb   : T -> T -> bool;   (* [a <= b] *)
  isnan : T -> bool
}.

(** The [<cmath>] functions the two formulas call. *)
Class Trig (T : Type) := {
  sin   : T -> T;
  cos   : T -> T;
  tan   : T -> T;
  acos  : T -> T;
  atan2 : T -> T -> T
}.

(** [a > b] and [a >= b] are [b < a] and [b <= a], also on NaN. *)
Definition gtb {T} `{Arith T} (a b : T) : bool := ltb b a.
Definition geb {T} `{Arith T} (a b : T) : bool := leb b a.

(** ** namespace Degree *)

Module Degree.
Section Generic.
Context {T : Type} `{Arith T}.

Definition toRadian (deg : T) : T := div (mul deg pi) (lit 180).

Definition fromRadian (rad : T) : T := div (mul rad (lit 180)) pi.

(** [while (deg >= bound) deg -= 360.0;]  One unit of fuel pays for one
    execution of the body; the fuel left over is handed back so that the
    second loop draws on the same budget. *)
Fixpoint while_ge (bound : T) (fuel : nat) (deg : T) : option (nat * T) :=
  if geb deg bound then
    match fuel with
    | O => None
    | S fuel' => while_ge bound fuel' (sub deg (lit 360))
    end
  else Some (fuel, deg).

(** [while (deg < bound) deg += 360.0;] *)
Fixpoint while_lt (bound : T) (fuel : nat) (deg : T) : option (nat * T) :=
  if ltb deg bound then
    match fuel with
    | O => None
    | S fuel' => while_lt bound fuel' (add deg (lit 360))
    end
  else Some (fuel, deg).

(** The two loops in sequence, as both normalisers run them. *)
Definition loops (hi lo : T) (fuel : nat) (deg : T) : option T :=
  match while_ge hi fuel deg with
  | None => None
  | Some (fuel', deg') =>
      match while_lt lo fuel' deg' with
      | None => None
      | Some (_, deg'') => Some deg''
      end
  end.

(** [normalizeRelative fuel deg = Some r]: the call returns [r] after at
    most [fuel] loop iterations; [None]: it needs more. *)
Definition normalizeRelative (fuel : nat) (deg : T) : option T :=
  if isnan deg then Some deg
  else if gtb deg (lit 1000000000) || ltb deg (lit (-1000000000)) then Some (lit 0)
  else loops (lit 180) (lit (-180)) fuel deg.

Definition normalizeAbsolute (fuel : nat) (deg : T) : option T :=
  if isnan deg then Some deg
  else if gtb deg (lit 1000000000) || ltb deg (lit (-1000000000)) then Some (lit 0)
  else loops (lit 360) (lit 0) fuel deg.
End Generic.
End Degree.

(** ** struct BasicLatLng *)

Record BasicLatLng (T : Type) := mkLatLng { lat : T; lng : T }.

Section Formulas.
Context {T : Type} `{Arith T} `{Trig T}.

Definition kEarthRadius : T := lit 6378137.

(** The argument handed to [std::acos]. *)
Definition acosArg (self other : BasicLatLng T) : T :=
  let latRadian := Degree.toRadian (lat self) in
  let lngRadian := Degree.toRadian (lng self) in
  let otherLatRadian := Degree.toRadian (lat other) in
  let otherLngRadian := Degree.toRadian (lng other) in
  let lngRadianDiff := sub otherLngRadian lngRadian in
  add (mul (sin latRadian) (sin otherLatRadian))
      (mul (mul (cos latRadian) (cos otherLatRadian)) (cos lngRadianDiff)).

Definition distanceFrom (self other : BasicLatLng T) : T :=
  mul kEarthRadius (acos (acosArg self other)).

Definition azimuthFrom (fuel : nat) (self other : BasicLatLng T) : option T :=
  let latRadian := Degree.toRadian (lat self) in
  let lngRadian := Degree.toRadian (lng self) in
  let otherLatRadian := Degree.toRadian (lat other) in
  let otherLngRadian := Degree.toRadian (lng other) in
  let lngRadianDiff := sub otherLngRadian lngRadian in
  let y := sin lngRadianDiff in
  let x := sub (mul (cos latRadian) (tan otherLatRadian))
               (mul (sin latRadian) (cos lngRadianDiff)) in
  Degree.normalizeAbsolute fuel
    (add (Degree.fromRadian (atan2 y x)) (lit 180)).
End Formulas.

(** ** The instance [T = double] *)

Module B64.
Definition prec : Z := 53.
Definition emax : Z := 1024.

Abbreviation float := spec_float (only parsing).

(** An integer literal, rounded to the nearest double (all the literals of
    the header are exact). *)
Definition of_Z (z : Z) : float := binary_normalize prec emax z 0 false.

(** [3.14159265358979323846] rounded to double: [0x400921FB54442D18]. *)
Definition pi64 : float := S754_finite false 7074237752028440 (-51).

Definition is_nan (x : float) : bool :=
  match x with S754_nan => true | _ => false end.

Definition is_finite (x : float) : bool :=
  match x with S754_zero _ | S754_finite _ _ _ => true | _ => false end.

Definition valid (x : float) : bool := valid_binary prec emax x.

(** The exact rational value of a finite double. *)
Definition toQ (x : float) : Q :=
  match x with
  | S754_finite s m e => inject_Z (cond_Zopp s (Zpos m)) * Qpower 2 e
  | _ => 0
  end.
End B64.

#[export] Instance binary64 : Arith B64.float := {
  lit   := B64.of_Z;
  pi    := B64.pi64;
  add   := SFadd B64.prec B64.emax;
  sub   := SFsub B64.prec B64.emax;
  mul   := SFmul B64.prec B64.emax;
  div   := SFdiv B64.prec B64.emax;
  ltb   := SFltb;
  leb   := SFleb;
  isnan := B64.is_nan
}.

(** ** The instance [T] = [float] (IEEE binary32), as in [LatLngF]

    In the normalisers at [T = float] the variable [deg] is a float and the
    literals [180.0], [360.0], [1e9] are doubles.  A comparison converts
    [deg] to double; [deg -= 360.0] and [deg += 360.0] convert [deg] to
    double, combine in double and store the result rounded to float;
    [return 0.0] and [T{180.0}] store a double literal into a float.  The
    products and quotients of [toRadian] and [fromRadian] are between
    floats.  [add] and [sub] below are the mixed float/double form of the
    normalisers, which is where this instance is used. *)

Module B32.
Definition prec : Z := 24.
Definition emax : Z := 128.

(** A double stored into a float: rounded to the nearest float, ties to
    even. *)
Definition of_double (x : spec_float) : spec_float :=
  match x with
  | S754_finite s m e => binary_normalize prec emax (cond_Zopp s (Zpos m)) e s
  | _ => x
  end.

(** A float converted to double: the same value, written with the mantissa
    and exponent of a double. *)
Definition to_double (x : spec_float) : spec_float :=
  match x with
  | S754_finite s m e =>
      binary_normalize B64.prec B64.emax (cond_Zopp s (Zpos m)) e s
  | _ => x
  end.

Definition valid (x : spec_float) : bool := valid_binary prec emax x.
End B32.

Definition binary32 : Arith spec_float := {|
  lit   := fun z => B32.of_double (B64.of_Z z);
  pi    := B32.of_double B64.pi64;
  add   := fun a b =>
             B32.of_double
               (SFadd B64.prec B64.emax (B32.to_double a) (B32.to_double b));
  sub   := fun a b =>
             B32.of_double
               (SFsub B64.prec B64.emax (B32.to_double a) (B32.to_double b));
  mul   := SFmul B32.prec B32.emax;
  div   := SFdiv B32.prec B32.emax;
  ltb   := fun a b => SFltb (B32.to_double a) (B32.to_double b);
  leb   := fun a b => SFleb (B32.to_double a) (B32.to_double b);
  isnan := B64.is_nan
|}.

(** ** The instance [T] = the real numbers (exact arithmetic) *)

Module ExactR.
Definition Rltb (a b : R) : bool := if Rlt_dec a b then true else false.
Definition Rleb (a b : R) : bool := if Rle_dec a b then true else false.

(** [std::atan2] on the reals, as C's Annex F and the usual definition give
    it: the angle of the point [(x, y)], in [(-PI, PI]], and [0] at the
    origin. *)
Definition atan2 (y x : R) : R :=
  if Rlt_dec 0 x then atan (y / x)
  else if Rlt_dec x 0 then
    (if Rle_dec 0 y then atan (y / x) + PI else atan (y / x) - PI)
  else if Rlt_dec 0 y then PI / 2
  else if Rlt_dec y 0 then - (PI / 2)
  else 0.
End ExactR.

#[export] Instance exactR : Arith R := {
  lit   := IZR;
  pi    := PI;
  add   := Rplus;
  sub   := Rminus;
  mul   := Rmult;
  div   := Rdiv;
  ltb   := ExactR.Rltb;
  leb   := ExactR.Rleb;
  isnan := fun _ => false
}.

#[export] Instance trigR : Trig R := {
  sin   := Rtrigo_def.sin;
  cos   := Rtrigo_def.cos;
  tan   := Rtrigo1.tan;
  acos  := Ratan.acos;
  atan2 := ExactR.atan2
}.

(** ** Measuring doubles

    Every finite double is an integer number of [2^-1074] (the smallest
    subnormal); [ticks] is that integer, and [scale] the number of ticks in
    [1.0].  The proofs on [binary64] are carried out on ticks, in [Z]. *)

Definition scale : Z := 2 ^ 1074.

Definition ticks (x : spec_float) : Z :=
  match x with
  | S754_finite s m e => cond_Zopp s (Zpos m) * 2 ^ (e + 1074)
  | _ => 0
  end.

(** The integers [M * 2^E] with a mantissa of at most 53 bits: the tick
    counts of the doubles (overflow apart). *)
Definition representable (w : Z) : Prop :=
  exists M E : Z, w = (M * 2 ^ E)%Z /\ (Z.abs M < 2 ^ 53)%Z /\ (0 <= E)%Z.

(** [rounds_to m e a]: [a] ticks is what rounding the exact value
    [m * 2^e] to 53 bits may give: the mantissa is cut by [n] bits to [q],
    and the result keeps [q] or takes [q + 1]; a cut that drops only zeros
    keeps [q]. *)
Definition rounds_to (m e a : Z) : Prop :=
  exists n q M1 : Z,
    (0 <= n /\ q = m / 2 ^ n /\ q <= M1 <= q + 1 /\
     ((2 ^ n | m) -> M1 = q) /\ (n = 0 \/ 2 ^ 52 <= q) /\
     a = M1 * 2 ^ (n + e + 1074))%Z.

(** [brackets v a]: [a] is positive and no representable number lies
    strictly between the exact value [v] and [a]. *)
Definition brackets (v a : Z) : Prop :=
  (0 < a)%Z /\
  (forall lo, representable lo -> (0 <= lo <= v)%Z -> (lo <= a)%Z) /\
  (forall hi, representable hi -> (v <= hi)%Z -> (a <= hi)%Z).

(** The signed form: [t] is [v] rounded, possibly towards either
    neighbour. *)
Definition rounded (v t : Z) : Prop :=
  (forall lo, representable lo -> (lo <= v)%Z -> (lo <= t)%Z) /\
  (forall hi, representable hi -> (v <= hi)%Z -> (t <= hi)%Z).

(** Two doubles the loops are run on below: [-2^-1074], the negative double
    nearest to zero, and [-(1 + 2^-52)], the double just below [-1]. *)
Definition tiny_negative : spec_float := S754_finite true 1 (-1074).
Definition below_minus_one : spec_float :=
  S754_finite true 4503599627370497 (-52).

(** A libm of little accuracy, the Taylor polynomials of lowest degree
    computed in doubles ([acos] through [pi/2 - x], [atan2] through [y / x]);
    it serves where a statement about an arbitrary libm needs an instance. *)
Definition taylor_libm : Trig spec_float := {|
  sin   := fun x => x;
  cos   := fun x =>
             SFsub B64.prec B64.emax (B64.of_Z 1)
               (SFdiv B64.prec B64.emax (SFmul B64.prec B64.emax x x) (B64.of_Z 2));
  tan   := fun x => x;
  acos  := fun x =>
             SFsub B64.prec B64.emax
               (SFdiv B64.prec B64.emax B64.pi64 (B64.of_Z 2)) x;
  atan2 := fun y x => SFdiv B64.prec B64.emax y x
|}.

(** The values of a correctly rounded libm at the few arguments the examples
    on the equator need: [sin], [cos] and [tan] at zero, [cos] at the double
    [pi] (where the cosine is within [1e-32] of [-1]), [acos] at [-1], [0]
    and [1].  [acos] stays within its range [[0, pi]] on all of [[-1, 1]]
    and is NaN outside, as [std::acos] is; the other functions are NaN away
    from the arguments listed. *)
Definition table_libm : Trig spec_float := {|
  sin   := fun x => match x with S754_zero _ => x | _ => S754_nan end;
  cos   := fun x => match x with
                    | S754_zero _ => B64.of_Z 1
                    | _ => if SFeqb (SFabs x) B64.pi64 then B64.of_Z (-1)
                           else S754_nan
                    end;
  tan   := fun x => match x with S754_zero _ => x | _ => S754_nan end;
  acos  := fun y =>
             if SFleb (B64.of_Z (-1)) y && SFleb y (B64.of_Z 1) then
               if SFleb y (B64.of_Z (-1)) then B64.pi64
               else if SFleb (B64.of_Z 1) y then S754_zero false
               else S754_finite false 7074237752028440 (-52)
             else S754_nan;
  atan2 := fun _ _ => S754_nan
|}.

(** The argument [azimuthFrom] hands to [normalizeAbsolute]: the angle of
    [atan2] in degrees, plus [180]. *)
Definition azimuthAngle {T : Type} `{Arith T} `{Trig T}
  (self other : BasicLatLng T) : T :=
  let latRadian := Degree.toRadian (lat self) in
  let lngRadian := Degree.toRadian (lng self) in
  let otherLatRadian := Degree.toRadian (lat other) in
  let otherLngRadian := Degree.toRadian (lng other) in
  let lngRadianDiff := sub otherLngRadian lngRadian in
  let y := sin lngRadianDiff in
  let x := sub (mul (cos latRadian) (tan otherLatRadian))
               (mul (sin latRadian) (cos lngRadianDiff)) in
  add (Degree.fromRadian (atan2 y x)) (lit 180).

(** The iterations the worst inputs, [1e9] and [-1e9], need. *)
Definition max_iterations : nat := Z.to_nat 2777778.

(** A relative error bound: [r] is [t * (1 + dl)] for some [dl] of magnitude
    at most [k]. *)
Definition within (k t r : Q) : Prop :=
  exists dl : Q, (Qabs dl <= k)%Q /\ (r == t * (1 + dl))%Q.

(** The sign bit of a double as a rational factor. *)
Definition signQ (s : bool) : Q := if s then (-1)%Q else 1%Q.

(** Partial sums, in [Q], of the alternating series of
    [pi / 4 = 2 * atan (1/3) + atan (1/7)]. *)
Fixpoint Qpow (x : Q) (n : nat) : Q :=
  match n with
  | O => 1%Q
  | S n' => (x * Qpow x n')%Q
  end.

Definition machin_term (n : nat) : Q :=
  (Qpow (-1) n *
   (2 * (Qpow (1 # 3) (2 * n + 1) / inject_Z (Z.of_nat (2 * n + 1)))
    + Qpow (1 # 7) (2 * n + 1) / inject_Z (Z.of_nat (2 * n + 1))))%Q.

Fixpoint machin_sum (N : nat) : Q :=
  match N with
  | O => machin_term 0
  | S i => (machin_sum i + machin_term (S i))%Q
  end.

(** * Proofs *)

Local Open Scope Z_scope.

(** ** Powers of two and the number of digits *)

Lemma pow2_pos (n : Z) : 0 <= n -> 0 < 2 ^ n.
Proof. intros; apply Z.pow_pos_nonneg; lia. Qed.

Lemma pow2_split (a b : Z) : 0 <= a <= b -> 2 ^ b = 2 ^ (b - a) * 2 ^ a.
Proof.
  intros Hab. rewrite <- Z.pow_add_r by lia. f_equal; lia.
Qed.

Lemma pow2_le (a b : Z) : 0 <= a <= b -> 2 ^ a <= 2 ^ b.
Proof. intros; apply Z.pow_le_mono_r; lia. Qed.

Lemma pow2_lt (a b : Z) : 0 <= a < b -> 2 ^ a < 2 ^ b.
Proof. intros; apply Z.pow_lt_mono_r; lia. Qed.

Lemma digits2_pos_bounds (m : positive) :
  2 ^ (Zpos (digits2_pos m) - 1) <= Zpos m < 2 ^ Zpos (digits2_pos m).
Proof.
  induction m as [p IH | p IH | ]; cbn [digits2_pos].
  - rewrite Pos2Z.inj_succ. change (Zpos p~1) with (2 * Zpos p + 1).
    replace (Z.succ (Zpos (digits2_pos p)) - 1)
      with (Z.succ (Zpos (digits2_pos p) - 1)) by lia.
    rewrite !Z.pow_succ_r by lia. lia.
  - rewrite Pos2Z.inj_succ. change (Zpos p~0) with (2 * Zpos p).
    replace (Z.succ (Zpos (digits2_pos p)) - 1)
      with (Z.succ (Zpos (digits2_pos p) - 1)) by lia.
    rewrite !Z.pow_succ_r by lia. lia.
  - cbn. lia.
Qed.

Lemma digits2_pos_unique (m : positive) (D : Z) :
  2 ^ (D - 1) <= Zpos m < 2 ^ D -> Zpos (digits2_pos m) = D.
Proof.
  intros [Hlo Hhi].
  destruct (digits2_pos_bounds m) as [Blo Bhi].
  set (d := Zpos (digits2_pos m)) in *.
  assert (0 < d) by (subst d; lia).
  assert (0 < D).
  { destruct (Z_lt_le_dec 0 D) as [|HD]; [assumption|].
    destruct (Z.eq_dec D 0) as [->|]; [cbn in Hhi; lia|].
    rewrite Z.pow_neg_r in Hhi by lia. lia. }
  destruct (Z.lt_trichotomy d D) as [Hlt | [Heq | Hgt]]; [ | assumption | ].
  - assert (2 ^ d <= 2 ^ (D - 1)) by (apply pow2_le; lia). lia.
  - assert (2 ^ D <= 2 ^ (d - 1)) by (apply pow2_le; lia). lia.
Qed.

Lemma iter_xO_pow (m d : positive) :
  Zpos (Pos.iter xO m d) = Zpos m * 2 ^ Zpos d.
Proof.
  induction d as [ | d IH] using Pos.peano_ind.
  - cbn. lia.
  - rewrite Pos.iter_succ.
    change (Zpos (Pos.iter xO m d)~0) with (2 * Zpos (Pos.iter xO m d)).
    rewrite IH, Pos2Z.inj_succ, Z.pow_succ_r by lia. lia.
Qed.

(** ** Shifting right: [iter_pos shr_1] divides by a power of two *)

Lemma shr_1_spec (mrs : shr_record) :
  0 <= shr_m mrs ->
  shr_m (shr_1 mrs) = shr_m mrs / 2 /\
  0 <= shr_m (shr_1 mrs) /\
  ((2 | shr_m mrs) -> shr_r mrs = false -> shr_s mrs = false ->
   shr_r (shr_1 mrs) = false /\ shr_s (shr_1 mrs) = false).
Proof.
  destruct mrs as [m r s]; cbn [shr_m shr_r shr_s]; intros Hm.
  destruct m as [ | [p | p | ] | p]; cbn [shr_1 shr_m shr_r shr_s orb]; try lia;
    (split; [ | split; [lia | ] ]).
  - reflexivity.
  - intros _ -> ->; auto.
  - change (Zpos p~1) with (2 * Zpos p + 1).
    apply Z.div_unique with 1; lia.
  - intros [k Hk]; lia.
  - change (Zpos p~0) with (2 * Zpos p).
    apply Z.div_unique with 0; lia.
  - intros _ -> ->; auto.
  - reflexivity.
  - intros [k Hk]; lia.
Qed.

Lemma iter_shr_1_spec (p : positive) (mrs : shr_record) :
  0 <= shr_m mrs ->
  shr_m (iter_pos shr_1 p mrs) = shr_m mrs / 2 ^ Zpos p /\
  0 <= shr_m (iter_pos shr_1 p mrs) /\
  ((2 ^ Zpos p | shr_m mrs) -> shr_r mrs = false -> shr_s mrs = false ->
   shr_r (iter_pos shr_1 p mrs) = false /\ shr_s (iter_pos shr_1 p mrs) = false).
Proof.
  revert mrs.
  assert (Hdiv : forall m a b, 0 <= a -> 0 <= b -> (2 ^ (a + b) | m) ->
            (2 ^ a | m) /\ (2 ^ b | m / 2 ^ a)).
  { intros m a b Ha Hb [k Hk]. rewrite Z.pow_add_r in Hk by lia.
    assert (0 < 2 ^ a) by now apply pow2_pos.
    split.
    - exists (k * 2 ^ b). lia.
    - exists k. replace m with (k * 2 ^ b * 2 ^ a) by lia.
      rewrite Z.div_mul by lia. reflexivity. }
  induction p as [p IH | p IH | ]; intros mrs Hm; cbn [iter_pos].
  - destruct (shr_1_spec mrs Hm) as (E1 & P1 & X1).
    destruct (IH _ P1) as (E2 & P2 & X2).
    destruct (IH _ P2) as (E3 & P3 & X3).
    assert (Hp : 2 ^ Zpos p~1 = 2 * (2 ^ Zpos p * 2 ^ Zpos p)).
    { replace (Zpos p~1) with (1 + (Zpos p + Zpos p)) by lia.
      rewrite !Z.pow_add_r, Z.pow_1_r by lia. reflexivity. }
    assert (0 < 2 ^ Zpos p) by (apply pow2_pos; lia).
    split; [ | split; [assumption | ] ].
    + rewrite E3, E2, E1, Hp, !Z.div_div by lia. reflexivity.
    + intros [k Hk] R S. rewrite Hp in Hk.
      assert (D1 : (2 | shr_m mrs)) by (exists (k * (2 ^ Zpos p * 2 ^ Zpos p)); lia).
      destruct (X1 D1 R S) as [R1 S1].
      assert (D2 : (2 ^ (Zpos p + Zpos p) | shr_m (shr_1 mrs))).
      { exists k. rewrite E1, Hk, Z.pow_add_r by lia.
        replace (k * (2 * (2 ^ Zpos p * 2 ^ Zpos p)))
          with (k * (2 ^ Zpos p * 2 ^ Zpos p) * 2) by lia.
        now rewrite Z.div_mul by lia. }
      apply Hdiv in D2; try lia. destruct D2 as [D2 D3].
      destruct (X2 D2 R1 S1) as [R2 S2].
      rewrite <- E2 in D3. exact (X3 D3 R2 S2).
  - destruct (IH _ Hm) as (E2 & P2 & X2).
    destruct (IH _ P2) as (E3 & P3 & X3).
    assert (Hp : 2 ^ Zpos p~0 = 2 ^ Zpos p * 2 ^ Zpos p).
    { replace (Zpos p~0) with (Zpos p + Zpos p) by lia.
      now rewrite Z.pow_add_r by lia. }
    assert (0 < 2 ^ Zpos p) by (apply pow2_pos; lia).
    split; [ | split; [assumption | ] ].
    + rewrite E3, E2, Hp, Z.div_div by lia. reflexivity.
    + intros D R S.
      replace (Zpos p~0) with (Zpos p + Zpos p) in D by lia.
      apply Hdiv in D; try lia. destruct D as [D2 D3].
      destruct (X2 D2 R S) as [R2 S2].
      rewrite <- E2 in D3. exact (X3 D3 R2 S2).
  - destruct (shr_1_spec mrs Hm) as (E1 & P1 & X1).
    split; [ | split ]; auto.
Qed.

(** ** Well-formed doubles *)

Lemma fexp_64 (e : Z) : fexp B64.prec B64.emax e = Z.max (e - 53) (-1074).
Proof. reflexivity. Qed.

Lemma valid_finite_iff (s : bool) (m : positive) (e : Z) :
  B64.valid (S754_finite s m e) = true <->
  e = Z.max (Zpos (digits2_pos m) + e - 53) (-1074) /\ e <= 971.
Proof.
  unfold B64.valid, valid_binary, bounded, canonical_mantissa.
  rewrite andb_true_iff, Z.eqb_eq, Z.leb_le, fexp_64.
  change (B64.emax - B64.prec) with 971. intuition lia.
Qed.

Lemma valid_finite_inv (s : bool) (m : positive) (e : Z) :
  B64.valid (S754_finite s m e) = true ->
  -1074 <= e <= 971 /\ Zpos m < 2 ^ 53 /\ (-1074 < e -> 2 ^ 52 <= Zpos m).
Proof.
  intros V. apply valid_finite_iff in V. destruct V as [C B].
  destruct (digits2_pos_bounds m) as [Dlo Dhi].
  set (d := Zpos (digits2_pos m)) in *.
  assert (0 < d) by (subst d; lia).
  split; [lia | split].
  - assert (d <= 53) by lia.
    assert (2 ^ d <= 2 ^ 53) by (apply pow2_le; lia). lia.
  - intros He. assert (d = 53) by lia.
    replace (d - 1) with 52 in Dlo by lia. exact Dlo.
Qed.

(** ** Rounding: the result lies between the two neighbours *)

Lemma round_nearest_even_near (q : Z) (l : location) :
  q <= round_nearest_even q l <= q + 1.
Proof.
  destruct l as [ | [ | | ] ]; cbn; try lia. destruct (Z.even q); lia.
Qed.

Lemma shr_fexp_noshift (m : positive) (e : Z) :
  Z.max (Zpos (digits2_pos m) + e - 53) (-1074) <= e ->
  shr_fexp B64.prec B64.emax (Zpos m) e loc_Exact =
  (Build_shr_record (Zpos m) false false, e).
Proof.
  intros Hn. unfold shr_fexp. rewrite fexp_64. cbn [Zdigits2 shr_record_of_loc].
  unfold shr.
  destruct (Z.max (Zpos (digits2_pos m) + e - 53) (-1074) - e) eqn:E;
    try reflexivity; lia.
Qed.

(** A mantissa of 53 or 54 bits at exponent [e] yields a well-formed double
    of the same value. *)
Lemma binary_round_aux_finish (s : bool) (p : positive) (e : Z) :
  2 ^ 52 <= Zpos p <= 2 ^ 53 -> -1074 < e <= 970 ->
  exists r,
    (let '(mrs, e') := shr_fexp B64.prec B64.emax (Zpos p) e loc_Exact in
     match shr_m mrs with
     | Z0 => S754_zero s
     | Zpos m => if e' <=? B64.emax - B64.prec then S754_finite s m e'
                 else S754_infinity s
     | Zneg _ => S754_nan
     end) = r /\
    B64.valid r = true /\ B64.is_finite r = true /\
    ticks r = cond_Zopp s (Zpos p * 2 ^ (e + 1074)).
Proof.
  intros Hp He. change (B64.emax - B64.prec) with 971.
  destruct (Z.eq_dec (Zpos p) (2 ^ 53)) as [Htop | Hlow].
  - assert (D : Zpos (digits2_pos p) = 54)
      by (apply digits2_pos_unique; rewrite Htop; cbn; lia).
    unfold shr_fexp. rewrite fexp_64. cbn [Zdigits2 shr_record_of_loc].
    rewrite D. replace (Z.max (54 + e - 53) (-1074) - e) with 1 by lia.
    cbn [shr iter_pos].
    injection Htop as ->. cbn [shr_1 shr_m].
    replace (e + 1 <=? 971) with true by (symmetry; apply Z.leb_le; lia).
    eexists; split; [reflexivity | ].
    split; [ | split; [reflexivity | ] ].
    + apply valid_finite_iff. cbn [digits2_pos Pos.succ]. lia.
    + cbn [ticks]. replace (e + 1 + 1074) with (1 + (e + 1074)) by lia.
      rewrite Z.pow_add_r by lia. destruct s; cbn [cond_Zopp]; lia.
  - assert (D : Zpos (digits2_pos p) = 53)
      by (apply digits2_pos_unique; change (53 - 1) with 52; lia).
    rewrite shr_fexp_noshift by lia. cbn [shr_m].
    replace (e <=? 971) with true by (symmetry; apply Z.leb_le; lia).
    eexists; split; [reflexivity | ].
    split; [ | split; [reflexivity | ] ].
    + apply valid_finite_iff. lia.
    + cbn [ticks]. destruct s; cbn [cond_Zopp]; lia.
Qed.

Lemma binary_round_aux_struct (s : bool) (m : positive) (e : Z) :
  -1074 <= e ->
  e <= Z.max (Zpos (digits2_pos m) + e - 53) (-1074) <= 970 ->
  exists r a,
    binary_round_aux B64.prec B64.emax s (Zpos m) e loc_Exact = r /\
    B64.valid r = true /\ B64.is_finite r = true /\
    ticks r = cond_Zopp s a /\ rounds_to (Zpos m) e a.
Proof.
  intros He Hfe.
  destruct (digits2_pos_bounds m) as [Dlo Dhi].
  set (d := Zpos (digits2_pos m)) in *.
  set (fe := Z.max (d + e - 53) (-1074)) in *.
  unfold binary_round_aux.
  destruct (Z.eq_dec fe e) as [Hn | Hn].
  - (* nothing to cut *)
    rewrite shr_fexp_noshift by (fold d; fold fe; lia).
    cbn [shr_m loc_of_shr_record round_nearest_even].
    rewrite shr_fexp_noshift by (fold d; fold fe; lia).
    cbn [shr_m]. change (B64.emax - B64.prec) with 971.
    replace (e <=? 971) with true by (symmetry; apply Z.leb_le; lia).
    exists (S754_finite s m e), (Zpos m * 2 ^ (e + 1074)).
    split; [reflexivity | ]. split; [ | split; [reflexivity | split ] ].
    + apply valid_finite_iff. fold d. fold fe. lia.
    + cbn [ticks]. destruct s; cbn [cond_Zopp]; lia.
    + exists 0, (Zpos m), (Zpos m). rewrite Z.pow_0_r, Z.div_1_r.
      repeat split; auto; try lia.
  - (* [n > 0] bits are cut *)
    assert (Hd : d = 53 + (fe - e)) by lia.
    destruct (fe - e) as [ | pn | pn] eqn:En; try lia.
    assert (Hshr : shr_fexp B64.prec B64.emax (Zpos m) e loc_Exact =
                   (iter_pos shr_1 pn (Build_shr_record (Zpos m) false false), fe)).
    { unfold shr_fexp. rewrite fexp_64. cbn [Zdigits2 shr_record_of_loc].
      fold d. fold fe. rewrite En. cbn [shr]. f_equal. lia. }
    rewrite Hshr.
    destruct (iter_shr_1_spec pn (Build_shr_record (Zpos m) false false))
      as (Eq & Pq & Xq); [cbn; lia | ].
    cbn [shr_m shr_r shr_s] in Eq, Xq.
    set (mrs := iter_pos shr_1 pn (Build_shr_record (Zpos m) false false)) in *.
    set (q := Zpos m / 2 ^ Zpos pn) in *.
    assert (Hpn : 0 < 2 ^ Zpos pn) by (apply pow2_pos; lia).
    assert (Hq : 2 ^ 52 <= q < 2 ^ 53).
    { split.
      - apply Z.div_le_lower_bound; [lia | ].
        rewrite <- Z.pow_add_r by lia.
        replace (Zpos pn + 52) with (d - 1) by lia. exact Dlo.
      - apply Z.div_lt_upper_bound; [lia | ].
        rewrite <- Z.pow_add_r by lia.
        replace (Zpos pn + 53) with d by lia. exact Dhi. }
    pose proof (round_nearest_even_near (shr_m mrs) (loc_of_shr_record mrs)) as Hnear.
    assert (Hexact : (2 ^ Zpos pn | Zpos m) ->
              round_nearest_even (shr_m mrs) (loc_of_shr_record mrs) = q).
    { intros D. destruct (Xq D eq_refl eq_refl) as [R S].
      destruct mrs as [m' r' s']; cbn [shr_m shr_r shr_s] in *.
      subst r' s'. cbn. exact Eq. }
    set (M1 := round_nearest_even (shr_m mrs) (loc_of_shr_record mrs)) in *.
    rewrite Eq in Hnear.
    destruct M1 as [ | p1 | p1] eqn:EM; try lia.
    destruct (binary_round_aux_finish s (p := p1) (e := fe)) as (r & Er & V & F & T);
      [lia | lia | ].
    exists r, (Zpos p1 * 2 ^ (fe + 1074)).
    split; [exact Er | ]. split; [exact V | split; [exact F | split; [exact T | ] ] ].
    exists (Zpos pn), q, (Zpos p1).
    replace (Zpos pn + e + 1074) with (fe + 1074) by lia.
    repeat split; auto; lia.
Qed.

Lemma rounds_to_brackets (m e a : Z) :
  0 < m -> -1074 <= e -> rounds_to m e a -> brackets (m * 2 ^ (e + 1074)) a.
Proof.
  intros Hm He (n & q & M1 & Hn & Hq & Hnear & Hexact & Hnorm & ->).
  replace (n + e + 1074) with (n + (e + 1074)) by lia.
  rewrite (Z.pow_add_r 2 n (e + 1074)) by lia.
  set (N := 2 ^ n) in *. set (u := 2 ^ (e + 1074)).
  assert (HN : 0 < N) by (apply pow2_pos; lia).
  assert (Hu : 0 < u) by (apply pow2_pos; lia).
  pose proof (Z.div_mod m N ltac:(lia)) as Hdm. rewrite <- Hq in Hdm.
  pose proof (Z.mod_pos_bound m N HN) as Hrem.
  set (rem := m mod N) in *.
  assert (Hq0 : 1 <= q).
  { destruct Hnorm as [-> | Hbig].
    - subst N. rewrite Z.pow_0_r in *. lia.
    - assert (0 < 2 ^ 52) by (apply pow2_pos; lia). lia. }
  assert (HW : 0 < N * u) by nia.
  assert (Hvlo : q * (N * u) <= m * u) by nia.
  assert (Hvhi : m * u < (q + 1) * (N * u)) by nia.
  assert (Hrem0 : rem = 0 -> M1 = q).
  { intros R. apply Hexact. exists q. lia. }
  split; [nia | split].
  - (* from below *)
    intros lo (Ml & El & -> & HMl & HEl) [Hlo0 Hlov].
    assert (Hqa : q * (N * u) <= M1 * (N * u)) by nia.
    destruct Hnorm as [Hn0 | Hbig].
    { subst n. subst N. rewrite Z.pow_0_r in *.
      assert (rem = 0) by lia. rewrite (Hrem0 H). nia. }
    assert (HpEl : 0 < 2 ^ El) by (apply pow2_pos; lia).
    destruct (Z_le_gt_dec (n + (e + 1074)) El) as [Hge | Hlt].
    + rewrite (pow2_split (a := n + (e + 1074)) (b := El)) in * by lia.
      rewrite (Z.pow_add_r 2 n) in * by lia. fold N in Hlov |- *. fold u in Hlov |- *.
      set (K := Ml * 2 ^ (El - (n + (e + 1074)))) in *.
      assert (K * (N * u) < (q + 1) * (N * u)) by lia.
      assert (K < q + 1) by nia.
      nia.
    + assert (Ml < 2 ^ 53) by lia.
      assert (Ml * 2 ^ El < 2 ^ 53 * 2 ^ El) by nia.
      assert (2 ^ 53 * 2 ^ El <= 2 ^ 52 * (N * u)).
      { subst N u. rewrite <- !Z.pow_add_r by lia. apply pow2_le. lia. }
      nia.
  - (* from above *)
    intros hi (Mh & Eh & -> & HMh & HEh) Hhiv.
    destruct (Z.eq_dec M1 q) as [-> | HM1]; [lia | ].
    assert (M1 = q + 1) by lia. subst M1.
    assert (Hr1 : 1 <= rem) by lia.
    assert (Hbig : 2 ^ 52 <= q).
    { destruct Hnorm as [Hn0 | ]; [ | assumption].
      subst n. subst N. rewrite Z.pow_0_r in *. lia. }
    assert (Hv : q * (N * u) < m * u) by nia.
    assert (HpEh : 0 < 2 ^ Eh) by (apply pow2_pos; lia).
    destruct (Z_le_gt_dec (n + (e + 1074)) Eh) as [Hge | Hlt].
    + rewrite (pow2_split (a := n + (e + 1074)) (b := Eh)) in * by lia.
      rewrite (Z.pow_add_r 2 n) in * by lia. fold N in Hhiv |- *. fold u in Hhiv |- *.
      set (K := Mh * 2 ^ (Eh - (n + (e + 1074)))) in *.
      assert (q * (N * u) < K * (N * u)) by lia.
      assert (q < K) by nia.
      nia.
    + assert (Mh < 2 ^ 53) by lia.
      assert (Mh * 2 ^ Eh < 2 ^ 53 * 2 ^ Eh) by nia.
      assert (2 ^ 53 * 2 ^ Eh <= 2 ^ 52 * (N * u)).
      { subst N u. rewrite <- !Z.pow_add_r by lia. apply pow2_le. lia. }
      nia.
Qed.

Lemma binary_round_brackets (s : bool) (m : positive) (e : Z) :
  -1074 <= e -> Zpos m * 2 ^ (e + 1074) < 2 ^ 2097 ->
  exists r a,
    binary_round B64.prec B64.emax s m e = r /\
    B64.valid r = true /\ B64.is_finite r = true /\
    ticks r = cond_Zopp s a /\ brackets (Zpos m * 2 ^ (e + 1074)) a.
Proof.
  intros He Hv.
  destruct (digits2_pos_bounds m) as [Dlo Dhi].
  set (d := Zpos (digits2_pos m)) in *.
  assert (Hd0 : 0 < d) by (subst d; lia).
  assert (Hu : 0 < 2 ^ (e + 1074)) by (apply pow2_pos; lia).
  assert (Hde : d + e <= 1023).
  { destruct (Z_le_gt_dec (d + e) 1023) as [ | Hbig]; [assumption | exfalso].
    assert (2 ^ 2097 <= 2 ^ (d - 1) * 2 ^ (e + 1074)).
    { rewrite <- Z.pow_add_r by lia. apply pow2_le. lia. }
    nia. }
  unfold binary_round. rewrite fexp_64. fold d.
  set (fe := Z.max (d + e - 53) (-1074)).
  unfold shl_align.
  destruct (fe - e) as [ | pn | pn] eqn:En.
  - destruct (binary_round_aux_struct s m (e := e)) as (r & a & Er & V & F & T & R);
      [lia | fold d; fold fe; lia | ].
    exists r, a. repeat split; auto; apply rounds_to_brackets in R; auto; try lia; apply R.
  - destruct (binary_round_aux_struct s m (e := e)) as (r & a & Er & V & F & T & R);
      [lia | fold d; fold fe; lia | ].
    exists r, a. repeat split; auto; apply rounds_to_brackets in R; auto; try lia; apply R.
  - (* the mantissa is first shifted left to its canonical exponent *)
    set (mz := Pos.iter xO m pn).
    assert (Hmz : Zpos mz = Zpos m * 2 ^ Zpos pn) by apply iter_xO_pow.
    assert (Hpn : 0 < 2 ^ Zpos pn) by (apply pow2_pos; lia).
    assert (Dz : Zpos (digits2_pos mz) = d + Zpos pn).
    { apply digits2_pos_unique. rewrite Hmz. split.
      - replace (d + Zpos pn - 1) with (d - 1 + Zpos pn) by lia.
        rewrite Z.pow_add_r by lia. nia.
      - rewrite Z.pow_add_r by lia. nia. }
    destruct (binary_round_aux_struct s mz (e := fe)) as (r & a & Er & V & F & T & R);
      [lia | rewrite Dz; lia | ].
    exists r, a. split; [exact Er | ].
    split; [exact V | split; [exact F | split; [exact T | ] ] ].
    apply rounds_to_brackets in R; try lia.
    replace (Zpos m * 2 ^ (e + 1074)) with (Zpos mz * 2 ^ (fe + 1074)); [exact R | ].
    rewrite Hmz, <- Z.mul_assoc, <- Z.pow_add_r by lia. do 2 f_equal. lia.
Qed.

Lemma representable_opp (w : Z) : representable w -> representable (- w).
Proof.
  intros (M & E & -> & HM & HE). exists (- M), E. repeat split; lia.
Qed.

Lemma rounded_refl (v : Z) : rounded v v.
Proof. split; auto. Qed.

Lemma rounded_exact (v t : Z) : representable v -> rounded v t -> t = v.
Proof.
  intros Hv [Hlo Hhi]. specialize (Hlo v Hv). specialize (Hhi v Hv). lia.
Qed.

Lemma binary_normalize_rounded (z e : Z) :
  -1074 <= e -> Z.abs z * 2 ^ (e + 1074) < 2 ^ 2097 ->
  B64.valid (binary_normalize B64.prec B64.emax z e false) = true /\
  B64.is_finite (binary_normalize B64.prec B64.emax z e false) = true /\
  rounded (z * 2 ^ (e + 1074))
          (ticks (binary_normalize B64.prec B64.emax z e false)).
Proof.
  intros He Hv.
  assert (Hu : 0 < 2 ^ (e + 1074)) by (apply pow2_pos; lia).
  destruct z as [ | p | p]; cbn [binary_normalize].
  - repeat split; auto; cbn [ticks]; lia.
  - destruct (binary_round_brackets false p (e := e)) as (r & a & -> & V & F & T & Ha & Hlo & Hhi);
      [lia | exact Hv | ].
    cbn [cond_Zopp] in T. rewrite T. repeat split; auto.
    intros lo Rlo Hle. destruct (Z_le_gt_dec 0 lo); [apply Hlo; auto; lia | lia].
  - destruct (binary_round_brackets true p (e := e)) as (r & a & -> & V & F & T & Ha & Hlo & Hhi);
      [lia | exact Hv | ].
    cbn [cond_Zopp] in T. rewrite T. repeat split; auto.
    + intros lo Rlo Hle. apply representable_opp in Rlo.
      specialize (Hhi _ Rlo). lia.
    + intros hi Rhi Hle. destruct (Z_le_gt_dec 0 hi); [lia | ].
      apply representable_opp in Rhi. specialize (Hlo _ Rhi). lia.
Qed.

(** ** Addition and subtraction round the exact sum and difference *)

Lemma shl_align_fst (m : positive) (e ez : Z) :
  ez <= e -> Zpos (fst (shl_align m e ez)) = Zpos m * 2 ^ (e - ez).
Proof.
  intros Hle. unfold shl_align.
  destruct (ez - e) as [ | p | p] eqn:E; cbn [fst]; try lia.
  - replace (e - ez) with 0 by lia. lia.
  - rewrite iter_xO_pow. do 2 f_equal. lia.
Qed.

Lemma ticks_aligned (s : bool) (m : positive) (e ez : Z) :
  -1074 <= ez <= e ->
  cond_Zopp s (Zpos (fst (shl_align m e ez))) * 2 ^ (ez + 1074) =
  ticks (S754_finite s m e).
Proof.
  intros H. rewrite shl_align_fst by lia. cbn [ticks].
  replace (e + 1074) with (e - ez + (ez + 1074)) by lia.
  rewrite (Z.pow_add_r 2 (e - ez)) by lia. destruct s; cbn [cond_Zopp]; lia.
Qed.

Lemma SFadd_rounded (x y : spec_float) :
  B64.valid x = true -> B64.valid y = true ->
  B64.is_finite x = true -> B64.is_finite y = true ->
  Z.abs (ticks x + ticks y) < 2 ^ 2097 ->
  B64.valid (SFadd B64.prec B64.emax x y) = true /\
  B64.is_finite (SFadd B64.prec B64.emax x y) = true /\
  rounded (ticks x + ticks y) (ticks (SFadd B64.prec B64.emax x y)).
Proof.
  intros Vx Vy Fx Fy Hb.
  destruct x as [sx | sx | | sx mx ex]; try discriminate;
  destruct y as [sy | sy | | sy my ey]; try discriminate.
  - destruct sx, sy; cbn; repeat split; auto.
  - cbn [SFadd]. repeat split; auto.
  - cbn [SFadd]. rewrite Z.add_0_r. repeat split; auto.
  - cbn [SFadd].
    destruct (valid_finite_inv _ _ _ Vx) as (Ex & _).
    destruct (valid_finite_inv _ _ _ Vy) as (Ey & _).
    set (ez := Z.min ex ey).
    rewrite <- (ticks_aligned sx mx (e := ex) (ez := ez)) in * by lia.
    rewrite <- (ticks_aligned sy my (e := ey) (ez := ez)) in * by lia.
    rewrite <- Z.mul_add_distr_r in *.
    apply binary_normalize_rounded; [lia | ].
    rewrite <- (Z.abs_eq (2 ^ (ez + 1074))), <- Z.abs_mul; [exact Hb | ].
    apply Z.pow_nonneg; lia.
Qed.

Lemma SFsub_rounded (x y : spec_float) :
  B64.valid x = true -> B64.valid y = true ->
  B64.is_finite x = true -> B64.is_finite y = true ->
  Z.abs (ticks x - ticks y) < 2 ^ 2097 ->
  B64.valid (SFsub B64.prec B64.emax x y) = true /\
  B64.is_finite (SFsub B64.prec B64.emax x y) = true /\
  rounded (ticks x - ticks y) (ticks (SFsub B64.prec B64.emax x y)).
Proof.
  intros Vx Vy Fx Fy Hb.
  destruct x as [sx | sx | | sx mx ex]; try discriminate;
  destruct y as [sy | sy | | sy my ey]; try discriminate.
  - destruct sx, sy; cbn; repeat split; auto.
  - cbn [SFsub]. split; [exact Vy | split; [reflexivity | ] ].
    replace (ticks (S754_zero sx) - ticks (S754_finite sy my ey))
      with (ticks (S754_finite (negb sy) my ey)); [apply rounded_refl | ].
    cbn [ticks]. destruct sy; cbn [negb cond_Zopp]; lia.
  - cbn [SFsub]. rewrite Z.sub_0_r. repeat split; auto.
  - cbn [SFsub].
    destruct (valid_finite_inv _ _ _ Vx) as (Ex & _).
    destruct (valid_finite_inv _ _ _ Vy) as (Ey & _).
    set (ez := Z.min ex ey).
    rewrite <- (ticks_aligned sx mx (e := ex) (ez := ez)) in * by lia.
    rewrite <- (ticks_aligned sy my (e := ey) (ez := ez)) in * by lia.
    rewrite <- Z.mul_sub_distr_r in *.
    apply binary_normalize_rounded; [lia | ].
    rewrite <- (Z.abs_eq (2 ^ (ez + 1074))), <- Z.abs_mul; [exact Hb | ].
    apply Z.pow_nonneg; lia.
Qed.

(** ** Comparisons compare the values *)

Lemma ticks_finite_pos (m : positive) (e : Z) :
  -1074 <= e -> 0 < Zpos m * 2 ^ (e + 1074).
Proof.
  intros He. assert (0 < 2 ^ (e + 1074)) by (apply pow2_pos; lia). nia.
Qed.

Lemma canonical_lt (s1 s2 : bool) (m1 m2 : positive) (e1 e2 : Z) :
  B64.valid (S754_finite s1 m1 e1) = true ->
  B64.valid (S754_finite s2 m2 e2) = true ->
  e1 < e2 ->
  Zpos m1 * 2 ^ (e1 + 1074) < Zpos m2 * 2 ^ (e2 + 1074).
Proof.
  intros V1 V2 Hlt.
  destruct (valid_finite_inv _ _ _ V1) as (E1 & M1 & _).
  destruct (valid_finite_inv _ _ _ V2) as (E2 & _ & N2).
  specialize (N2 ltac:(lia)).
  replace (e2 + 1074) with (e2 - e1 - 1 + 1 + (e1 + 1074)) by lia.
  rewrite (Z.pow_add_r 2 (e2 - e1 - 1 + 1)), (Z.pow_add_r 2 (e2 - e1 - 1)) by lia.
  assert (0 < 2 ^ (e1 + 1074)) by (apply pow2_pos; lia).
  assert (0 < 2 ^ (e2 - e1 - 1)) by (apply pow2_pos; lia).
  change (2 ^ 1) with 2. change (2 ^ 53) with 9007199254740992 in M1.
  change (2 ^ 52) with 4503599627370496 in N2.
  set (u := 2 ^ (e1 + 1074)) in *. set (k := 2 ^ (e2 - e1 - 1)) in *.
  assert (Hk : 4503599627370496 <= Zpos m2 * k) by nia.
  replace (Zpos m2 * (k * 2 * u)) with (Zpos m2 * k * (2 * u)) by lia.
  nia.
Qed.

Lemma SFcompare_ticks (x y : spec_float) :
  B64.valid x = true -> B64.valid y = true ->
  B64.is_finite x = true -> B64.is_finite y = true ->
  SFcompare x y = Some (ticks x ?= ticks y).
Proof.
  intros Vx Vy Fx Fy.
  destruct x as [sx | sx | | sx mx ex]; try discriminate;
  destruct y as [sy | sy | | sy my ey]; try discriminate;
  cbn [SFcompare ticks]; f_equal; symmetry.
  - destruct (valid_finite_inv _ _ _ Vy) as (Ey & _).
    pose proof (ticks_finite_pos my (e := ey)).
    destruct sy; cbn [cond_Zopp]; [apply Z.compare_gt_iff | apply Z.compare_lt_iff]; lia.
  - destruct (valid_finite_inv _ _ _ Vx) as (Ex & _).
    pose proof (ticks_finite_pos mx (e := ex)).
    destruct sx; cbn [cond_Zopp]; [apply Z.compare_lt_iff | apply Z.compare_gt_iff]; lia.
  - destruct (valid_finite_inv _ _ _ Vx) as (Ex & _).
    destruct (valid_finite_inv _ _ _ Vy) as (Ey & _).
    pose proof (ticks_finite_pos mx (e := ex)).
    pose proof (ticks_finite_pos my (e := ey)).
    destruct sx, sy; cbn [cond_Zopp].
    + destruct (Z.compare_spec ex ey) as [Heq | Hlt | Hgt].
      * subst ey. rewrite Pos.compare_cont_spec. cbn [Pos.switch_Eq].
        assert (0 < 2 ^ (ex + 1074)) by (apply pow2_pos; lia).
        destruct (Pos.compare_spec mx my) as [-> | Hm | Hm]; cbn [CompOpp].
        -- apply Z.compare_eq_iff. reflexivity.
        -- apply Z.compare_gt_iff. nia.
        -- apply Z.compare_lt_iff. nia.
      * apply Z.compare_gt_iff.
        pose proof (@canonical_lt _ _ _ _ _ _ Vx Vy Hlt). lia.
      * apply Z.compare_lt_iff.
        pose proof (@canonical_lt _ _ _ _ _ _ Vy Vx ltac:(lia)). lia.
    + apply Z.compare_lt_iff. lia.
    + apply Z.compare_gt_iff. lia.
    + destruct (Z.compare_spec ex ey) as [Heq | Hlt | Hgt].
      * subst ey. rewrite Pos.compare_cont_spec. cbn [Pos.switch_Eq].
        assert (0 < 2 ^ (ex + 1074)) by (apply pow2_pos; lia).
        destruct (Pos.compare_spec mx my) as [-> | Hm | Hm].
        -- apply Z.compare_eq_iff. reflexivity.
        -- apply Z.compare_lt_iff. nia.
        -- apply Z.compare_gt_iff. nia.
      * apply Z.compare_lt_iff. exact (@canonical_lt _ _ _ _ _ _ Vx Vy Hlt).
      * apply Z.compare_gt_iff.
        pose proof (@canonical_lt _ _ _ _ _ _ Vy Vx ltac:(lia)). lia.
Qed.

Lemma SFltb_ticks (x y : spec_float) :
  B64.valid x = true -> B64.valid y = true ->
  B64.is_finite x = true -> B64.is_finite y = true ->
  SFltb x y = (ticks x <? ticks y).
Proof.
  intros. unfold SFltb, Z.ltb. rewrite SFcompare_ticks by assumption.
  destruct (ticks x ?= ticks y); reflexivity.
Qed.

Lemma SFleb_ticks (x y : spec_float) :
  B64.valid x = true -> B64.valid y = true ->
  B64.is_finite x = true -> B64.is_finite y = true ->
  SFleb x y = (ticks x <=? ticks y).
Proof.
  intros. unfold SFleb, Z.leb. rewrite SFcompare_ticks by assumption.
  destruct (ticks x ?= ticks y); reflexivity.
Qed.

(** ** The literals of the header *)

Lemma scale_pos : 0 < scale.
Proof. reflexivity. Qed.

Lemma lit_360 :
  B64.valid (lit 360) = true /\ B64.is_finite (lit 360) = true /\
  ticks (lit 360) = 360 * scale.
Proof. repeat split; vm_compute; reflexivity. Qed.

Lemma lit_180 :
  B64.valid (lit 180) = true /\ B64.is_finite (lit 180) = true /\
  ticks (lit 180) = 180 * scale.
Proof. repeat split; vm_compute; reflexivity. Qed.

Lemma lit_m180 :
  B64.valid (lit (-180)) = true /\ B64.is_finite (lit (-180)) = true /\
  ticks (lit (-180)) = -180 * scale.
Proof. repeat split; vm_compute; reflexivity. Qed.

Lemma lit_0 :
  B64.valid (lit 0) = true /\ B64.is_finite (lit 0) = true /\
  ticks (lit 0) = 0 * scale.
Proof. repeat split; vm_compute; reflexivity. Qed.

Lemma lit_1e9 :
  B64.valid (lit 1000000000) = true /\ B64.is_finite (lit 1000000000) = true /\
  ticks (lit 1000000000) = 1000000000 * scale.
Proof. repeat split; vm_compute; reflexivity. Qed.

Lemma lit_m1e9 :
  B64.valid (lit (-1000000000)) = true /\
  B64.is_finite (lit (-1000000000)) = true /\
  ticks (lit (-1000000000)) = -1000000000 * scale.
Proof. repeat split; vm_compute; reflexivity. Qed.

(** ** Which sums with a multiple of [8.0] are exact *)

(** The exponent of a double of magnitude at most [2^30] is at most that of
    [8.0]; so a multiple of [8.0] is a multiple of its unit in the last
    place. *)
Lemma ticks_factor (x : spec_float) :
  B64.valid x = true -> B64.is_finite x = true ->
  Z.abs (ticks x) <= 2 ^ 30 * scale ->
  exists M E, ticks x = M * 2 ^ E /\ Z.abs M < 2 ^ 53 /\ 0 <= E <= 1077 /\
              (2 ^ 1082 <= Z.abs (ticks x) -> 1030 <= E).
Proof.
  intros V F Hb.
  destruct x as [s | s | | s m e]; try discriminate.
  - exists 0, 0. cbn. repeat split; lia.
  - destruct (valid_finite_inv _ _ _ V) as (He & Hm & Hn).
    exists (cond_Zopp s (Zpos m)), (e + 1074). cbn [ticks].
    assert (Hu : 0 < 2 ^ (e + 1074)) by (apply pow2_pos; lia).
    assert (Habs : Z.abs (cond_Zopp s (Zpos m) * 2 ^ (e + 1074)) = Zpos m * 2 ^ (e + 1074)).
    { destruct s; cbn [cond_Zopp]; lia. }
    cbn [ticks] in Hb. rewrite Habs in *.
    split; [reflexivity | ]. split; [destruct s; cbn [cond_Zopp]; lia | ].
    split; [split; [lia | ] | ].
    + destruct (Z_le_gt_dec (e + 1074) 1052) as [ | Hbig]; [lia | exfalso].
      specialize (Hn ltac:(lia)).
      assert (2 ^ 1053 <= 2 ^ (e + 1074)) by (apply pow2_le; lia).
      assert (2 ^ 52 * 2 ^ 1053 <= Zpos m * 2 ^ (e + 1074)).
      { apply Z.mul_le_mono_nonneg; lia. }
      unfold scale in Hb. rewrite <- !Z.pow_add_r in * by lia.
      assert (2 ^ (30 + 1074) < 2 ^ (52 + 1053)) by (apply pow2_lt; lia).
      lia.
    + intros Hlow.
      destruct (Z_le_gt_dec 1030 (e + 1074)) as [ | Hsmall]; [lia | exfalso].
      assert (2 ^ (e + 1074) <= 2 ^ 1029) by (apply pow2_le; lia).
      assert (Zpos m * 2 ^ (e + 1074) <= Zpos m * 2 ^ 1029)
        by (apply Z.mul_le_mono_nonneg_l; lia).
      assert (Zpos m * 2 ^ 1029 < 2 ^ 53 * 2 ^ 1029)
        by (apply Z.mul_lt_mono_pos_r; [apply pow2_pos; lia | lia]).
      replace (2 ^ 1082) with (2 ^ 53 * 2 ^ 1029) in Hlow
        by (rewrite <- Z.pow_add_r by lia; reflexivity).
      lia.
Qed.

Lemma representable_dominated (x : spec_float) (K : Z) :
  B64.valid x = true -> B64.is_finite x = true ->
  Z.abs (ticks x) <= 2 ^ 30 * scale ->
  Z.abs (ticks x + K * (8 * scale)) <= Z.abs (ticks x) ->
  representable (ticks x + K * (8 * scale)).
Proof.
  intros V F Hb Hdom.
  destruct (ticks_factor x V F Hb) as (M & E & Hx & HM & HE & _).
  assert (H8 : 8 * scale = 2 ^ (1077 - E) * 2 ^ E).
  { unfold scale. change 8 with (2 ^ 3).
    rewrite <- !Z.pow_add_r by lia. f_equal. lia. }
  assert (HuE : 0 < 2 ^ E) by (apply pow2_pos; lia).
  exists (M + K * 2 ^ (1077 - E)), E.
  split; [rewrite Hx, H8; ring | split; [ | lia] ].
  rewrite Hx, H8 in Hdom.
  replace (M * 2 ^ E + K * (2 ^ (1077 - E) * 2 ^ E))
    with ((M + K * 2 ^ (1077 - E)) * 2 ^ E) in Hdom by ring.
  rewrite !Z.abs_mul, (Z.abs_eq (2 ^ E)) in Hdom by lia.
  nia.
Qed.

Lemma representable_grid (K : Z) :
  Z.abs (K * 2 ^ 1030) < 2 ^ 1083 -> representable (K * 2 ^ 1030).
Proof.
  intros Hb. exists K, 1030. split; [reflexivity | split; [ | lia] ].
  rewrite Z.abs_mul, (Z.abs_eq (2 ^ 1030)) in Hb by (apply Z.pow_nonneg; lia).
  change (2 ^ 1083) with (2 ^ 53 * 2 ^ 1030) in Hb.
  assert (0 < 2 ^ 1030) by (apply pow2_pos; lia). nia.
Qed.

(** ** The two loops *)

Lemma big_no_overflow : 2 ^ 30 * scale + 360 * scale < 2 ^ 2097.
Proof. reflexivity. Qed.

Lemma sub_360_exact (deg : B64.float) :
  B64.valid deg = true -> B64.is_finite deg = true ->
  180 * scale <= ticks deg <= 2 ^ 30 * scale ->
  B64.valid (sub deg (lit 360)) = true /\
  B64.is_finite (sub deg (lit 360)) = true /\
  ticks (sub deg (lit 360)) = ticks deg - 360 * scale.
Proof.
  intros V F Hb.
  change (sub deg (lit 360)) with (SFsub B64.prec B64.emax deg (lit 360)).
  destruct lit_360 as (V360 & F360 & T360).
  pose proof scale_pos. pose proof big_no_overflow.
  destruct (SFsub_rounded deg (lit 360) V V360 F F360) as (V' & F' & R).
  { rewrite T360. lia. }
  split; [exact V' | split; [exact F' | ] ].
  rewrite T360 in R. apply rounded_exact; [ | exact R].
  replace (ticks deg - 360 * scale) with (ticks deg + -45 * (8 * scale)) by lia.
  apply representable_dominated; auto; lia.
Qed.

Lemma add_360_exact (deg : B64.float) :
  B64.valid deg = true -> B64.is_finite deg = true ->
  - (2 ^ 30 * scale) <= ticks deg <= -180 * scale ->
  B64.valid (add deg (lit 360)) = true /\
  B64.is_finite (add deg (lit 360)) = true /\
  ticks (add deg (lit 360)) = ticks deg + 360 * scale.
Proof.
  intros V F Hb.
  change (add deg (lit 360)) with (SFadd B64.prec B64.emax deg (lit 360)).
  destruct lit_360 as (V360 & F360 & T360).
  pose proof scale_pos. pose proof big_no_overflow.
  destruct (SFadd_rounded deg (lit 360) V V360 F F360) as (V' & F' & R).
  { rewrite T360. lia. }
  split; [exact V' | split; [exact F' | ] ].
  rewrite T360 in R. apply rounded_exact; [ | exact R].
  replace (ticks deg + 360 * scale) with (ticks deg + 45 * (8 * scale)) by lia.
  apply representable_dominated; auto; lia.
Qed.

Section Loops.
Variable B : Z.
Hypothesis B_valid : B64.valid (lit B) = true.
Hypothesis B_finite : B64.is_finite (lit B) = true.
Hypothesis B_ticks : ticks (lit B) = B * scale.

Lemma geb_ticks (deg : B64.float) :
  B64.valid deg = true -> B64.is_finite deg = true ->
  geb deg (lit B) = (B * scale <=? ticks deg).
Proof.
  intros V F. change (geb deg (lit B)) with (SFleb (lit B) deg).
  rewrite SFleb_ticks, B_ticks by assumption. reflexivity.
Qed.

Lemma ltb_ticks (deg : B64.float) :
  B64.valid deg = true -> B64.is_finite deg = true ->
  ltb deg (lit B) = (ticks deg <? B * scale).
Proof.
  intros V F. change (ltb deg (lit B)) with (SFltb deg (lit B)).
  rewrite SFltb_ticks, B_ticks by assumption. reflexivity.
Qed.

(** [while (deg >= B) deg -= 360.0] with [B >= 180]: every subtraction is
    exact, and the loop runs exactly [k] times, where [k] is the least number
    with [deg - 360 k < B]. *)
Lemma while_ge_exact (k fuel : nat) (deg : B64.float) :
  180 <= B ->
  B64.valid deg = true -> B64.is_finite deg = true ->
  ticks deg <= 2 ^ 30 * scale ->
  (k <> O -> B * scale <= ticks deg - (Z.of_nat k - 1) * (360 * scale)) ->
  ticks deg - Z.of_nat k * (360 * scale) < B * scale ->
  ((k <= fuel)%nat ->
   exists r, Degree.while_ge (lit B) fuel deg = Some ((fuel - k)%nat, r) /\
             B64.valid r = true /\ B64.is_finite r = true /\
             ticks r = ticks deg - Z.of_nat k * (360 * scale)) /\
  ((fuel < k)%nat -> Degree.while_ge (lit B) fuel deg = None).
Proof.
  intros HB. pose proof scale_pos as Hs.
  revert fuel deg. induction k as [ | k IH]; intros fuel deg V F Hhi Hlast Hstop.
  - split; [intros _ | lia].
    change (Z.of_nat 0) with 0 in *.
    assert (Hf : (B * scale <=? ticks deg) = false) by (apply Z.leb_gt; lia).
    exists deg. split; [ | split; [exact V | split; [exact F | lia] ] ].
    rewrite Nat.sub_0_r.
    destruct fuel; cbn [Degree.while_ge]; rewrite geb_ticks, Hf by assumption;
      reflexivity.
  - specialize (Hlast ltac:(discriminate)).
    rewrite Nat2Z.inj_succ in *.
    assert (Hge : B * scale <= ticks deg) by nia.
    destruct (sub_360_exact deg V F) as (V' & F' & T'); [nia | ].
    destruct fuel as [ | fuel]; cbn [Degree.while_ge]; rewrite geb_ticks by assumption;
      (replace (B * scale <=? ticks deg) with true by (symmetry; apply Z.leb_le; lia)).
    + split; [lia | reflexivity].
    + destruct (IH fuel (sub deg (lit 360)) V' F') as [IHsome IHnone].
      * rewrite T'. nia.
      * intros Hk. rewrite T'. lia.
      * rewrite T'. lia.
      * split.
        -- intros Hle. destruct (IHsome ltac:(lia)) as (r & Er & Vr & Fr & Tr).
           exists r. cbn [Nat.sub]. repeat split; auto. rewrite Tr, T'. lia.
        -- intros Hlt. apply IHnone. lia.
Qed.

(** [while (deg < B) deg += 360.0]: as long as the sums are representable
    the loop adds exactly, [k] times. *)
Lemma while_lt_exact (k fuel : nat) (deg : B64.float) :
  B <= 0 ->
  B64.valid deg = true -> B64.is_finite deg = true ->
  - (2 ^ 30 * scale) <= ticks deg ->
  (k <> O -> ticks deg + (Z.of_nat k - 1) * (360 * scale) < B * scale) ->
  B * scale <= ticks deg + Z.of_nat k * (360 * scale) ->
  (forall j, 0 < j <= Z.of_nat k -> representable (ticks deg + j * (360 * scale))) ->
  ((k <= fuel)%nat ->
   exists r, Degree.while_lt (lit B) fuel deg = Some ((fuel - k)%nat, r) /\
             B64.valid r = true /\ B64.is_finite r = true /\
             ticks r = ticks deg + Z.of_nat k * (360 * scale)) /\
  ((fuel < k)%nat -> Degree.while_lt (lit B) fuel deg = None).
Proof.
  intros HB. pose proof scale_pos as Hs.
  revert fuel deg. induction k as [ | k IH]; intros fuel deg V F Hlo Hlast Hstop Hrep.
  - split; [intros _ | lia].
    change (Z.of_nat 0) with 0 in *.
    assert (Hf : (ticks deg <? B * scale) = false) by (apply Z.ltb_ge; lia).
    exists deg. split; [ | split; [exact V | split; [exact F | lia] ] ].
    rewrite Nat.sub_0_r.
    destruct fuel; cbn [Degree.while_lt]; rewrite ltb_ticks, Hf by assumption;
      reflexivity.
  - specialize (Hlast ltac:(discriminate)).
    rewrite Nat2Z.inj_succ in *.
    assert (Hlt : ticks deg < B * scale) by nia.
    destruct lit_360 as (V360 & F360 & T360).
    pose proof big_no_overflow.
    destruct (SFadd_rounded deg (lit 360) V V360 F F360) as (V' & F' & R).
    { rewrite T360. nia. }
    apply rounded_exact in R; [ | rewrite T360; replace (360 * scale) with (1 * (360 * scale)) by lia; apply Hrep; lia].
    rewrite T360 in R. change (SFadd B64.prec B64.emax deg (lit 360)) with (add deg (lit 360)) in *.
    destruct fuel as [ | fuel]; cbn [Degree.while_lt]; rewrite ltb_ticks by assumption;
      (replace (ticks deg <? B * scale) with true by (symmetry; apply Z.ltb_lt; lia)).
    + split; [lia | reflexivity].
    + destruct (IH fuel (add deg (lit 360)) V' F') as [IHsome IHnone].
      * rewrite R. lia.
      * intros Hk. rewrite R. lia.
      * rewrite R. lia.
      * intros j Hj. rewrite R.
        replace (ticks deg + 360 * scale + j * (360 * scale))
          with (ticks deg + (j + 1) * (360 * scale)) by lia.
        apply Hrep. lia.
      * split.
        -- intros Hle. destruct (IHsome ltac:(lia)) as (r & Er & Vr & Fr & Tr).
           exists r. cbn [Nat.sub]. repeat split; auto. rewrite Tr, R. lia.
        -- intros Hlt'. apply IHnone. lia.
Qed.
End Loops.

(** ** Counting the iterations *)

Lemma max_iterations_Z : Z.of_nat max_iterations = 2777778.
Proof. unfold max_iterations. apply Z2Nat.id. lia. Qed.

Lemma count_down (t b c N : Z) :
  0 < c -> b <= t -> t < b + N * c ->
  exists k : nat,
    k <> O /\ Z.of_nat k <= N /\
    b <= t - (Z.of_nat k - 1) * c /\ t - Z.of_nat k * c < b.
Proof.
  intros Hc Hbt HN.
  pose proof (Z.div_mod (t - b) c ltac:(lia)) as Hdm.
  pose proof (Z.mod_pos_bound (t - b) c Hc) as Hrem.
  set (q := (t - b) / c) in *.
  assert (0 <= q) by (apply Z.div_pos; lia).
  exists (Z.to_nat (q + 1)).
  rewrite Z2Nat.id by lia.
  split; [lia | ]. split; [nia | ]. split; nia.
Qed.

Lemma count_up (t b c N : Z) :
  0 < c -> t < b -> b - N * c <= t ->
  exists k : nat,
    k <> O /\ Z.of_nat k <= N /\
    t + (Z.of_nat k - 1) * c < b /\ b <= t + Z.of_nat k * c.
Proof.
  intros Hc Htb HN.
  destruct (@count_down (- t) (1 - b) c N) as (k & K0 & KN & Klo & Khi); try lia.
  exists k. repeat split; auto; lia.
Qed.

(** ** The guard *)

Lemma guard_false_range (d : B64.float) :
  B64.valid d = true -> isnan d = false ->
  gtb d (lit 1000000000) || ltb d (lit (-1000000000)) = false ->
  B64.is_finite d = true /\
  -1000000000 * scale <= ticks d <= 1000000000 * scale.
Proof.
  intros V N G. apply orb_false_iff in G. destruct G as [G1 G2].
  destruct lit_1e9 as (V1 & F1 & T1). destruct lit_m1e9 as (V2 & F2 & T2).
  change (gtb d (lit 1000000000)) with (SFltb (lit 1000000000) d) in G1.
  change (ltb d (lit (-1000000000))) with (SFltb d (lit (-1000000000))) in G2.
  assert (F : B64.is_finite d = true).
  { destruct d as [s | [ | ] | | s m e]; try reflexivity.
    - vm_compute in G2. discriminate G2.
    - vm_compute in G1. discriminate G1.
    - discriminate N. }
  split; [exact F | ].
  rewrite SFltb_ticks in G1, G2 by assumption.
  rewrite T1 in G1. rewrite T2 in G2.
  apply Z.ltb_ge in G1, G2. lia.
Qed.

(** ** normalizeRelative on doubles, in ticks *)

Lemma normalizeRelative_ticks (fuel : nat) (d : B64.float) :
  B64.valid d = true -> isnan d = false ->
  gtb d (lit 1000000000) || ltb d (lit (-1000000000)) = false ->
  (max_iterations <= fuel)%nat ->
  exists r k,
    Degree.normalizeRelative fuel d = Some r /\
    B64.valid r = true /\ B64.is_finite r = true /\
    -180 * scale <= ticks r < 180 * scale /\
    ticks r = ticks d + k * (360 * scale).
Proof.
  intros V N G Hfuel.
  destruct (guard_false_range d V N G) as (F & Hlo & Hhi).
  unfold Degree.normalizeRelative. rewrite N, G. unfold Degree.loops.
  pose proof scale_pos as Hs. pose proof max_iterations_Z as Hmax.
  destruct lit_180 as (V180 & F180 & T180).
  destruct lit_m180 as (Vm & Fm & Tm).
  destruct (Z_le_gt_dec (180 * scale) (ticks d)) as [Hge | Hlt].
  - (* the first loop runs, the second does not *)
    destruct (@count_down (ticks d) (180 * scale) (360 * scale) 2777778)
      as (k & K0 & KN & Klo & Khi); try lia.
    destruct (@while_ge_exact 180 V180 F180 T180 k fuel d) as [Hsome _];
      try assumption; try lia.
    destruct (Hsome ltac:(lia)) as (r1 & E1 & V1 & F1 & T1). rewrite E1.
    destruct (@while_lt_exact (-180) Vm Fm Tm O (fuel - k) r1) as [Hsome2 _];
      try assumption; try lia.
    destruct (Hsome2 ltac:(lia)) as (r2 & E2 & V2 & F2 & T2). rewrite E2.
    exists r2, (- Z.of_nat k). repeat split; auto; lia.
  - (* the first loop does not run *)
    destruct (@while_ge_exact 180 V180 F180 T180 O fuel d) as [Hsome _];
      try assumption; try lia.
    destruct (Hsome ltac:(lia)) as (r1 & E1 & V1 & F1 & T1). rewrite E1.
    destruct (Z_le_gt_dec (-180 * scale) (ticks d)) as [Hin | Hout].
    + destruct (@while_lt_exact (-180) Vm Fm Tm O (fuel - 0) r1) as [Hsome2 _];
        try assumption; try lia.
      destruct (Hsome2 ltac:(lia)) as (r2 & E2 & V2 & F2 & T2). rewrite E2.
      exists r2, 0. repeat split; auto; lia.
    + destruct (@count_up (ticks d) (-180 * scale) (360 * scale) 2777778)
        as (k & K0 & KN & Klo & Khi); try lia.
      destruct (@while_lt_exact (-180) Vm Fm Tm k (fuel - 0) r1) as [Hsome2 _];
        try assumption; try lia.
      { intros j Hj. rewrite T1.
        replace (ticks d - Z.of_nat 0 * (360 * scale) + j * (360 * scale))
          with (ticks d + (45 * j) * (8 * scale)) by lia.
        apply representable_dominated; auto; try lia. nia. }
      destruct (Hsome2 ltac:(lia)) as (r2 & E2 & V2 & F2 & T2). rewrite E2.
      exists r2, (Z.of_nat k). repeat split; auto; lia.
Qed.

(** ** normalizeAbsolute on doubles, in ticks *)

Lemma scale_facts :
  360 * scale < 2 ^ 1083 /\ 2 ^ 1082 <= 360 * scale /\
  360 * scale = 45 * 2 ^ 47 * 2 ^ 1030 /\ 180 * scale = 45 * 2 ^ 46 * 2 ^ 1030 /\
  0 < 2 ^ 1030.
Proof.
  split; [reflexivity | split; [apply Z.leb_le; reflexivity | ] ].
  repeat split; reflexivity.
Qed.

(** Below [-180] every partial sum [d + 360 j] that is still under [360] is
    a double: either [d] dominates it, or [d < -360] and both lie on the
    grid of step [2^-44]. *)
Lemma add_multiple_representable (d : B64.float) (j : Z) :
  B64.valid d = true -> B64.is_finite d = true ->
  - (2 ^ 30 * scale) <= ticks d <= -180 * scale ->
  0 < j -> ticks d + j * (360 * scale) < 360 * scale ->
  representable (ticks d + j * (360 * scale)).
Proof.
  intros V F Hd Hj Hlt. pose proof scale_pos as Hs.
  destruct (Z_le_gt_dec (ticks d + j * (360 * scale)) (- ticks d)) as [Hdom | Hbig].
  - replace (ticks d + j * (360 * scale)) with (ticks d + (45 * j) * (8 * scale)) in * by lia.
    apply representable_dominated; auto; lia.
  - destruct scale_facts as (S1 & S2 & S3 & S4 & S5).
    assert (2 <= j) by nia.
    assert (Hd360 : ticks d < - (360 * scale)) by nia.
    destruct (ticks_factor d V F ltac:(lia)) as (M & E & Hx & HM & HE & Hgrid).
    specialize (Hgrid ltac:(lia)).
    assert (HtE : ticks d = M * 2 ^ (E - 1030) * 2 ^ 1030).
    { rewrite Hx, <- Z.mul_assoc, <- Z.pow_add_r by lia. do 2 f_equal. lia. }
    replace (ticks d + j * (360 * scale))
      with ((M * 2 ^ (E - 1030) + j * (45 * 2 ^ 47)) * 2 ^ 1030)
      by (rewrite S3, HtE; ring).
    apply representable_grid.
    replace ((M * 2 ^ (E - 1030) + j * (45 * 2 ^ 47)) * 2 ^ 1030)
      with (ticks d + j * (360 * scale))
      by (rewrite S3, HtE; ring).
    lia.
Qed.

(** One addition of [360] to a double in [(-180, 0)]: the sum is rounded,
    by less than [2^-44], and lands in [[180, 360]]. *)
Lemma add_360_rounds (d : B64.float) :
  B64.valid d = true -> B64.is_finite d = true ->
  -180 * scale < ticks d < 0 ->
  B64.valid (add d (lit 360)) = true /\
  B64.is_finite (add d (lit 360)) = true /\
  180 * scale <= ticks (add d (lit 360)) <= 360 * scale /\
  Z.abs (ticks (add d (lit 360)) - (ticks d + 360 * scale)) < 2 ^ 1030 /\
  (ticks d <= - 2 ^ 1030 -> ticks (add d (lit 360)) < 360 * scale).
Proof.
  intros V F Hd. pose proof scale_pos as Hs.
  change (add d (lit 360)) with (SFadd B64.prec B64.emax d (lit 360)).
  destruct lit_360 as (V360 & F360 & T360).
  pose proof big_no_overflow.
  destruct (SFadd_rounded d (lit 360) V V360 F F360) as (V' & F' & [Rlo Rhi]).
  { rewrite T360. lia. }
  rewrite T360 in Rlo, Rhi.
  destruct scale_facts as (S1 & S2 & S3 & S4 & S5).
  assert (R180 : representable (180 * scale))
    by (rewrite S4; apply representable_grid; rewrite <- S4; lia).
  assert (R360 : representable (360 * scale))
    by (rewrite S3; apply representable_grid; rewrite <- S3; lia).
  set (v := ticks d + 360 * scale) in *.
  set (G := 2 ^ 1030) in *.
  set (r := ticks (SFadd B64.prec B64.emax d (lit 360))) in *.
  pose proof (Rlo _ R180 ltac:(lia)) as B180.
  pose proof (Rhi _ R360 ltac:(lia)) as B360.
  pose proof (Z.div_mod v G ltac:(lia)) as Hdm.
  pose proof (Z.mod_pos_bound v G S5) as Hrem.
  assert (Rfloor : representable (v / G * G))
    by (apply representable_grid; fold G; nia).
  pose proof (Rlo _ Rfloor ltac:(nia)) as Bfloor.
  split; [exact V' | split; [exact F' | split; [lia | split ] ] ].
  - destruct (Z.eq_dec (v mod G) 0) as [Hex | Hin].
    + pose proof (Rhi _ Rfloor ltac:(nia)). lia.
    + assert (Rceil : representable ((v / G + 1) * G)).
      { apply representable_grid. fold G.
        assert (v / G + 1 <= 45 * 2 ^ 47) by nia. nia. }
      pose proof (Rhi _ Rceil ltac:(nia)). nia.
  - intros Hsmall.
    assert (Rpred : representable ((45 * 2 ^ 47 - 1) * G))
      by (apply representable_grid; fold G; nia).
    pose proof (Rhi _ Rpred ltac:(nia)). nia.
Qed.

Lemma normalizeAbsolute_ticks (fuel : nat) (d : B64.float) :
  B64.valid d = true -> isnan d = false ->
  gtb d (lit 1000000000) || ltb d (lit (-1000000000)) = false ->
  (max_iterations <= fuel)%nat ->
  exists r k,
    Degree.normalizeAbsolute fuel d = Some r /\
    B64.valid r = true /\ B64.is_finite r = true /\
    0 <= ticks r <= 360 * scale /\
    Z.abs (ticks r - (ticks d + k * (360 * scale))) < 2 ^ 1030 /\
    (0 <= ticks d \/ ticks d <= -180 * scale ->
     ticks r = ticks d + k * (360 * scale)) /\
    (0 <= ticks d \/ ticks d <= - 2 ^ 1030 -> ticks r < 360 * scale).
Proof.
  intros V N G Hfuel.
  destruct (guard_false_range d V N G) as (F & Hlo & Hhi).
  unfold Degree.normalizeAbsolute. rewrite N, G. unfold Degree.loops.
  pose proof scale_pos as Hs. pose proof max_iterations_Z as Hmax.
  destruct lit_360 as (V360 & F360 & T360).
  destruct lit_0 as (V0 & F0 & T0).
  destruct scale_facts as (S1 & S2 & S3 & S4 & S5).
  destruct (Z_le_gt_dec (360 * scale) (ticks d)) as [Hge | Hlt].
  - (* the first loop runs, the second does not *)
    destruct (@count_down (ticks d) (360 * scale) (360 * scale) 2777778)
      as (k & K0 & KN & Klo & Khi); try lia.
    destruct (@while_ge_exact 360 V360 F360 T360 k fuel d) as [Hsome _];
      try assumption; try lia.
    destruct (Hsome ltac:(lia)) as (r1 & E1 & V1 & F1 & T1). rewrite E1.
    destruct (@while_lt_exact 0 V0 F0 T0 O (fuel - k) r1) as [Hsome2 _];
      try assumption; try lia.
    destruct (Hsome2 ltac:(lia)) as (r2 & E2 & V2 & F2 & T2). rewrite E2.
    exists r2, (- Z.of_nat k). repeat split; auto; lia.
  - (* the first loop does not run *)
    destruct (@while_ge_exact 360 V360 F360 T360 O fuel d) as [Hsome _];
      try assumption; try lia.
    destruct (Hsome ltac:(lia)) as (r1 & E1 & V1 & F1 & T1). rewrite E1.
    rewrite Nat.sub_0_r.
    assert (Hr1 : ticks r1 = ticks d) by lia. clear T1 Hsome E1.
    destruct (Z_le_gt_dec 0 (ticks d)) as [Hpos | Hneg].
    + destruct (@while_lt_exact 0 V0 F0 T0 O fuel r1) as [Hsome2 _];
        try assumption; try lia.
      destruct (Hsome2 ltac:(lia)) as (r2 & E2 & V2 & F2 & T2). rewrite E2.
      exists r2, 0. repeat split; auto; lia.
    + destruct (Z_le_gt_dec (ticks d) (-180 * scale)) as [Hfar | Hnear].
      * (* exact additions *)
        destruct (@count_up (ticks d) 0 (360 * scale) 2777778)
          as (k & K0 & KN & Klo & Khi); try lia.
        destruct (@while_lt_exact 0 V0 F0 T0 k fuel r1) as [Hsome2 _];
          try assumption; try lia.
        { intros j Hj. apply add_multiple_representable; auto; lia. }
        destruct (Hsome2 ltac:(lia)) as (r2 & E2 & V2 & F2 & T2). rewrite E2.
        exists r2, (Z.of_nat k). repeat split; auto; lia.
      * (* one rounded addition *)
        destruct (add_360_rounds r1 V1 F1 ltac:(lia)) as (V' & F' & B' & Err & Lt').
        destruct fuel as [ | fuel]; [lia | ].
        cbn [Degree.while_lt].
        rewrite (@ltb_ticks 0 V0 F0 T0 r1 V1 F1).
        replace (ticks r1 <? 0 * scale) with true by (symmetry; apply Z.ltb_lt; lia).
        destruct (@while_lt_exact 0 V0 F0 T0 O fuel (add r1 (lit 360))) as [Hsome2 _];
          try assumption; try lia.
        destruct (Hsome2 ltac:(lia)) as (r2 & E2 & V2 & F2 & T2). rewrite E2.
        exists r2, 1. rewrite <- Hr1.
        repeat split; auto; try lia.
Qed.

(** ** From ticks to rational values *)

Lemma scaleQ_pos : (0 < inject_Z scale)%Q.
Proof. reflexivity. Qed.

Lemma toQ_scaled (x : B64.float) :
  B64.valid x = true -> B64.is_finite x = true ->
  (B64.toQ x * inject_Z scale == inject_Z (ticks x))%Q.
Proof.
  intros V F. destruct x as [s | s | | s m e]; try discriminate.
  - cbn [B64.toQ ticks]. ring.
  - destruct (valid_finite_inv _ _ _ V) as (He & _).
    cbn [B64.toQ ticks].
    rewrite inject_Z_mult, Zpower_Qpower by lia.
    unfold scale. rewrite Zpower_Qpower by lia.
    rewrite (Qpower_plus (inject_Z 2) e 1074) by discriminate.
    change (inject_Z 2) with 2%Q. ring.
Qed.

Lemma toQ_le (a : Z) (x : B64.float) :
  B64.valid x = true -> B64.is_finite x = true ->
  (inject_Z a <= B64.toQ x)%Q <-> a * scale <= ticks x.
Proof.
  intros V F.
  rewrite <- (Qmult_le_r _ _ _ scaleQ_pos), (toQ_scaled x V F), <- inject_Z_mult.
  rewrite <- Zle_Qle. reflexivity.
Qed.

Lemma toQ_ge (a : Z) (x : B64.float) :
  B64.valid x = true -> B64.is_finite x = true ->
  (B64.toQ x <= inject_Z a)%Q <-> ticks x <= a * scale.
Proof.
  intros V F.
  rewrite <- (Qmult_le_r _ _ _ scaleQ_pos), (toQ_scaled x V F), <- inject_Z_mult.
  rewrite <- Zle_Qle. reflexivity.
Qed.

Lemma toQ_lt (a : Z) (x : B64.float) :
  B64.valid x = true -> B64.is_finite x = true ->
  (B64.toQ x < inject_Z a)%Q <-> ticks x < a * scale.
Proof.
  intros V F.
  rewrite <- (Qmult_lt_r _ _ _ scaleQ_pos), (toQ_scaled x V F), <- inject_Z_mult.
  rewrite <- Zlt_Qlt. reflexivity.
Qed.

Lemma toQ_congruent (k : Z) (x y : B64.float) :
  B64.valid x = true -> B64.is_finite x = true ->
  B64.valid y = true -> B64.is_finite y = true ->
  ticks y = ticks x + k * (360 * scale) ->
  (B64.toQ y == B64.toQ x + 360 * inject_Z k)%Q.
Proof.
  intros Vx Fx Vy Fy H.
  apply (Qmult_inj_r _ _ (inject_Z scale)); [discriminate | ].
  rewrite Qmult_plus_distr_l, (toQ_scaled x Vx Fx), (toQ_scaled y Vy Fy), H.
  rewrite inject_Z_plus, !inject_Z_mult. change (inject_Z 360) with 360%Q. ring.
Qed.

Lemma toQ_gt (a : Z) (x : B64.float) :
  B64.valid x = true -> B64.is_finite x = true ->
  (inject_Z a < B64.toQ x)%Q <-> a * scale < ticks x.
Proof.
  intros V F.
  rewrite <- (Qmult_lt_r _ _ _ scaleQ_pos), (toQ_scaled x V F), <- inject_Z_mult.
  rewrite <- Zlt_Qlt. reflexivity.
Qed.

Lemma toQ_error (k : Z) (x y : B64.float) :
  B64.valid x = true -> B64.is_finite x = true ->
  B64.valid y = true -> B64.is_finite y = true ->
  Z.abs (ticks y - (ticks x + k * (360 * scale))) < 2 ^ 1030 ->
  (Qabs.Qabs (B64.toQ y - (B64.toQ x + 360 * inject_Z k)) < 2 ^ (-44))%Q.
Proof.
  intros Vx Fx Vy Fy H.
  assert (E : ((B64.toQ y - (B64.toQ x + 360 * inject_Z k)) * inject_Z scale ==
               inject_Z (ticks y - (ticks x + k * (360 * scale))))%Q).
  { unfold Z.sub. rewrite !inject_Z_plus, !inject_Z_opp, inject_Z_plus, !inject_Z_mult.
    rewrite <- (toQ_scaled x Vx Fx), <- (toQ_scaled y Vy Fy).
    change (inject_Z 360) with 360%Q. ring. }
  assert (P : (2 ^ (-44) * inject_Z scale == inject_Z (2 ^ 1030))%Q) by reflexivity.
  apply Qabs.Qabs_Qlt_condition. split.
  - apply (Qmult_lt_r _ _ _ scaleQ_pos).
    setoid_replace (- 2 ^ (-44) * inject_Z scale)%Q with (inject_Z (- 2 ^ 1030))
      by (rewrite inject_Z_opp, <- P; ring).
    rewrite E, <- Zlt_Qlt. lia.
  - apply (Qmult_lt_r _ _ _ scaleQ_pos).
    rewrite E, P, <- Zlt_Qlt. lia.
Qed.

Lemma toQ_le_eps (x : B64.float) :
  B64.valid x = true -> B64.is_finite x = true ->
  (B64.toQ x <= - 2 ^ (-44))%Q <-> ticks x <= - 2 ^ 1030.
Proof.
  intros V F.
  assert (P : (- 2 ^ (-44) * inject_Z scale == inject_Z (- 2 ^ 1030))%Q) by reflexivity.
  rewrite <- (Qmult_le_r _ _ _ scaleQ_pos), (toQ_scaled x V F), P.
  rewrite <- Zle_Qle. reflexivity.
Qed.

(** * The claims on [double] *)

(** C1, as the code has it at [T = double].  For every double [d] that is
    not NaN and does not take the large-magnitude escape ([|d| <= 1e9]),
    [normalizeRelative d] returns within [max_iterations] loop iterations a
    double [r] with [-180 <= r < 180] and [r = d + 360 k] for an integer
    [k], exactly. *)
Theorem normalizeRelative_range_congruent (fuel : nat) (d : B64.float) :
  B64.valid d = true -> isnan d = false ->
  gtb d (lit 1000000000) || ltb d (lit (-1000000000)) = false ->
  (max_iterations <= fuel)%nat ->
  exists r k,
    Degree.normalizeRelative fuel d = Some r /\
    B64.valid r = true /\ B64.is_finite r = true /\
    (-180 <= B64.toQ r)%Q /\ (B64.toQ r < 180)%Q /\
    (B64.toQ r == B64.toQ d + 360 * inject_Z k)%Q.
Proof.
  intros V N G Hfuel.
  destruct (guard_false_range d V N G) as (F & _).
  destruct (@normalizeRelative_ticks fuel d V N G Hfuel) as (r & k & E & Vr & Fr & [Hlo Hhi] & Hk).
  exists r, k. split; [exact E | split; [exact Vr | split; [exact Fr | ] ] ].
  split; [ | split].
  - change (-180)%Q with (inject_Z (-180)). now apply toQ_le.
  - change 180%Q with (inject_Z 180). now apply toQ_lt.
  - now apply toQ_congruent.
Qed.

Lemma normalizeRelative_range_congruent_witness :
  exists r k,
    Degree.normalizeRelative max_iterations (lit 1234567) = Some r /\
    B64.valid r = true /\ B64.is_finite r = true /\
    (-180 <= B64.toQ r)%Q /\ (B64.toQ r < 180)%Q /\
    (B64.toQ r == B64.toQ (lit 1234567) + 360 * inject_Z k)%Q.
Proof.
  apply normalizeRelative_range_congruent;
    [reflexivity | reflexivity | reflexivity | apply le_n].
Defined.

(** C2, as the code has it.  For every double [d] that is not NaN and does
    not take the escape, [normalizeAbsolute d] returns within
    [max_iterations] iterations a double [r >= 0] that differs from some
    [d + 360 k] by less than [2^-44]: the subtractions are exact, and so are
    the additions from [d <= -180]; from [-180 < d < 0] the one addition
    [d + 360] is rounded.  [r = d + 360 k] holds exactly when [d >= 0] or
    [d <= -180], and [r < 360] when [d >= 0] or [d <= -2^-44]. *)
Theorem normalizeAbsolute_range_congruent (fuel : nat) (d : B64.float) :
  B64.valid d = true -> isnan d = false ->
  gtb d (lit 1000000000) || ltb d (lit (-1000000000)) = false ->
  (max_iterations <= fuel)%nat ->
  exists r k,
    Degree.normalizeAbsolute fuel d = Some r /\
    B64.valid r = true /\ B64.is_finite r = true /\
    (0 <= B64.toQ r)%Q /\
    (Qabs (B64.toQ r - (B64.toQ d + 360 * inject_Z k)) < 2 ^ (-44))%Q /\
    ((0 <= B64.toQ d)%Q \/ (B64.toQ d <= -180)%Q ->
     (B64.toQ r == B64.toQ d + 360 * inject_Z k)%Q) /\
    ((0 <= B64.toQ d)%Q \/ (B64.toQ d <= - 2 ^ (-44))%Q ->
     (B64.toQ r < 360)%Q).
Proof.
  intros V N G Hfuel.
  destruct (guard_false_range d V N G) as (F & _).
  destruct (@normalizeAbsolute_ticks fuel d V N G Hfuel)
    as (r & k & E & Vr & Fr & [Hlo Hhi] & Herr & Hex & Hlt).
  exists r, k. split; [exact E | split; [exact Vr | split; [exact Fr | ] ] ].
  split; [ | split; [ | split] ].
  - change 0%Q with (inject_Z 0). now apply toQ_le.
  - now apply toQ_error.
  - intros Hd. apply toQ_congruent; auto. apply Hex.
    destruct Hd as [Hd | Hd]; [left | right].
    + change 0%Q with (inject_Z 0) in Hd. apply toQ_le in Hd; auto.
    + change (-180)%Q with (inject_Z (-180)) in Hd. apply toQ_ge in Hd; auto.
  - intros Hd. change 360%Q with (inject_Z 360). apply toQ_lt; auto. apply Hlt.
    destruct Hd as [Hd | Hd]; [left | right].
    + change 0%Q with (inject_Z 0) in Hd. apply toQ_le in Hd; auto.
    + apply toQ_le_eps in Hd; auto.
Qed.

Lemma normalizeAbsolute_range_congruent_witness :
  exists r k,
    Degree.normalizeAbsolute max_iterations (lit (-1234567)) = Some r /\
    B64.valid r = true /\ B64.is_finite r = true /\
    (0 <= B64.toQ r)%Q /\
    (Qabs (B64.toQ r - (B64.toQ (lit (-1234567)) + 360 * inject_Z k)) < 2 ^ (-44))%Q /\
    ((0 <= B64.toQ (lit (-1234567)))%Q \/ (B64.toQ (lit (-1234567)) <= -180)%Q ->
     (B64.toQ r == B64.toQ (lit (-1234567)) + 360 * inject_Z k)%Q) /\
    ((0 <= B64.toQ (lit (-1234567)))%Q \/
     (B64.toQ (lit (-1234567)) <= - 2 ^ (-44))%Q ->
     (B64.toQ r < 360)%Q).
Proof.
  apply normalizeAbsolute_range_congruent;
    [reflexivity | reflexivity | reflexivity | apply le_n].
Defined.

(** C2, the claim as the specification states it, fails: on [-2^-1074] the
    call does not take the escape, adds [360.0] once, and the sum rounds to
    [360.0], which is not below [360]. *)
Lemma normalizeAbsolute_returns_360 :
  B64.valid tiny_negative = true /\ isnan tiny_negative = false /\
  gtb tiny_negative (lit 1000000000) || ltb tiny_negative (lit (-1000000000)) = false /\
  Degree.normalizeAbsolute 1 tiny_negative = Some (lit 360) /\
  (B64.toQ (lit 360) == 360)%Q /\
  ~ (B64.toQ (lit 360) < 360)%Q.
Proof.
  repeat split; try reflexivity.
  intros H. vm_compute in H. discriminate H.
Qed.

(** On [-(1 + 2^-52)] the result is [359.0]: in range, but [359 - d] is not
    a multiple of [360]. *)
Lemma normalizeAbsolute_rounds_sum :
  Degree.normalizeAbsolute 1 below_minus_one = Some (lit 359) /\
  (B64.toQ (lit 359) == 359)%Q /\
  (B64.toQ below_minus_one == - (1 + 2 ^ (-52)))%Q /\
  ~ exists k : Z, (B64.toQ (lit 359) == B64.toQ below_minus_one + 360 * inject_Z k)%Q.
Proof.
  repeat split; try reflexivity.
  intros [k Hk].
  assert (E : (B64.toQ (lit 359) == 359)%Q) by reflexivity.
  assert (D : (B64.toQ below_minus_one == (-4503599627370497 # 4503599627370496))%Q)
    by reflexivity.
  rewrite E, D in Hk.
  assert (H : ((359 - (-4503599627370497 # 4503599627370496)) *
               inject_Z 4503599627370496 ==
               360 * inject_Z k * inject_Z 4503599627370496)%Q).
  { rewrite Hk. ring. }
  assert (L : ((359 - (-4503599627370497 # 4503599627370496)) *
               inject_Z 4503599627370496 == inject_Z 1621295865853378561)%Q)
    by reflexivity.
  rewrite L in H. change 360%Q with (inject_Z 360) in H.
  rewrite <- !inject_Z_mult in H. apply (proj1 (inject_Z_injective _ _)) in H.
  apply (f_equal Z.even) in H. rewrite !Z.even_mul in H.
  change (Z.even 360) with true in H.
  change (Z.even 1621295865853378561) with false in H.
  cbn [orb] in H. discriminate H.
Qed.

(** C3.  On a NaN both normalisers return the NaN itself, before any loop
    (with no fuel at all). *)
Theorem normalize_nan_passthrough (T : Type) (A : Arith T) (fuel : nat) (d : T) :
  isnan d = true ->
  Degree.normalizeRelative fuel d = Some d /\
  Degree.normalizeAbsolute fuel d = Some d.
Proof.
  intros H. unfold Degree.normalizeRelative, Degree.normalizeAbsolute.
  rewrite H. split; reflexivity.
Qed.

Lemma normalize_nan_passthrough_witness :
  Degree.normalizeRelative 0 S754_nan = Some S754_nan /\
  Degree.normalizeAbsolute 0 S754_nan = Some S754_nan.
Proof.
  apply (@normalize_nan_passthrough B64.float binary64 0%nat S754_nan).
  reflexivity.
Defined.

(** C4.  A double that is not NaN takes the large-magnitude escape exactly
    when it is infinite or its value exceeds [1e9] in magnitude; the call
    then returns [0.0] whatever the fuel, that is without entering a loop;
    otherwise ([|d| <= 1e9], the bound included) it runs the two loops. *)
Theorem large_magnitude_escape (fuel : nat) (d : B64.float) :
  B64.valid d = true -> isnan d = false ->
  (gtb d (lit 1000000000) || ltb d (lit (-1000000000)) = true <->
   B64.is_finite d = false \/
   (1000000000 < B64.toQ d)%Q \/ (B64.toQ d < -1000000000)%Q) /\
  (gtb d (lit 1000000000) || ltb d (lit (-1000000000)) = true ->
   Degree.normalizeRelative fuel d = Some (lit 0) /\
   Degree.normalizeAbsolute fuel d = Some (lit 0)) /\
  (gtb d (lit 1000000000) || ltb d (lit (-1000000000)) = false ->
   Degree.normalizeRelative fuel d = Degree.loops (lit 180) (lit (-180)) fuel d /\
   Degree.normalizeAbsolute fuel d = Degree.loops (lit 360) (lit 0) fuel d).
Proof.
  intros V N. split; [ | split].
  - destruct (B64.is_finite d) eqn:F.
    + destruct lit_1e9 as (V1 & F1 & T1). destruct lit_m1e9 as (V2 & F2 & T2).
      change (gtb d (lit 1000000000)) with (SFltb (lit 1000000000) d).
      change (ltb d (lit (-1000000000))) with (SFltb d (lit (-1000000000))).
      rewrite !SFltb_ticks, T1, T2, orb_true_iff, !Z.ltb_lt by assumption.
      change 1000000000%Q with (inject_Z 1000000000).
      change (-1000000000)%Q with (inject_Z (-1000000000)).
      rewrite toQ_gt, toQ_lt by assumption.
      split; [intros [H | H]; right; [left | right]; exact H | ].
      intros [H | [H | H] ]; [discriminate H | left; exact H | right; exact H].
    + split; [intros _; left; reflexivity | intros _].
      destruct d as [s | [ | ] | | s m e]; try discriminate F; try discriminate N;
        reflexivity.
  - intros G. unfold Degree.normalizeRelative, Degree.normalizeAbsolute.
    rewrite N, G. split; reflexivity.
  - intros G. unfold Degree.normalizeRelative, Degree.normalizeAbsolute.
    rewrite N, G. split; reflexivity.
Qed.

Lemma large_magnitude_escape_witness :
  Degree.normalizeRelative 0 (lit 2000000000 : B64.float) = Some (lit 0) /\
  Degree.normalizeAbsolute 0 (lit (-2000000000) : B64.float) = Some (lit 0).
Proof.
  split.
  - destruct (large_magnitude_escape 0 (lit 2000000000)) as (_ & H & _);
      [reflexivity | reflexivity | ].
    exact (proj1 (H eq_refl)).
  - destruct (large_magnitude_escape 0 (lit (-2000000000))) as (_ & H & _);
      [reflexivity | reflexivity | ].
    exact (proj2 (H eq_refl)).
Defined.

(** ** The worst cases *)

(** [1e9] keeps the subtracting loop of [normalizeRelative] busy for all of
    [max_iterations] turns: one unit of fuel less does not suffice. *)
Lemma worst_case_relative :
  Degree.normalizeRelative (pred max_iterations) (lit 1000000000 : B64.float) = None.
Proof.
  unfold Degree.normalizeRelative, Degree.loops.
  change (isnan (lit 1000000000 : B64.float)) with false.
  change (gtb (lit 1000000000 : B64.float) (lit 1000000000) ||
          ltb (lit 1000000000 : B64.float) (lit (-1000000000))) with false.
  cbv iota.
  destruct lit_180 as (V180 & F180 & T180).
  destruct lit_1e9 as (V1 & F1 & T1).
  pose proof scale_pos as Hs. pose proof max_iterations_Z as Hmax.
  assert (Hhi : ticks (lit 1000000000) <= 2 ^ 30 * scale) by (rewrite T1; lia).
  assert (Hlast : max_iterations <> O ->
            180 * scale <=
            ticks (lit 1000000000) - (Z.of_nat max_iterations - 1) * (360 * scale))
    by (intros _; rewrite T1, Hmax; lia).
  assert (Hstop : ticks (lit 1000000000) - Z.of_nat max_iterations * (360 * scale)
                  < 180 * scale) by (rewrite T1, Hmax; lia).
  assert (Hfuel : (pred max_iterations < max_iterations)%nat) by lia.
  destruct (@while_ge_exact 180 V180 F180 T180 max_iterations (pred max_iterations)
              (lit 1000000000) ltac:(lia) V1 F1 Hhi Hlast Hstop) as [_ Hnone].
  rewrite (Hnone Hfuel). reflexivity.
Qed.

(** [-1e9] does the same to the adding loop of [normalizeAbsolute]. *)
Lemma worst_case_absolute :
  Degree.normalizeAbsolute (pred max_iterations) (lit (-1000000000) : B64.float) = None.
Proof.
  unfold Degree.normalizeAbsolute, Degree.loops.
  change (isnan (lit (-1000000000) : B64.float)) with false.
  change (gtb (lit (-1000000000) : B64.float) (lit 1000000000) ||
          ltb (lit (-1000000000) : B64.float) (lit (-1000000000))) with false.
  cbv iota.
  destruct lit_360 as (V360 & F360 & T360).
  destruct lit_0 as (V0 & F0 & T0).
  destruct lit_m1e9 as (V1 & F1 & T1).
  pose proof scale_pos as Hs. pose proof max_iterations_Z as Hmax.
  assert (Hhi : ticks (lit (-1000000000)) <= 2 ^ 30 * scale) by (rewrite T1; lia).
  assert (Hlast : O <> O ->
            360 * scale <=
            ticks (lit (-1000000000)) - (Z.of_nat 0 - 1) * (360 * scale))
    by (intros H; now elim H).
  assert (Hstop : ticks (lit (-1000000000)) - Z.of_nat 0 * (360 * scale)
                  < 360 * scale) by (rewrite T1; change (Z.of_nat 0) with 0; lia).
  destruct (@while_ge_exact 360 V360 F360 T360 O (pred max_iterations)
              (lit (-1000000000)) ltac:(lia) V1 F1 Hhi Hlast Hstop) as [Hsome _].
  destruct (Hsome (Nat.le_0_l _)) as (r1 & E1 & Vr & Fr & Tr). rewrite E1.
  change (Z.of_nat 0) with 0 in Tr.
  assert (Hr : ticks r1 = -1000000000 * scale) by (rewrite Tr, T1; lia).
  assert (Hlo : - (2 ^ 30 * scale) <= ticks r1) by (rewrite Hr; lia).
  assert (Hlast2 : max_iterations <> O ->
            ticks r1 + (Z.of_nat max_iterations - 1) * (360 * scale) < 0 * scale)
    by (intros _; rewrite Hr, Hmax; lia).
  assert (Hstop2 : 0 * scale <= ticks r1 + Z.of_nat max_iterations * (360 * scale))
    by (rewrite Hr, Hmax; lia).
  assert (Hrep : forall j, 0 < j <= Z.of_nat max_iterations ->
            representable (ticks r1 + j * (360 * scale))).
  { rewrite Hmax. intros j Hj.
    apply add_multiple_representable; auto; rewrite ?Hr; (lia || nia). }
  assert (Hfuel : (pred max_iterations - 0 < max_iterations)%nat) by lia.
  destruct (@while_lt_exact 0 V0 F0 T0 max_iterations (pred max_iterations - 0) r1
              ltac:(lia) Vr Fr Hlo Hlast2 Hstop2 Hrep) as [_ Hnone].
  rewrite (Hnone Hfuel). reflexivity.
Qed.

(** C9, as the code has it.  On every double that is not NaN and does not
    take the escape both normalisers return within [max_iterations =
    2777778] loop iterations; [1e9] and [-1e9] need every one of them. *)
Theorem normalize_terminates_within (d : B64.float) :
  B64.valid d = true -> isnan d = false ->
  gtb d (lit 1000000000) || ltb d (lit (-1000000000)) = false ->
  (exists r, Degree.normalizeRelative max_iterations d = Some r) /\
  (exists r, Degree.normalizeAbsolute max_iterations d = Some r) /\
  Degree.normalizeRelative (pred max_iterations) (lit 1000000000 : B64.float) = None /\
  Degree.normalizeAbsolute (pred max_iterations) (lit (-1000000000) : B64.float) = None.
Proof.
  intros V N G.
  destruct (@normalizeRelative_ticks max_iterations d V N G (le_n _))
    as (r1 & k1 & E1 & _).
  destruct (@normalizeAbsolute_ticks max_iterations d V N G (le_n _))
    as (r2 & k2 & E2 & _).
  split; [exists r1; exact E1 | split; [exists r2; exact E2 | ] ].
  split; [exact worst_case_relative | exact worst_case_absolute].
Qed.

Lemma normalize_terminates_within_witness :
  (exists r, Degree.normalizeRelative max_iterations (lit 1000000000 : B64.float) = Some r) /\
  (exists r, Degree.normalizeAbsolute max_iterations (lit 1000000000 : B64.float) = Some r) /\
  Degree.normalizeRelative (pred max_iterations) (lit 1000000000 : B64.float) = None /\
  Degree.normalizeAbsolute (pred max_iterations) (lit (-1000000000) : B64.float) = None.
Proof.
  apply normalize_terminates_within; [reflexivity | reflexivity | reflexivity].
Defined.

(** C9, the claim as the specification states it, fails: [1e9] does not take
    the escape, and a thousand iterations do not bring it below [180]. *)
Lemma a_thousand_iterations_do_not_suffice :
  isnan (lit 1000000000 : B64.float) = false /\
  gtb (lit 1000000000 : B64.float) (lit 1000000000) ||
    ltb (lit 1000000000 : B64.float) (lit (-1000000000)) = false /\
  Degree.normalizeRelative 1000 (lit 1000000000 : B64.float) = None.
Proof. repeat split; vm_compute; reflexivity. Qed.

(** * The claims in exact arithmetic, and on the formulas *)

Local Open Scope R_scope.

Lemma toRadian_R (d : R) : Degree.toRadian d = d * PI / 180.
Proof. reflexivity. Qed.

Lemma fromRadian_R (r : R) : Degree.fromRadian r = r * 180 / PI.
Proof. reflexivity. Qed.

(** C5, the claim as the specification states it, fails on doubles: [1e308]
    is finite, [1e308 * pi] overflows, and the round trip returns
    [+infinity]. *)
Lemma radian_round_trip_overflows :
  B64.valid (lit (10 ^ 308)) = true /\
  B64.is_finite (lit (10 ^ 308)) = true /\
  Degree.toRadian (lit (10 ^ 308) : B64.float) = S754_infinity false /\
  Degree.fromRadian (Degree.toRadian (lit (10 ^ 308) : B64.float)) =
    S754_infinity false.
Proof. repeat split; vm_compute; reflexivity. Qed.

(** ** The comparisons and [normalizeAbsolute] on reals already in range *)

Lemma Rltb_true (a b : R) : a < b -> ExactR.Rltb a b = true.
Proof. intros H. unfold ExactR.Rltb. destruct (Rlt_dec a b); [reflexivity | contradiction]. Qed.

Lemma Rltb_false (a b : R) : b <= a -> ExactR.Rltb a b = false.
Proof. intros H. unfold ExactR.Rltb. destruct (Rlt_dec a b); [lra | reflexivity]. Qed.

Lemma Rleb_true (a b : R) : a <= b -> ExactR.Rleb a b = true.
Proof. intros H. unfold ExactR.Rleb. destruct (Rle_dec a b); [reflexivity | contradiction]. Qed.

Lemma Rleb_false (a b : R) : b < a -> ExactR.Rleb a b = false.
Proof. intros H. unfold ExactR.Rleb. destruct (Rle_dec a b); [lra | reflexivity]. Qed.

Lemma normalizeAbsolute_R_in_range (fuel : nat) (x : R) :
  0 <= x < 360 -> Degree.normalizeAbsolute fuel x = Some x.
Proof.
  intros [H0 H360].
  unfold Degree.normalizeAbsolute, Degree.loops, gtb.
  cbn [isnan ltb lit exactR].
  rewrite (Rltb_false (a := 1000000000) (b := x)) by lra.
  rewrite (Rltb_false (a := x) (b := -1000000000)) by lra.
  cbn [orb].
  assert (G : Degree.while_ge (IZR 360) fuel x = Some (fuel, x)).
  { destruct fuel; cbn [Degree.while_ge]; unfold geb; cbn [leb exactR];
      rewrite Rleb_false by lra; reflexivity. }
  assert (L : Degree.while_lt (IZR 0) fuel x = Some (fuel, x)).
  { destruct fuel; cbn [Degree.while_lt ltb exactR];
      rewrite Rltb_false by lra; reflexivity. }
  rewrite G, L. reflexivity.
Qed.

(** ** distanceFrom *)

Lemma acosArg_R (self other : BasicLatLng R) :
  acosArg self other =
  Rtrigo_def.sin (lat self * PI / 180) * Rtrigo_def.sin (lat other * PI / 180) +
  Rtrigo_def.cos (lat self * PI / 180) * Rtrigo_def.cos (lat other * PI / 180) *
  Rtrigo_def.cos ((lng other - lng self) * PI / 180).
Proof.
  unfold acosArg. rewrite !toRadian_R. cbn [add mul sub sin cos exactR trigR].
  do 3 f_equal. field.
Qed.

(** C6.  [distanceFrom] is [R * acos (sin lat1 * sin lat2 + cos lat1 * cos
    lat2 * cos dlng)] with [R = 6378137], the angles converted by [toRadian]
    and [dlng] the other point's longitude minus this one's.  On doubles the
    sum goes to [acos] as computed, nothing is clamped: whatever [acos]
    returns is multiplied by [R], and a NaN from [acos] is the result. *)
Theorem distanceFrom_formula
  (self other : BasicLatLng R)
  (libm : Trig B64.float) (p q : BasicLatLng B64.float) :
  distanceFrom self other =
    6378137 *
    Ratan.acos
      (Rtrigo_def.sin (lat self * PI / 180) * Rtrigo_def.sin (lat other * PI / 180) +
       Rtrigo_def.cos (lat self * PI / 180) * Rtrigo_def.cos (lat other * PI / 180) *
       Rtrigo_def.cos ((lng other - lng self) * PI / 180)) /\
  distanceFrom p q =
    SFmul B64.prec B64.emax (lit 6378137)
      (acos
         (SFadd B64.prec B64.emax
            (SFmul B64.prec B64.emax
               (sin (Degree.toRadian (lat p))) (sin (Degree.toRadian (lat q))))
            (SFmul B64.prec B64.emax
               (SFmul B64.prec B64.emax
                  (cos (Degree.toRadian (lat p))) (cos (Degree.toRadian (lat q))))
               (cos (SFsub B64.prec B64.emax
                       (Degree.toRadian (lng q)) (Degree.toRadian (lng p))))))) /\
  (acos (acosArg p q) = S754_nan -> distanceFrom p q = S754_nan) /\
  (B64.toQ (lit 6378137) == 6378137)%Q.
Proof.
  split; [ | split; [reflexivity | split; [ | reflexivity] ] ].
  - unfold distanceFrom. rewrite acosArg_R. reflexivity.
  - intros Hnan. unfold distanceFrom. rewrite Hnan. reflexivity.
Qed.

(** C7.  In exact arithmetic the distance is symmetric. *)
Theorem distanceFrom_symmetric (a b : BasicLatLng R) :
  distanceFrom a b = distanceFrom b a.
Proof.
  unfold distanceFrom. rewrite !acosArg_R. do 2 f_equal.
  replace ((lng a - lng b) * PI / 180) with (- ((lng b - lng a) * PI / 180)) by field.
  rewrite cos_neg. ring.
Qed.

(** ** azimuthFrom *)

Lemma atan2_on_axis (y : R) :
  (0 < y -> ExactR.atan2 y 0 = PI / 2) /\
  (y < 0 -> ExactR.atan2 y 0 = - (PI / 2)).
Proof.
  unfold ExactR.atan2. split; intros Hy.
  - destruct (Rlt_dec 0 0); [lra | ]. destruct (Rlt_dec 0 y); [reflexivity | lra].
  - destruct (Rlt_dec 0 0); [lra | ].
    destruct (Rlt_dec 0 y); [lra | ].
    destruct (Rlt_dec y 0); [reflexivity | lra].
Qed.

Lemma azimuthFrom_R (fuel : nat) (self other : BasicLatLng R) :
  azimuthFrom fuel self other =
  Degree.normalizeAbsolute fuel
    (ExactR.atan2
       (Rtrigo_def.sin ((lng other - lng self) * PI / 180))
       (Rtrigo_def.cos (lat self * PI / 180) * Rtrigo1.tan (lat other * PI / 180) -
        Rtrigo_def.sin (lat self * PI / 180) *
        Rtrigo_def.cos ((lng other - lng self) * PI / 180))
     * 180 / PI + 180).
Proof.
  unfold azimuthFrom. rewrite fromRadian_R, !toRadian_R.
  cbn [add mul sub lit sin cos tan atan2 exactR trigR].
  replace (lng other * PI / 180 - lng self * PI / 180)
    with ((lng other - lng self) * PI / 180) by field.
  reflexivity.
Qed.

Lemma azimuthFrom_equator (fuel : nat) :
  azimuthFrom fuel (mkLatLng 0 90) (mkLatLng 0 0) = Some 90 /\
  azimuthFrom fuel (mkLatLng 0 0) (mkLatLng 0 90) = Some 270.
Proof.
  pose proof PI_neq0 as Hpi. split.
  - rewrite azimuthFrom_R. cbn [lat lng].
    replace ((0 - 90) * PI / 180) with (- (PI / 2)) by field.
    replace (0 * PI / 180) with 0 by field.
    rewrite sin_neg, cos_neg, sin_PI2, cos_PI2, sin_0, cos_0, tan_0.
    replace (1 * 0 - 0 * 0) with 0 by ring.
    rewrite (proj2 (atan2_on_axis (- (1)))) by lra.
    replace (- (PI / 2) * 180 / PI + 180) with 90 by (field; exact Hpi).
    apply normalizeAbsolute_R_in_range. lra.
  - rewrite azimuthFrom_R. cbn [lat lng].
    replace ((90 - 0) * PI / 180) with (PI / 2) by field.
    replace (0 * PI / 180) with 0 by field.
    rewrite sin_PI2, cos_PI2, sin_0, cos_0, tan_0.
    replace (1 * 0 - 0 * 0) with 0 by ring.
    rewrite (proj1 (atan2_on_axis 1)) by lra.
    replace (PI / 2 * 180 / PI + 180) with 270 by (field; exact Hpi).
    apply normalizeAbsolute_R_in_range. lra.
Qed.

(** C8, as the code has it.  [azimuthFrom] takes [y = sin dlng] and [x = cos
    lat1 * tan lat2 - sin lat1 * cos dlng] ([lat1] this point's, [lat2] the
    other's, [dlng] the other's longitude minus this one's), converts [atan2
    y x] to degrees, adds [180] and normalises with [normalizeAbsolute].  The
    result is the azimuth of the arrow drawn from the other point: called on
    [(0, 90)] with [(0, 0)] it is [90], called on [(0, 0)] with [(0, 90)] it
    is [270] (exact arithmetic, no loop iteration needed). *)
Theorem azimuthFrom_formula (fuel : nat) (self other : BasicLatLng R) :
  azimuthFrom fuel self other =
    Degree.normalizeAbsolute fuel
      (ExactR.atan2
         (Rtrigo_def.sin ((lng other - lng self) * PI / 180))
         (Rtrigo_def.cos (lat self * PI / 180) * Rtrigo1.tan (lat other * PI / 180) -
          Rtrigo_def.sin (lat self * PI / 180) *
          Rtrigo_def.cos ((lng other - lng self) * PI / 180))
       * 180 / PI + 180) /\
  azimuthFrom fuel (mkLatLng 0 90) (mkLatLng 0 0) = Some 90 /\
  azimuthFrom fuel (mkLatLng 0 0) (mkLatLng 0 90) = Some 270.
Proof.
  split; [apply azimuthFrom_R | apply azimuthFrom_equator].
Qed.

(** C8, the claim as the specification states it, fails: with [(0, 0)] as
    this point and [(0, 90)] as the other the code returns [270], not a
    value near [90]. *)
Lemma azimuthFrom_origin_east_is_270 :
  azimuthFrom 0 (mkLatLng 0 0) (mkLatLng 0 90) = Some 270 /\ 270 - 90 = 180.
Proof.
  split; [apply azimuthFrom_equator | lra].
Qed.

(** * Further properties *)

(** ** The two normalisers in exact arithmetic *)

Lemma while_ge_R (B : R) (k fuel : nat) (x : R) :
  (k <= fuel)%nat ->
  (k <> O -> B <= x - (INR k - 1) * 360) ->
  x - INR k * 360 < B ->
  Degree.while_ge B fuel x = Some ((fuel - k)%nat, x - INR k * 360).
Proof.
  revert fuel x. induction k as [ | k IH]; intros fuel x Hk Hlast Hstop.
  - cbn [INR] in Hstop. rewrite Nat.sub_0_r.
    replace (x - INR 0 * 360) with x by (cbn [INR]; ring).
    destruct fuel; cbn [Degree.while_ge]; unfold geb; cbn [leb exactR];
      rewrite Rleb_false by lra; reflexivity.
  - specialize (Hlast ltac:(discriminate)). rewrite S_INR in *.
    pose proof (pos_INR k) as Hpos.
    destruct fuel as [ | fuel]; [lia | ].
    cbn [Degree.while_ge]. unfold geb. cbn [leb sub lit exactR].
    rewrite Rleb_true by nra.
    rewrite IH; [ | lia | intros _; lra | lra].
    cbn [Nat.sub]. do 2 f_equal. ring.
Qed.

Lemma while_lt_R (B : R) (k fuel : nat) (x : R) :
  (k <= fuel)%nat ->
  (k <> O -> x + (INR k - 1) * 360 < B) ->
  B <= x + INR k * 360 ->
  Degree.while_lt B fuel x = Some ((fuel - k)%nat, x + INR k * 360).
Proof.
  revert fuel x. induction k as [ | k IH]; intros fuel x Hk Hlast Hstop.
  - cbn [INR] in Hstop. rewrite Nat.sub_0_r.
    replace (x + INR 0 * 360) with x by (cbn [INR]; ring).
    destruct fuel; cbn [Degree.while_lt ltb exactR];
      rewrite Rltb_false by lra; reflexivity.
  - specialize (Hlast ltac:(discriminate)). rewrite S_INR in *.
    pose proof (pos_INR k) as Hpos.
    destruct fuel as [ | fuel]; [lia | ].
    cbn [Degree.while_lt ltb add lit exactR].
    rewrite Rltb_true by nra.
    rewrite IH; [ | lia | intros _; lra | lra].
    cbn [Nat.sub]. do 2 f_equal. ring.
Qed.

(** The number of turns a loop takes from distance [r * 360] of its bound:
    the integer [k] with [k - 1 <= r < k], respectively [k - 1 < r <= k]. *)
Lemma turns_down (r : R) :
  0 <= r -> r < 2777778 ->
  exists k : nat, k <> O /\ (k <= max_iterations)%nat /\ INR k - 1 <= r < INR k.
Proof.
  intros H0 Hmax. destruct (archimed r) as [Hup Hdn].
  assert (Hz : (0 < up r)%Z) by (apply lt_IZR; lra).
  assert (Hm : (up r < 2777779)%Z) by (apply lt_IZR; lra).
  exists (Z.to_nat (up r)).
  rewrite INR_IZR_INZ, Z2Nat.id by lia.
  pose proof max_iterations_Z. repeat split; try lia; lra.
Qed.

Lemma turns_up (r : R) :
  0 < r -> r <= 2777778 ->
  exists k : nat, k <> O /\ (k <= max_iterations)%nat /\ INR k - 1 < r <= INR k.
Proof.
  intros H0 Hmax. destruct (archimed (- r)) as [Hup Hdn].
  assert (Hz : (up (- r) <= 0)%Z).
  { apply Z.lt_succ_r. apply lt_IZR. rewrite succ_IZR. lra. }
  assert (Hm : (-2777778 < up (- r))%Z) by (apply lt_IZR; lra).
  exists (Z.to_nat (1 - up (- r))).
  rewrite INR_IZR_INZ, Z2Nat.id, minus_IZR by lia.
  pose proof max_iterations_Z. repeat split; try lia; lra.
Qed.

Lemma guard_R (d : R) :
  -1000000000 <= d <= 1000000000 ->
  gtb d (lit 1000000000) || ltb d (lit (-1000000000)) = false.
Proof.
  intros [Hlo Hhi]. unfold gtb. cbn [ltb lit exactR].
  rewrite (Rltb_false (a := 1000000000) (b := d)) by lra.
  rewrite (Rltb_false (a := d) (b := -1000000000)) by lra.
  reflexivity.
Qed.

(** In exact arithmetic [normalizeRelative] meets its contract on every
    input the guard lets through: the result is in [[-180, 180)] and differs
    from the input by a multiple of [360]. *)
Theorem normalizeRelative_exact_arithmetic (fuel : nat) (d : R) :
  -1000000000 <= d <= 1000000000 -> (max_iterations <= fuel)%nat ->
  exists (r : R) (k : Z),
    Degree.normalizeRelative fuel d = Some r /\
    -180 <= r < 180 /\ r = d + 360 * IZR k.
Proof.
  intros Hd Hfuel.
  unfold Degree.normalizeRelative. cbn [isnan exactR]. rewrite (guard_R Hd).
  unfold Degree.loops. cbn [lit exactR].
  destruct (Rle_dec 180 d) as [Hge | Hlt].
  - destruct (@turns_down ((d - 180) / 360)) as (k & K0 & Kmax & Klo & Khi); try lra.
    rewrite (@while_ge_R 180 k fuel d) by (try lia; try (intros _); lra).
    rewrite (@while_lt_R (-180) O (fuel - k) (d - INR k * 360))
      by (try lia; try (intros H; now elim H); cbn [INR]; lra).
    exists (d - INR k * 360 + INR 0 * 360), (- Z.of_nat k)%Z.
    rewrite opp_IZR, <- INR_IZR_INZ. cbn [INR].
    split; [reflexivity | split; lra].
  - rewrite (@while_ge_R 180 O fuel d)
      by (try lia; try (intros H; now elim H); cbn [INR]; lra).
    rewrite Nat.sub_0_r. cbn [INR].
    replace (d - 0 * 360) with d by ring.
    destruct (Rle_dec (-180) d) as [Hin | Hout].
    + rewrite (@while_lt_R (-180) O fuel d)
        by (try lia; try (intros H; now elim H); cbn [INR]; lra).
      exists (d + INR 0 * 360), 0%Z. cbn [INR].
      split; [reflexivity | split; lra].
    + destruct (@turns_up ((-180 - d) / 360)) as (k & K0 & Kmax & Klo & Khi); try lra.
      rewrite (@while_lt_R (-180) k fuel d) by (try lia; try (intros _); lra).
      exists (d + INR k * 360), (Z.of_nat k).
      rewrite <- INR_IZR_INZ.
      split; [reflexivity | split; lra].
Qed.

Lemma normalizeRelative_exact_arithmetic_witness :
  exists (r : R) (k : Z),
    Degree.normalizeRelative max_iterations 540 = Some r /\
    -180 <= r < 180 /\ r = 540 + 360 * IZR k.
Proof.
  apply normalizeRelative_exact_arithmetic; [lra | apply le_n].
Defined.

(** In exact arithmetic [normalizeAbsolute] meets its contract as well: the
    result is in [[0, 360)] and differs from the input by a multiple of
    [360].  (On doubles the upper bound can be reached, see above.) *)
Theorem normalizeAbsolute_exact_arithmetic (fuel : nat) (d : R) :
  -1000000000 <= d <= 1000000000 -> (max_iterations <= fuel)%nat ->
  exists (r : R) (k : Z),
    Degree.normalizeAbsolute fuel d = Some r /\
    0 <= r < 360 /\ r = d + 360 * IZR k.
Proof.
  intros Hd Hfuel.
  unfold Degree.normalizeAbsolute. cbn [isnan exactR]. rewrite (guard_R Hd).
  unfold Degree.loops. cbn [lit exactR].
  destruct (Rle_dec 360 d) as [Hge | Hlt].
  - destruct (@turns_down ((d - 360) / 360)) as (k & K0 & Kmax & Klo & Khi); try lra.
    rewrite (@while_ge_R 360 k fuel d) by (try lia; try (intros _); lra).
    rewrite (@while_lt_R 0 O (fuel - k) (d - INR k * 360))
      by (try lia; try (intros H; now elim H); cbn [INR]; lra).
    exists (d - INR k * 360 + INR 0 * 360), (- Z.of_nat k)%Z.
    rewrite opp_IZR, <- INR_IZR_INZ. cbn [INR].
    split; [reflexivity | split; lra].
  - rewrite (@while_ge_R 360 O fuel d)
      by (try lia; try (intros H; now elim H); cbn [INR]; lra).
    rewrite Nat.sub_0_r. cbn [INR].
    replace (d - 0 * 360) with d by ring.
    destruct (Rle_dec 0 d) as [Hin | Hout].
    + rewrite (@while_lt_R 0 O fuel d)
        by (try lia; try (intros H; now elim H); cbn [INR]; lra).
      exists (d + INR 0 * 360), 0%Z. cbn [INR].
      split; [reflexivity | split; lra].
    + destruct (@turns_up ((0 - d) / 360)) as (k & K0 & Kmax & Klo & Khi); try lra.
      rewrite (@while_lt_R 0 k fuel d) by (try lia; try (intros _); lra).
      exists (d + INR k * 360), (Z.of_nat k).
      rewrite <- INR_IZR_INZ.
      split; [reflexivity | split; lra].
Qed.

Lemma normalizeAbsolute_exact_arithmetic_witness :
  exists (r : R) (k : Z),
    Degree.normalizeAbsolute max_iterations (-540) = Some r /\
    0 <= r < 360 /\ r = -540 + 360 * IZR k.
Proof.
  apply normalizeAbsolute_exact_arithmetic; [lra | apply le_n].
Defined.

(** ** azimuthFrom in exact arithmetic *)

Lemma atan2_range (y x : R) : - PI < ExactR.atan2 y x <= PI.
Proof.
  pose proof PI_RGT_0 as Hpi. unfold ExactR.atan2.
  destruct (Rlt_dec 0 x) as [Hx | Hx].
  - pose proof (atan_bound (y / x)). lra.
  - destruct (Rlt_dec x 0) as [Hneg | Hzero].
    + pose proof (atan_bound (y / x)) as Hb.
      destruct (Rle_dec 0 y) as [Hy | Hy].
      * assert (y / x <= 0).
        { unfold Rdiv. assert (/ x < 0) by now apply Rinv_lt_0_compat. nra. }
        assert (atan (y / x) <= 0).
        { destruct (Req_dec (y / x) 0) as [-> | Hne]; [rewrite atan_0; lra | ].
          pose proof (atan_increasing (y / x) 0 ltac:(lra)). rewrite atan_0 in *. lra. }
        lra.
      * assert (0 < y / x).
        { unfold Rdiv. assert (/ x < 0) by now apply Rinv_lt_0_compat. nra. }
        pose proof (atan_increasing 0 (y / x) ltac:(lra)). rewrite atan_0 in *. lra.
    + destruct (Rlt_dec 0 y); [lra | ]. destruct (Rlt_dec y 0); lra.
Qed.

(** [normalizeAbsolute] on a real in [(0, 360]]: at most one turn of the
    first loop, and [360] becomes [0]. *)
Lemma normalizeAbsolute_R_one_turn (fuel : nat) (v : R) :
  (1 <= fuel)%nat -> 0 < v <= 360 ->
  exists r, Degree.normalizeAbsolute fuel v = Some r /\ 0 <= r < 360 /\
            (v < 360 -> r = v) /\ (v = 360 -> r = 0).
Proof.
  intros Hfuel [H0 H360].
  destruct (Rlt_dec v 360) as [Hlt | Hge].
  - exists v. rewrite normalizeAbsolute_R_in_range by lra.
    repeat split; auto; lra.
  - assert (v = 360) by lra. subst v. exists 0.
    unfold Degree.normalizeAbsolute. cbn [isnan exactR].
    rewrite guard_R by lra. unfold Degree.loops. cbn [lit exactR].
    rewrite (@while_ge_R 360 1 fuel 360)
      by (try lia; try (intros _); cbn [INR]; lra).
    rewrite (@while_lt_R 0 O (fuel - 1) (360 - INR 1 * 360))
      by (try lia; try (intros H; now elim H); cbn [INR]; lra).
    cbn [INR]. split; [f_equal; ring | ]. repeat split; intros; lra.
Qed.

(** In exact arithmetic [azimuthFrom] returns, for all coordinates whatever
    (poles and coinciding points included), a value in [[0, 360)], after at
    most one loop iteration. *)
Theorem azimuthFrom_range_exact_arithmetic
  (fuel : nat) (self other : BasicLatLng R) :
  (1 <= fuel)%nat ->
  exists r, azimuthFrom fuel self other = Some r /\ 0 <= r < 360.
Proof.
  intros Hfuel. rewrite azimuthFrom_R.
  set (y := Rtrigo_def.sin _). set (x := _ - _).
  pose proof (atan2_range y x) as [Hlo Hhi]. pose proof PI_RGT_0 as Hpi.
  assert (Hv : 0 < ExactR.atan2 y x * 180 / PI + 180 <= 360).
  { unfold Rdiv. assert (Hinv : 0 < / PI) by now apply Rinv_0_lt_compat.
    assert (Hone : PI * / PI = 1) by (apply Rinv_r; lra).
    split; nra. }
  destruct (normalizeAbsolute_R_one_turn Hfuel Hv) as (r & Er & Hr & _).
  exists r. split; assumption.
Qed.

Lemma azimuthFrom_range_exact_arithmetic_witness :
  exists r, azimuthFrom 1 (mkLatLng 35 139) (mkLatLng 34 135) = Some r /\
            0 <= r < 360.
Proof. apply azimuthFrom_range_exact_arithmetic. apply le_n. Defined.





(** ** distanceFrom in exact arithmetic *)

Lemma Rabs_le_inv (x a : R) : Rabs x <= a -> - a <= x <= a.
Proof. unfold Rabs. destruct (Rcase_abs x); lra. Qed.

Lemma acos_cos_abs (t : R) : - PI <= t <= PI -> Ratan.acos (Rtrigo_def.cos t) = Rabs t.
Proof.
  intros Ht. unfold Rabs. destruct (Rcase_abs t) as [Hneg | Hpos].
  - rewrite <- cos_neg. apply acos_cos. lra.
  - apply acos_cos. lra.
Qed.



(** Along the equator the distance is the arc length [R * |lng2 - lng1|] in
    radians, as long as the longitudes differ by at most [180] degrees. *)
Theorem distanceFrom_along_equator (l1 l2 : R) :
  Rabs (l2 - l1) <= 180 ->
  distanceFrom (mkLatLng 0 l1) (mkLatLng 0 l2) =
  6378137 * (Rabs (l2 - l1) * PI / 180).
Proof.
  intros Hab. pose proof PI_RGT_0 as Hpi.
  unfold distanceFrom. rewrite acosArg_R. cbn [lat lng].
  replace (0 * PI / 180) with 0 by field. rewrite sin_0, cos_0.
  replace (0 * 0 + 1 * 1 * Rtrigo_def.cos ((l2 - l1) * PI / 180))
    with (Rtrigo_def.cos ((l2 - l1) * (PI / 180)))
    by (replace ((l2 - l1) * PI / 180) with ((l2 - l1) * (PI / 180)) by field; ring).
  assert (Hr : Rabs ((l2 - l1) * (PI / 180)) = Rabs (l2 - l1) * PI / 180).
  { rewrite Rabs_mult, (Rabs_pos_eq (PI / 180)) by lra. field. }
  unfold kEarthRadius. cbn [mul acos lit exactR trigR].
  rewrite acos_cos_abs, Hr; [reflexivity | ].
  apply Rabs_le_inv. rewrite Hr. nra.
Qed.

Lemma distanceFrom_along_equator_witness :
  distanceFrom (mkLatLng 0 170) (mkLatLng 0 (-10)) =
  6378137 * (Rabs (-10 - 170) * PI / 180).
Proof.
  apply distanceFrom_along_equator.
  unfold Rabs. destruct (Rcase_abs (-10 - 170)); lra.
Defined.

Lemma cos_period_Z (x : R) (k : Z) :
  Rtrigo_def.cos (x + 2 * IZR k * PI) = Rtrigo_def.cos x.
Proof.
  destruct k as [ | n | n].
  - f_equal. ring.
  - rewrite <- (positive_nat_Z n), <- INR_IZR_INZ. apply cos_period.
  - change (Z.neg n) with (- Z.pos n)%Z.
    rewrite opp_IZR, <- (positive_nat_Z n), <- INR_IZR_INZ.
    rewrite <- (cos_period (x + 2 * - INR (Pos.to_nat n) * PI) (Pos.to_nat n)).
    f_equal. ring.
Qed.

(** Longitudes are taken modulo [360]: a full turn added to the other
    point's longitude does not change the distance. *)
Theorem distanceFrom_longitude_period (a b : BasicLatLng R) (k : Z) :
  distanceFrom a (mkLatLng (lat b) (lng b + 360 * IZR k)) = distanceFrom a b.
Proof.
  unfold distanceFrom. rewrite !acosArg_R. cbn [lat lng].
  replace ((lng b + 360 * IZR k - lng a) * PI / 180)
    with ((lng b - lng a) * PI / 180 + 2 * IZR k * PI) by field.
  rewrite cos_period_Z. reflexivity.
Qed.

(** ** Doubles already in range, and applying a normaliser twice *)

Local Open Scope Z_scope.

Lemma while_ge_stops (B : Z) (fuel : nat) (d : B64.float) :
  B64.valid (lit B) = true -> B64.is_finite (lit B) = true ->
  ticks (lit B) = B * scale ->
  B64.valid d = true -> B64.is_finite d = true -> ticks d < B * scale ->
  Degree.while_ge (lit B) fuel d = Some (fuel, d).
Proof.
  intros VB FB TB V F Hlt.
  destruct fuel; cbn [Degree.while_ge];
    rewrite (@geb_ticks B VB FB TB d V F);
    (replace (B * scale <=? ticks d) with false by (symmetry; apply Z.leb_gt; lia));
    reflexivity.
Qed.

Lemma while_lt_stops (B : Z) (fuel : nat) (d : B64.float) :
  B64.valid (lit B) = true -> B64.is_finite (lit B) = true ->
  ticks (lit B) = B * scale ->
  B64.valid d = true -> B64.is_finite d = true -> B * scale <= ticks d ->
  Degree.while_lt (lit B) fuel d = Some (fuel, d).
Proof.
  intros VB FB TB V F Hge.
  destruct fuel; cbn [Degree.while_lt];
    rewrite (@ltb_ticks B VB FB TB d V F);
    (replace (ticks d <? B * scale) with false by (symmetry; apply Z.ltb_ge; lia));
    reflexivity.
Qed.

Lemma guard_false_of_ticks (d : B64.float) :
  B64.valid d = true -> B64.is_finite d = true ->
  -1000000000 * scale <= ticks d <= 1000000000 * scale ->
  isnan d = false /\
  gtb d (lit 1000000000) || ltb d (lit (-1000000000)) = false.
Proof.
  intros V F Hd.
  destruct lit_1e9 as (V1 & F1 & T1). destruct lit_m1e9 as (V2 & F2 & T2).
  split; [destruct d; try reflexivity; discriminate F | ].
  change (gtb d (lit 1000000000)) with (SFltb (lit 1000000000) d).
  change (ltb d (lit (-1000000000))) with (SFltb d (lit (-1000000000))).
  rewrite !SFltb_ticks, T1, T2 by assumption.
  apply orb_false_iff. split; apply Z.ltb_ge; lia.
Qed.

Lemma normalizeRelative_fixes_ticks (fuel : nat) (d : B64.float) :
  B64.valid d = true -> B64.is_finite d = true ->
  -180 * scale <= ticks d < 180 * scale ->
  Degree.normalizeRelative fuel d = Some d.
Proof.
  intros V F Hd. pose proof scale_pos as Hs.
  destruct (guard_false_of_ticks d V F ltac:(lia)) as [N G].
  destruct lit_180 as (V180 & F180 & T180). destruct lit_m180 as (Vm & Fm & Tm).
  unfold Degree.normalizeRelative. rewrite N, G. unfold Degree.loops.
  rewrite (@while_ge_stops 180 fuel d V180 F180 T180 V F) by lia.
  rewrite (@while_lt_stops (-180) fuel d Vm Fm Tm V F) by lia.
  reflexivity.
Qed.

Lemma normalizeAbsolute_fixes_ticks (fuel : nat) (d : B64.float) :
  B64.valid d = true -> B64.is_finite d = true ->
  0 <= ticks d < 360 * scale ->
  Degree.normalizeAbsolute fuel d = Some d.
Proof.
  intros V F Hd. pose proof scale_pos as Hs.
  destruct (guard_false_of_ticks d V F ltac:(lia)) as [N G].
  destruct lit_360 as (V360 & F360 & T360). destruct lit_0 as (V0 & F0 & T0).
  unfold Degree.normalizeAbsolute. rewrite N, G. unfold Degree.loops.
  rewrite (@while_ge_stops 360 fuel d V360 F360 T360 V F) by lia.
  rewrite (@while_lt_stops 0 fuel d V0 F0 T0 V F) by lia.
  reflexivity.
Qed.

(** A double already in [[-180, 180)] comes back from [normalizeRelative]
    unchanged, bit for bit ([-0.0] stays [-0.0]), without a loop iteration;
    likewise a double in [[0, 360)] from [normalizeAbsolute]. *)
Theorem normalize_fixes_range (fuel : nat) (d : B64.float) :
  B64.valid d = true -> B64.is_finite d = true ->
  ((-180 <= B64.toQ d)%Q /\ (B64.toQ d < 180)%Q ->
   Degree.normalizeRelative fuel d = Some d) /\
  ((0 <= B64.toQ d)%Q /\ (B64.toQ d < 360)%Q ->
   Degree.normalizeAbsolute fuel d = Some d).
Proof.
  intros V F. split; intros [Hlo Hhi].
  - change (-180)%Q with (inject_Z (-180)) in Hlo.
    change 180%Q with (inject_Z 180) in Hhi.
    apply toQ_le in Hlo; auto. apply toQ_lt in Hhi; auto.
    apply normalizeRelative_fixes_ticks; auto.
  - change 0%Q with (inject_Z 0) in Hlo.
    change 360%Q with (inject_Z 360) in Hhi.
    apply toQ_le in Hlo; auto. apply toQ_lt in Hhi; auto.
    apply normalizeAbsolute_fixes_ticks; auto.
Qed.

Lemma normalize_fixes_range_witness :
  Degree.normalizeRelative 0 (S754_zero true) = Some (S754_zero true) /\
  Degree.normalizeAbsolute 0 (lit 359 : B64.float) = Some (lit 359).
Proof.
  split.
  - apply (normalize_fixes_range 0 (S754_zero true)); [reflexivity | reflexivity | ].
    split; [vm_compute; discriminate | vm_compute; reflexivity].
  - apply (normalize_fixes_range 0 (lit 359)); [reflexivity | reflexivity | ].
    split; [vm_compute; discriminate | vm_compute; reflexivity].
Defined.

(** [normalizeRelative] is idempotent on doubles: its result is a fixed
    point, returned unchanged by a second call. *)
Theorem normalizeRelative_idempotent (fuel : nat) (d : B64.float) :
  B64.valid d = true -> isnan d = false ->
  gtb d (lit 1000000000) || ltb d (lit (-1000000000)) = false ->
  (max_iterations <= fuel)%nat ->
  exists r,
    Degree.normalizeRelative fuel d = Some r /\
    forall fuel', Degree.normalizeRelative fuel' r = Some r.
Proof.
  intros V N G Hfuel.
  destruct (@normalizeRelative_ticks fuel d V N G Hfuel)
    as (r & k & E & Vr & Fr & Hr & _).
  exists r. split; [exact E | ].
  intros fuel'. now apply normalizeRelative_fixes_ticks.
Qed.

Lemma normalizeRelative_idempotent_witness :
  exists r,
    Degree.normalizeRelative max_iterations (lit 1234567 : B64.float) = Some r /\
    forall fuel', Degree.normalizeRelative fuel' r = Some r.
Proof.
  apply normalizeRelative_idempotent;
    [reflexivity | reflexivity | reflexivity | apply le_n].
Defined.

(** [normalizeAbsolute] is not idempotent on doubles (it can return [360.0],
    which a second call maps to [0.0]), but two calls always end in
    [[0, 360)], at a fixed point. *)
Theorem normalizeAbsolute_twice (fuel : nat) (d : B64.float) :
  B64.valid d = true -> isnan d = false ->
  gtb d (lit 1000000000) || ltb d (lit (-1000000000)) = false ->
  (max_iterations <= fuel)%nat ->
  exists r r',
    Degree.normalizeAbsolute fuel d = Some r /\
    Degree.normalizeAbsolute fuel r = Some r' /\
    B64.is_finite r' = true /\
    (0 <= B64.toQ r')%Q /\ (B64.toQ r' < 360)%Q /\
    forall fuel', Degree.normalizeAbsolute fuel' r' = Some r'.
Proof.
  intros V N G Hfuel. pose proof scale_pos as Hs.
  destruct (@normalizeAbsolute_ticks fuel d V N G Hfuel)
    as (r & k & E & Vr & Fr & [Hlo Hhi] & _).
  exists r.
  destruct (Z_lt_le_dec (ticks r) (360 * scale)) as [Hlt | Hge].
  - exists r. rewrite (@normalizeAbsolute_fixes_ticks fuel r Vr Fr) by lia.
    split; [exact E | split; [reflexivity | split; [exact Fr | ] ] ].
    split; [ | split].
    + change 0%Q with (inject_Z 0). apply toQ_le; auto.
    + change 360%Q with (inject_Z 360). apply toQ_lt; auto.
    + intros fuel'. apply normalizeAbsolute_fixes_ticks; auto.
  - assert (Hr : ticks r = 360 * scale) by lia.
    destruct (guard_false_of_ticks r Vr Fr ltac:(lia)) as [Nr Gr].
    destruct (@normalizeAbsolute_ticks fuel r Vr Nr Gr Hfuel)
      as (r' & k' & E' & Vr' & Fr' & [Hlo' Hhi'] & _ & Hex & Hlt').
    specialize (Hlt' ltac:(left; lia)).
    exists r'.
    split; [exact E | split; [exact E' | split; [exact Fr' | ] ] ].
    split; [ | split].
    + change 0%Q with (inject_Z 0). apply toQ_le; auto.
    + change 360%Q with (inject_Z 360). apply toQ_lt; auto.
    + intros fuel'. apply normalizeAbsolute_fixes_ticks; auto.
Qed.

Lemma normalizeAbsolute_twice_witness :
  exists r r',
    Degree.normalizeAbsolute max_iterations tiny_negative = Some r /\
    Degree.normalizeAbsolute max_iterations r = Some r' /\
    B64.is_finite r' = true /\
    (0 <= B64.toQ r')%Q /\ (B64.toQ r' < 360)%Q /\
    forall fuel', Degree.normalizeAbsolute fuel' r' = Some r'.
Proof.
  apply normalizeAbsolute_twice;
    [reflexivity | reflexivity | reflexivity | apply le_n].
Defined.

(** ** Signs: the conversions are odd, the distance is symmetric *)

Lemma binary_round_aux_opp (s : bool) (m e : Z) (l : location) :
  binary_round_aux B64.prec B64.emax (negb s) m e l =
  SFopp (binary_round_aux B64.prec B64.emax s m e l).
Proof.
  unfold binary_round_aux.
  destruct (shr_fexp B64.prec B64.emax m e l) as [mrs e'].
  destruct (shr_fexp B64.prec B64.emax _ e' loc_Exact) as [mrs' e''].
  destruct (shr_m mrs'); try reflexivity.
  destruct (e'' <=? B64.emax - B64.prec); reflexivity.
Qed.

Lemma SFmul_opp_l (x y : spec_float) :
  SFmul B64.prec B64.emax (SFopp x) y = SFopp (SFmul B64.prec B64.emax x y).
Proof.
  destruct x as [sx | sx | | sx mx ex], y as [sy | sy | | sy my ey];
    cbn [SFmul SFopp]; rewrite <- ?negb_xorb_l; try reflexivity.
  apply binary_round_aux_opp.
Qed.

Lemma SFdiv_opp_l (x y : spec_float) :
  SFdiv B64.prec B64.emax (SFopp x) y = SFopp (SFdiv B64.prec B64.emax x y).
Proof.
  destruct x as [sx | sx | | sx mx ex], y as [sy | sy | | sy my ey];
    cbn [SFdiv SFopp]; rewrite <- ?negb_xorb_l; try reflexivity.
  destruct (SFdiv_core_binary B64.prec B64.emax (Zpos mx) ex (Zpos my) ey)
    as [ [mz ez] lz].
  apply binary_round_aux_opp.
Qed.

(** On doubles [toRadian] and [fromRadian] are odd, bit for bit and for
    every input, the special values included: negating the argument negates
    the result. *)
Theorem radian_conversions_odd (x : B64.float) :
  Degree.toRadian (SFopp x) = SFopp (Degree.toRadian x) /\
  Degree.fromRadian (SFopp x) = SFopp (Degree.fromRadian x).
Proof.
  unfold Degree.toRadian, Degree.fromRadian. cbn [mul div binary64].
  rewrite !SFmul_opp_l, !SFdiv_opp_l. split; reflexivity.
Qed.

(** On doubles the conversions pass the special values through: NaN to NaN,
    each infinity to itself, each signed zero to itself. *)
Theorem radian_conversions_special (s : bool) :
  Degree.toRadian S754_nan = S754_nan /\
  Degree.fromRadian S754_nan = S754_nan /\
  Degree.toRadian (S754_infinity s) = S754_infinity s /\
  Degree.fromRadian (S754_infinity s) = S754_infinity s /\
  Degree.toRadian (S754_zero s) = S754_zero s /\
  Degree.fromRadian (S754_zero s) = S754_zero s.
Proof. destruct s; repeat split; reflexivity. Qed.

Lemma SFmul_comm (x y : spec_float) :
  SFmul B64.prec B64.emax x y = SFmul B64.prec B64.emax y x.
Proof.
  destruct x as [sx | sx | | sx mx ex], y as [sy | sy | | sy my ey];
    cbn [SFmul]; rewrite ?(xorb_comm sx sy); try reflexivity.
  rewrite (Pos.mul_comm mx my), (Z.add_comm ex ey). reflexivity.
Qed.

Lemma binary_normalize_opp (z e : Z) :
  binary_normalize B64.prec B64.emax (- z) e false =
  SFopp (binary_normalize B64.prec B64.emax z e false) \/
  binary_normalize B64.prec B64.emax (- z) e false =
  binary_normalize B64.prec B64.emax z e false.
Proof.
  destruct z as [ | p | p]; cbn [Z.opp binary_normalize].
  - right. reflexivity.
  - left. unfold binary_round.
    destruct (shl_align p e _) as [mz ez]. apply (binary_round_aux_opp false).
  - left. unfold binary_round.
    destruct (shl_align p e _) as [mz ez].
    rewrite (binary_round_aux_opp false). 
    destruct (binary_round_aux B64.prec B64.emax false (Zpos mz) ez loc_Exact);
      cbn [SFopp negb]; try reflexivity.
    + destruct s; reflexivity.
    + destruct s; reflexivity.
    + destruct s; reflexivity.
Qed.

(** Swapping the operands of a subtraction negates the result, or leaves it
    as it is (a zero, or NaN). *)
Lemma SFsub_swap (x y : spec_float) :
  SFsub B64.prec B64.emax y x = SFopp (SFsub B64.prec B64.emax x y) \/
  SFsub B64.prec B64.emax y x = SFsub B64.prec B64.emax x y.
Proof.
  destruct x as [sx | sx | | sx mx ex], y as [sy | sy | | sy my ey];
    cbn [SFsub SFopp]; try (destruct sx, sy; cbn; auto; fail); auto.
  rewrite (Z.min_comm ey ex).
  set (X := cond_Zopp sx _). set (Y := cond_Zopp sy _).
  replace (Y - X) with (- (X - Y)) by lia.
  apply binary_normalize_opp.
Qed.

(** On doubles the distance is symmetric bit for bit, for every libm whose
    [cos] is even; no rounding depends on the order of the two points. *)
Theorem distanceFrom_symmetric_double
  (libm : Trig B64.float) (p q : BasicLatLng B64.float) :
  (forall x, cos (SFopp x) = cos x) ->
  distanceFrom p q = distanceFrom q p.
Proof.
  intros Heven. unfold distanceFrom, acosArg. cbn [add sub mul binary64].
  do 2 f_equal. f_equal.
  - apply SFmul_comm.
  - f_equal; [apply SFmul_comm | ].
    destruct (SFsub_swap (Degree.toRadian (lng q)) (Degree.toRadian (lng p)))
      as [E | E]; rewrite E; [symmetry; apply Heven | reflexivity].
Qed.

Lemma taylor_cos_even (x : spec_float) :
  @cos _ taylor_libm (SFopp x) = @cos _ taylor_libm x.
Proof.
  cbn [cos taylor_libm]. rewrite SFmul_opp_l, (SFmul_comm x (SFopp x)), SFmul_opp_l.
  destruct (SFmul B64.prec B64.emax x x) as [s | s | | s m e];
    cbn [SFopp negb]; rewrite ?negb_involutive; reflexivity.
Qed.

Lemma distanceFrom_symmetric_double_witness :
  @distanceFrom _ binary64 taylor_libm
     (mkLatLng (lit 35) (lit 139)) (mkLatLng (lit 34) (lit 135)) =
  @distanceFrom _ binary64 taylor_libm
     (mkLatLng (lit 34) (lit 135)) (mkLatLng (lit 35) (lit 139)).
Proof.
  apply distanceFrom_symmetric_double. exact taylor_cos_even.
Defined.

(** ** azimuthFrom on doubles *)

Lemma azimuthFrom_angle (T : Type) (A : Arith T) (G : Trig T) (fuel : nat)
  (p q : BasicLatLng T) :
  azimuthFrom fuel p q = Degree.normalizeAbsolute fuel (azimuthAngle p q).
Proof. reflexivity. Qed.

(** [normalizeAbsolute] on any well-formed double: it returns within
    [max_iterations] turns, and the result is NaN (for NaN) or a finite
    double in [[0, 360]] ([0.0] for the infinities and beyond [1e9]). *)
Lemma normalizeAbsolute_total (fuel : nat) (v : B64.float) :
  B64.valid v = true -> (max_iterations <= fuel)%nat ->
  exists r,
    Degree.normalizeAbsolute fuel v = Some r /\
    (isnan v = true /\ r = v \/
     isnan v = false /\ B64.valid r = true /\ B64.is_finite r = true /\
     0 <= ticks r <= 360 * scale).
Proof.
  intros V Hfuel. pose proof scale_pos as Hs.
  destruct (isnan v) eqn:N.
  - exists v. split; [ | left; auto].
    unfold Degree.normalizeAbsolute. rewrite N. reflexivity.
  - destruct (gtb v (lit 1000000000) || ltb v (lit (-1000000000))) eqn:G.
    + exists (lit 0). split.
      * unfold Degree.normalizeAbsolute. rewrite N, G. reflexivity.
      * right. destruct lit_0 as (V0 & F0 & T0). rewrite T0.
        repeat split; auto; lia.
    + destruct (@normalizeAbsolute_ticks fuel v V N G Hfuel)
        as (r & k & E & Vr & Fr & Hr & _).
      exists r. split; [exact E | right; auto].
Qed.

(** On doubles, for every libm and all coordinates: when the angle handed to
    [normalizeAbsolute] is a well-formed double, [azimuthFrom] returns within
    [max_iterations] loop iterations, and what it returns is NaN or a finite
    double in [[0, 360]]; never a negative value, never an infinity. *)
Theorem azimuthFrom_double_range (libm : Trig B64.float) (fuel : nat)
  (p q : BasicLatLng B64.float) :
  B64.valid (azimuthAngle p q) = true ->
  (max_iterations <= fuel)%nat ->
  exists r,
    azimuthFrom fuel p q = Some r /\
    (r = S754_nan \/
     B64.is_finite r = true /\ (0 <= B64.toQ r)%Q /\ (B64.toQ r <= 360)%Q).
Proof.
  intros V Hfuel. rewrite azimuthFrom_angle.
  destruct (@normalizeAbsolute_total fuel _ V Hfuel)
    as (r & E & [ [N ->] | (N & Vr & Fr & Hlo & Hhi) ]).
  - eexists. split; [exact E | left].
    destruct (azimuthAngle p q); try discriminate N. reflexivity.
  - exists r. split; [exact E | right].
    split; [exact Fr | split].
    + change 0%Q with (inject_Z 0). apply toQ_le; auto.
    + change 360%Q with (inject_Z 360). apply toQ_ge; auto.
Qed.

Lemma azimuthFrom_double_range_witness :
  exists r,
    @azimuthFrom _ binary64 taylor_libm max_iterations
       (mkLatLng (lit 35) (lit 139)) (mkLatLng (lit 34) (lit 135)) = Some r /\
    (r = S754_nan \/
     B64.is_finite r = true /\ (0 <= B64.toQ r)%Q /\ (B64.toQ r <= 360)%Q).
Proof.
  apply (@azimuthFrom_double_range taylor_libm); [vm_compute; reflexivity | apply le_n].
Defined.

(** ** The constant pi *)

(** [Constants::pi<double>()] is the double nearest to the literal
    [3.14159265358979323846] of the header: it is well formed, lies in the
    binade [[2, 4)] where doubles are [2^-51] apart, and differs from the
    literal by less than half of that. *)
Theorem pi_nearest_double :
  B64.valid (pi : B64.float) = true /\
  (B64.toQ (pi : B64.float) == 7074237752028440 # 2251799813685248)%Q /\
  (2 <= B64.toQ (pi : B64.float))%Q /\ (B64.toQ (pi : B64.float) < 4)%Q /\
  (Qabs (B64.toQ (pi : B64.float) - (314159265358979323846 # 100000000000000000000))
   < 2 ^ (-52))%Q.
Proof.
  split; [reflexivity | ]. split; [reflexivity | ].
  split; [vm_compute; discriminate | ].
  split; vm_compute; reflexivity.
Qed.

(** ** Products and quotients of normal doubles: one rounding each *)

Lemma shr_record_of_loc_m (m : Z) (l : location) :
  shr_m (shr_record_of_loc m l) = m.
Proof. destruct l as [ | [ | | ] ]; reflexivity. Qed.

Lemma binary_round_aux_finish_exp (s : bool) (p : positive) (e : Z) :
  2 ^ 52 <= Zpos p <= 2 ^ 53 -> -1074 < e <= 970 ->
  exists M E,
    (let '(mrs, e') := shr_fexp B64.prec B64.emax (Zpos p) e loc_Exact in
     match shr_m mrs with
     | Z0 => S754_zero s
     | Zpos m => if e' <=? B64.emax - B64.prec then S754_finite s m e'
                 else S754_infinity s
     | Zneg _ => S754_nan
     end) = S754_finite s M E /\
    B64.valid (S754_finite s M E) = true /\
    e <= E <= e + 1 /\ Zpos M * 2 ^ (E - e) = Zpos p.
Proof.
  intros Hp He. change (B64.emax - B64.prec) with 971.
  destruct (Z.eq_dec (Zpos p) (2 ^ 53)) as [Htop | Hlow].
  - assert (D : Zpos (digits2_pos p) = 54)
      by (apply digits2_pos_unique; rewrite Htop; cbn; lia).
    unfold shr_fexp. rewrite fexp_64. cbn [Zdigits2 shr_record_of_loc].
    rewrite D. replace (Z.max (54 + e - 53) (-1074) - e) with 1 by lia.
    cbn [shr iter_pos].
    injection Htop as ->. cbn [shr_1 shr_m].
    replace (e + 1 <=? 971) with true by (symmetry; apply Z.leb_le; lia).
    eexists _, _. split; [reflexivity | ].
    split; [ | split; [lia | ] ].
    + apply valid_finite_iff. cbn [digits2_pos Pos.succ]. lia.
    + replace (e + 1 - e) with 1 by lia. reflexivity.
  - assert (D : Zpos (digits2_pos p) = 53)
      by (apply digits2_pos_unique; change (53 - 1) with 52; lia).
    rewrite shr_fexp_noshift by lia. cbn [shr_m].
    replace (e <=? 971) with true by (symmetry; apply Z.leb_le; lia).
    exists p, e. split; [reflexivity | ].
    split; [ | split; [lia | ] ].
    + apply valid_finite_iff. lia.
    + rewrite Z.sub_diag. lia.
Qed.

(** Rounding a mantissa of at least 53 bits into the normal range, from any
    location: [n] bits are cut, the kept mantissa [q] has 53 bits, and the
    result is [q] or [q + 1] at the exponent raised by [n] (or that value
    renormalised). *)
Lemma binary_round_aux_normal (s : bool) (m : positive) (e : Z) (l : location) :
  53 <= Zpos (digits2_pos m) ->
  -1074 < Zpos (digits2_pos m) + e - 53 <= 969 ->
  exists M E M1,
    binary_round_aux B64.prec B64.emax s (Zpos m) e l = S754_finite s M E /\
    B64.valid (S754_finite s M E) = true /\
    Zpos (digits2_pos m) + e - 53 <= E <= Zpos (digits2_pos m) + e - 52 /\
    Zpos M * 2 ^ (E - e) = M1 * 2 ^ (Zpos (digits2_pos m) - 53) /\
    2 ^ 52 <= Zpos m / 2 ^ (Zpos (digits2_pos m) - 53) /\
    Zpos m / 2 ^ (Zpos (digits2_pos m) - 53) <= M1
      <= Zpos m / 2 ^ (Zpos (digits2_pos m) - 53) + 1.
Proof.
  intros Hd Hr.
  destruct (digits2_pos_bounds m) as [Dlo Dhi].
  set (d := Zpos (digits2_pos m)) in *.
  set (n := d - 53) in *. set (fe := d + e - 53) in *.
  assert (Hfe : Z.max (d + e - 53) (-1074) = fe) by (subst fe; lia).
  assert (Hn : 0 <= n) by (subst n; lia).
  assert (Hpn : 0 < 2 ^ n) by (apply pow2_pos; lia).
  set (q := Zpos m / 2 ^ n).
  assert (Hq : 2 ^ 52 <= q < 2 ^ 53).
  { split.
    - apply Z.div_le_lower_bound; [lia | ].
      rewrite <- Z.pow_add_r by lia.
      replace (n + 52) with (d - 1) by (subst n; lia). exact Dlo.
    - apply Z.div_lt_upper_bound; [lia | ].
      rewrite <- Z.pow_add_r by lia.
      replace (n + 53) with d by (subst n; lia). exact Dhi. }
  assert (Hshr : exists mrs,
            shr_fexp B64.prec B64.emax (Zpos m) e l = (mrs, fe) /\ shr_m mrs = q).
  { unfold shr_fexp. rewrite fexp_64. cbn [Zdigits2]. fold d. rewrite Hfe.
    replace (fe - e) with n by (subst fe n; lia).
    destruct n as [ | pn | pn] eqn:En; try lia.
    - exists (shr_record_of_loc (Zpos m) l). cbn [shr]. split.
      + f_equal. subst fe. lia.
      + rewrite shr_record_of_loc_m. subst q. now rewrite Z.pow_0_r, Z.div_1_r.
    - exists (iter_pos shr_1 pn (shr_record_of_loc (Zpos m) l)). cbn [shr]. split.
      + f_equal. subst fe. lia.
      + destruct (iter_shr_1_spec pn (shr_record_of_loc (Zpos m) l)) as (Eq & _);
          [rewrite shr_record_of_loc_m; lia | ].
        rewrite Eq, shr_record_of_loc_m. reflexivity. }
  destruct Hshr as (mrs & Hshr & Hm).
  unfold binary_round_aux. rewrite Hshr.
  pose proof (round_nearest_even_near (shr_m mrs) (loc_of_shr_record mrs)) as Hnear.
  set (M1 := round_nearest_even (shr_m mrs) (loc_of_shr_record mrs)) in *.
  rewrite Hm in Hnear.
  destruct M1 as [ | p1 | p1] eqn:EM; try lia.
  destruct (@binary_round_aux_finish_exp s p1 fe) as (M & E & Er & V & HE & HM);
    [lia | subst fe; lia | ].
  exists M, E, (Zpos p1).
  split; [exact Er | split; [exact V | split; [subst fe; lia | ] ] ].
  split; [ | split; [lia | lia] ].
  replace (E - e) with (E - fe + n) by (subst fe n; lia).
  rewrite Z.pow_add_r by lia. rewrite Z.mul_assoc, HM. reflexivity.
Qed.

Lemma digits_53 (m : positive) :
  Zpos (digits2_pos m) = 53 -> 2 ^ 52 <= Zpos m < 2 ^ 53.
Proof.
  intros D. pose proof (digits2_pos_bounds m) as B. rewrite D in B. exact B.
Qed.

Lemma valid_normal_digits (s : bool) (m : positive) (e : Z) :
  B64.valid (S754_finite s m e) = true -> -1074 < e ->
  Zpos (digits2_pos m) = 53.
Proof.
  intros V He. apply valid_finite_iff in V. lia.
Qed.

(** The product of two normal doubles whose exponents keep it normal: the
    result is a normal double within [2^-52] of the exact product. *)
Lemma SFmul_normal (sx sy : bool) (mx my : positive) (ex ey : Z) :
  Zpos (digits2_pos mx) = 53 -> Zpos (digits2_pos my) = 53 ->
  -1126 < ex + ey <= 916 ->
  exists M E,
    SFmul B64.prec B64.emax (S754_finite sx mx ex) (S754_finite sy my ey)
      = S754_finite (xorb sx sy) M E /\
    B64.valid (S754_finite (xorb sx sy) M E) = true /\
    ex + ey + 52 <= E <= ex + ey + 54 /\
    Z.abs (Zpos M * 2 ^ (E - (ex + ey)) - Zpos mx * Zpos my) * 2 ^ 52
      <= Zpos mx * Zpos my.
Proof.
  intros Dx Dy He.
  apply digits_53 in Dx, Dy.
  cbn [SFmul].
  assert (P : 2 ^ 104 <= Zpos (mx * my) < 2 ^ 106).
  { rewrite Pos2Z.inj_mul.
    change (2 ^ 104) with (2 ^ 52 * 2 ^ 52). change (2 ^ 106) with (2 ^ 53 * 2 ^ 53).
    split.
    - apply Z.mul_le_mono_nonneg; lia.
    - apply Z.mul_lt_mono_nonneg; lia. }
  destruct (digits2_pos_bounds (mx * my)) as [Blo Bhi].
  set (D := Zpos (digits2_pos (mx * my))) in *.
  assert (HD : 105 <= D <= 106).
  { assert (0 < D) by (subst D; lia). split.
    - destruct (Z_le_gt_dec 105 D) as [ | G]; [assumption | exfalso].
      assert (2 ^ D <= 2 ^ 104) by (apply pow2_le; lia). lia.
    - destruct (Z_le_gt_dec D 106) as [ | G]; [assumption | exfalso].
      assert (2 ^ 106 <= 2 ^ (D - 1)) by (apply pow2_le; lia). lia. }
  destruct (@binary_round_aux_normal (xorb sx sy) (mx * my) (ex + ey) loc_Exact)
    as (M & E & M1 & Er & V & HE & HM & Hq & HM1); fold D; [lia | lia | ].
  fold D in HE, HM, Hq, HM1.
  exists M, E. split; [exact Er | split; [exact V | split; [lia | ] ] ].
  rewrite HM, <- Pos2Z.inj_mul.
  set (p := Zpos (mx * my)) in *. set (n := D - 53) in *.
  assert (Hpn : 0 < 2 ^ n) by (apply pow2_pos; subst n; lia).
  pose proof (Z.div_mod p (2 ^ n) ltac:(lia)) as Hdm.
  pose proof (Z.mod_pos_bound p (2 ^ n) Hpn) as Hr.
  set (q := p / 2 ^ n) in *. set (r := p mod 2 ^ n) in *.
  assert (Hbig : 2 ^ 52 * 2 ^ n <= p).
  { rewrite Hdm. apply Z.le_trans with (2 ^ n * q); [ | lia].
    rewrite Z.mul_comm. apply Z.mul_le_mono_nonneg_l; lia. }
  assert (Herr : Z.abs (M1 * 2 ^ n - p) <= 2 ^ n).
  { assert (C : M1 = q \/ M1 = q + 1) by lia.
    destruct C as [-> | ->]; rewrite Hdm; apply Z.abs_le; lia. }
  apply Z.le_trans with (2 ^ n * 2 ^ 52); [ | lia].
  apply Z.mul_le_mono_nonneg_r; lia.
Qed.

(** The quotient of two normal doubles whose exponents keep it normal: the
    dividend is shifted by 53 bits, divided, and the quotient rounded once;
    the result is a normal double within [2^-52] of the exact quotient. *)
Lemma SFdiv_normal (sx sy : bool) (mx my : positive) (ex ey : Z) :
  Zpos (digits2_pos mx) = 53 -> Zpos (digits2_pos my) = 53 ->
  -1021 < ex - ey <= 1021 ->
  exists M E,
    SFdiv B64.prec B64.emax (S754_finite sx mx ex) (S754_finite sy my ey)
      = S754_finite (xorb sx sy) M E /\
    B64.valid (S754_finite (xorb sx sy) M E) = true /\
    ex - ey - 53 <= E <= ex - ey - 51 /\
    Z.abs (Zpos M * 2 ^ (E - (ex - ey - 53)) * Zpos my - Zpos mx * 2 ^ 53) * 2 ^ 52
      <= Zpos mx * 2 ^ 53.
Proof.
  intros Dx Dy He.
  pose proof (digits_53 _ Dx) as Bx. pose proof (digits_53 _ Dy) as By.
  set (m' := Zpos mx * 2 ^ 53).
  pose proof (Z.div_mod m' (Zpos my) ltac:(lia)) as Hdm.
  pose proof (Z.mod_pos_bound m' (Zpos my) ltac:(lia)) as Hr.
  assert (Hcore : SFdiv_core_binary B64.prec B64.emax (Zpos mx) ex (Zpos my) ey =
                  (m' / Zpos my, ex - ey - 53,
                   new_location (Zpos my) (m' mod Zpos my))).
  { unfold SFdiv_core_binary. cbn [Zdigits2]. rewrite Dx, Dy, fexp_64.
    replace (Z.min (Z.max (53 + ex - (53 + ey) - 53) (-1074)) (ex - ey))
      with (ex - ey - 53) by lia.
    replace (ex - ey - (ex - ey - 53)) with 53 by lia.
    rewrite Z.shiftl_mul_pow2 by lia. fold m'.
    unfold Z.div, Z.modulo. destruct (Z.div_eucl m' (Zpos my)); reflexivity. }
  cbn [SFdiv]. rewrite Hcore.
  set (q := m' / Zpos my) in *. set (r := m' mod Zpos my) in *.
  assert (Hm' : 2 ^ 105 <= m' < 2 ^ 106).
  { subst m'. change (2 ^ 105) with (2 ^ 52 * 2 ^ 53).
    change (2 ^ 106) with (2 ^ 53 * 2 ^ 53). lia. }
  assert (Hq : 2 ^ 52 <= q < 2 ^ 54).
  { split.
    - apply Z.div_le_lower_bound; [lia | ].
      apply Z.le_trans with (2 ^ 53 * 2 ^ 52); [ | exact (proj1 Hm')].
      apply Z.mul_le_mono_nonneg_r; lia.
    - apply Z.div_lt_upper_bound; [lia | ].
      apply Z.lt_le_trans with (2 ^ 52 * 2 ^ 54); [exact (proj2 Hm') | ].
      apply Z.mul_le_mono_nonneg_r; lia. }
  destruct q as [ | pq | pq] eqn:Eq; try lia.
  destruct (digits2_pos_bounds pq) as [Blo Bhi].
  set (D := Zpos (digits2_pos pq)) in *.
  assert (HD : 53 <= D <= 54).
  { assert (0 < D) by (subst D; lia). split.
    - destruct (Z_le_gt_dec 53 D) as [ | G]; [assumption | exfalso].
      assert (2 ^ D <= 2 ^ 52) by (apply pow2_le; lia). lia.
    - destruct (Z_le_gt_dec D 54) as [ | G]; [assumption | exfalso].
      assert (2 ^ 54 <= 2 ^ (D - 1)) by (apply pow2_le; lia). lia. }
  destruct (@binary_round_aux_normal (xorb sx sy) pq (ex - ey - 53)
              (new_location (Zpos my) r))
    as (M & E & M1 & Er & V & HE & HM & Hq' & HM1); fold D; [lia | lia | ].
  fold D in HE, HM, Hq', HM1.
  exists M, E. split; [exact Er | split; [exact V | split; [lia | ] ] ].
  rewrite HM. set (n := D - 53) in *.
  assert (Hpn : 0 < 2 ^ n) by (apply pow2_pos; subst n; lia).
  pose proof (Z.div_mod (Zpos pq) (2 ^ n) ltac:(lia)) as Hdm'.
  pose proof (Z.mod_pos_bound (Zpos pq) (2 ^ n) Hpn) as Hr'.
  set (q' := Zpos pq / 2 ^ n) in *. set (r' := Zpos pq mod 2 ^ n) in *.
  set (y := Zpos my) in *. set (P := 2 ^ n) in *.
  assert (Hbig : 2 ^ 52 * (P * y) <= m').
  { rewrite Hdm, Hdm'. apply Z.le_trans with (y * (P * q')); [ | nia].
    replace (y * (P * q')) with (q' * (P * y)) by ring.
    apply Z.mul_le_mono_nonneg_r; nia. }
  assert (Herr : Z.abs (M1 * P * y - m') <= P * y).
  { assert (C : M1 = q' \/ M1 = q' + 1) by lia.
    destruct C as [-> | ->]; rewrite Hdm, Hdm'; apply Z.abs_le; nia. }
  apply Z.le_trans with (P * y * 2 ^ 52); [ | lia].
  apply Z.mul_le_mono_nonneg_r; lia.
Qed.

(** ** Relative error of the conversions on doubles *)

Lemma within_eq (k t t' r r' : Q) :
  (t == t')%Q -> (r == r')%Q -> within k t r -> within k t' r'.
Proof.
  intros Et Er (dl & B & E). exists dl. split; [exact B | ].
  rewrite <- Et, <- Er. exact E.
Qed.

Lemma within_mono (k k' t r : Q) :
  (k <= k')%Q -> within k t r -> within k' t r.
Proof.
  intros L (dl & B & E). exists dl. split; [ | exact E].
  now apply Qle_trans with k.
Qed.

Lemma within_scale (c k t r : Q) :
  within k t r -> within k (t * c) (r * c).
Proof.
  intros (dl & B & E). exists dl. split; [exact B | ].
  rewrite E. ring.
Qed.

Lemma within_compose (k1 k2 t r1 r2 : Q) :
  within k1 t r1 -> within k2 r1 r2 -> within (k1 + k2 + k1 * k2) t r2.
Proof.
  intros (d1 & B1 & E1) (d2 & B2 & E2).
  exists (d1 + d2 + d1 * d2)%Q. split.
  - eapply Qle_trans; [apply Qabs_triangle | ].
    apply Qplus_le_compat.
    + eapply Qle_trans; [apply Qabs_triangle | ]. now apply Qplus_le_compat.
    + rewrite Qabs_Qmult.
      apply Qle_trans with (Qabs d1 * k2)%Q.
      * rewrite (Qmult_comm (Qabs d1) (Qabs d2)), (Qmult_comm (Qabs d1) k2).
        apply Qmult_le_compat_r; [exact B2 | apply Qabs_nonneg].
      * apply Qmult_le_compat_r; [exact B1 | ].
        apply Qle_trans with (Qabs d2); [apply Qabs_nonneg | exact B2].
  - rewrite E2, E1. ring.
Qed.

Lemma within_abs (k t r : Q) :
  within k t r -> (Qabs (r - t) <= k * Qabs t)%Q.
Proof.
  intros (dl & B & E).
  assert (D : (r - t == dl * t)%Q) by (rewrite E; ring).
  rewrite D, Qabs_Qmult. apply Qmult_le_compat_r; [exact B | apply Qabs_nonneg].
Qed.

Lemma eps_52 : (2 ^ (-52) == 1 # 4503599627370496)%Q.
Proof. reflexivity. Qed.

Lemma ratio_small (a b : Z) :
  0 < b -> Z.abs a * 2 ^ 52 <= b ->
  (Qabs (inject_Z a / inject_Z b) <= 2 ^ (-52))%Q.
Proof.
  intros Hb H.
  assert (E : (inject_Z a / inject_Z b == a # Z.to_pos b)%Q).
  { rewrite Qmake_Qdiv, Z2Pos.id by lia. reflexivity. }
  rewrite E, eps_52. unfold Qle. cbn [Qabs Qnum Qden].
  rewrite Z2Pos.id by lia. change (Zpos 4503599627370496) with (2 ^ 52). lia.
Qed.

Lemma inject_Z_nonzero (m : Z) : m <> 0 -> ~ (inject_Z m == 0)%Q.
Proof.
  intros Hm. change 0%Q with (inject_Z 0). rewrite inject_Z_injective. exact Hm.
Qed.

Lemma within_of_scaled (c : Q) (m R : Z) :
  0 < m -> Z.abs (R - m) * 2 ^ 52 <= m ->
  within (2 ^ (-52)) (c * inject_Z m) (c * inject_Z R).
Proof.
  intros Hm Hb.
  exists (inject_Z (R - m) / inject_Z m)%Q.
  split; [now apply ratio_small | ].
  unfold Zminus. rewrite inject_Z_plus, inject_Z_opp. field.
  apply inject_Z_nonzero; lia.
Qed.

Lemma within_of_scaled_div (c : Q) (m y R : Z) :
  0 < m -> 0 < y -> Z.abs (R * y - m) * 2 ^ 52 <= m ->
  within (2 ^ (-52)) (c * (inject_Z m / inject_Z y)) (c * inject_Z R).
Proof.
  intros Hm Hy Hb.
  exists (inject_Z (R * y - m) / inject_Z m)%Q.
  split; [now apply ratio_small | ].
  unfold Zminus. rewrite inject_Z_plus, inject_Z_opp, inject_Z_mult. field.
  split; apply inject_Z_nonzero; lia.
Qed.

Lemma signQ_xorb (a b : bool) : (signQ (xorb a b) == signQ a * signQ b)%Q.
Proof. destruct a, b; reflexivity. Qed.

Lemma signQ_div (a b : bool) : (signQ a / signQ b == signQ a * signQ b)%Q.
Proof. destruct a, b; reflexivity. Qed.

Lemma toQ_finite (s : bool) (m : positive) (e : Z) :
  (B64.toQ (S754_finite s m e) == signQ s * inject_Z (Zpos m) * 2 ^ e)%Q.
Proof.
  cbn [B64.toQ]. destruct s; cbn [cond_Zopp signQ].
  - change (- Zpos m) with (Z.opp (Zpos m)). rewrite inject_Z_opp. ring.
  - ring.
Qed.

Lemma Qpow2_nonzero (e : Z) : ~ (2 ^ e == 0)%Q.
Proof. apply Qpower_not_0. discriminate. Qed.

Lemma Qpow2_split (a b : Z) :
  0 <= a -> (2 ^ (a + b) == inject_Z (2 ^ a) * 2 ^ b)%Q.
Proof.
  intros Ha. rewrite Qpower_plus by discriminate.
  rewrite Zpower_Qpower by lia. reflexivity.
Qed.

Lemma SFmul_within (sx sy : bool) (mx my : positive) (ex ey : Z) :
  Zpos (digits2_pos mx) = 53 -> Zpos (digits2_pos my) = 53 ->
  -1126 < ex + ey <= 916 ->
  exists M E,
    SFmul B64.prec B64.emax (S754_finite sx mx ex) (S754_finite sy my ey)
      = S754_finite (xorb sx sy) M E /\
    B64.valid (S754_finite (xorb sx sy) M E) = true /\
    ex + ey + 52 <= E <= ex + ey + 54 /\
    within (2 ^ (-52))
      (B64.toQ (S754_finite sx mx ex) * B64.toQ (S754_finite sy my ey))
      (B64.toQ (S754_finite (xorb sx sy) M E)).
Proof.
  intros Dx Dy He.
  destruct (@SFmul_normal sx sy mx my ex ey Dx Dy He) as (M & E & Er & V & HE & Hb).
  exists M, E. split; [exact Er | split; [exact V | split; [exact HE | ] ] ].
  apply within_eq with
    (t := (signQ sx * signQ sy * 2 ^ (ex + ey) * inject_Z (Zpos mx * Zpos my))%Q)
    (r := (signQ sx * signQ sy * 2 ^ (ex + ey)
           * inject_Z (Zpos M * 2 ^ (E - (ex + ey))))%Q).
  - rewrite !toQ_finite, inject_Z_mult, (Qpower_plus 2 ex ey) by discriminate. ring.
  - rewrite toQ_finite, signQ_xorb, inject_Z_mult.
    assert (P : (2 ^ E == inject_Z (2 ^ (E - (ex + ey))) * 2 ^ (ex + ey))%Q).
    { rewrite <- Qpow2_split by lia. now replace (E - (ex + ey) + (ex + ey)) with E by lia. }
    rewrite P. ring.
  - apply within_of_scaled; [lia | exact Hb].
Qed.

Lemma SFdiv_within (sx sy : bool) (mx my : positive) (ex ey : Z) :
  Zpos (digits2_pos mx) = 53 -> Zpos (digits2_pos my) = 53 ->
  -1021 < ex - ey <= 1021 ->
  exists M E,
    SFdiv B64.prec B64.emax (S754_finite sx mx ex) (S754_finite sy my ey)
      = S754_finite (xorb sx sy) M E /\
    B64.valid (S754_finite (xorb sx sy) M E) = true /\
    ex - ey - 53 <= E <= ex - ey - 51 /\
    within (2 ^ (-52))
      (B64.toQ (S754_finite sx mx ex) / B64.toQ (S754_finite sy my ey))
      (B64.toQ (S754_finite (xorb sx sy) M E)).
Proof.
  intros Dx Dy He.
  destruct (@SFdiv_normal sx sy mx my ex ey Dx Dy He) as (M & E & Er & V & HE & Hb).
  exists M, E. split; [exact Er | split; [exact V | split; [exact HE | ] ] ].
  apply within_eq with
    (t := (signQ sx * signQ sy * 2 ^ (ex - ey - 53)
           * (inject_Z (Zpos mx * 2 ^ 53) / inject_Z (Zpos my)))%Q)
    (r := (signQ sx * signQ sy * 2 ^ (ex - ey - 53)
           * inject_Z (Zpos M * 2 ^ (E - (ex - ey - 53))))%Q).
  - rewrite !toQ_finite, inject_Z_mult.
    assert (P : (2 ^ ex == inject_Z (2 ^ 53) * (2 ^ (ex - ey - 53) * 2 ^ ey))%Q).
    { rewrite <- (Qpower_plus 2 (ex - ey - 53) ey) by discriminate.
      rewrite <- Qpow2_split by lia.
      now replace (53 + (ex - ey - 53 + ey)) with ex by lia. }
    rewrite P.
    rewrite <- (signQ_div sx sy). field.
    repeat split; try apply Qpow2_nonzero; try (apply inject_Z_nonzero; lia).
    destruct sy; discriminate.
  - rewrite toQ_finite, signQ_xorb, inject_Z_mult.
    assert (P : (2 ^ E == inject_Z (2 ^ (E - (ex - ey - 53))) * 2 ^ (ex - ey - 53))%Q).
    { rewrite <- Qpow2_split by lia.
      now replace (E - (ex - ey - 53) + (ex - ey - 53)) with E by lia. }
    rewrite P. ring.
  - apply within_of_scaled_div; [lia | lia | exact Hb].
Qed.

Lemma lit_180_bits : B64.of_Z 180 = S754_finite false 6333186975989760 (-45).
Proof. vm_compute. reflexivity. Qed.

Lemma toRadian_within (s : bool) (m : positive) (e : Z) :
  Zpos (digits2_pos m) = 53 -> -1066 <= e <= 967 ->
  exists s' M E,
    Degree.toRadian (S754_finite s m e : B64.float) = S754_finite s' M E /\
    B64.valid (S754_finite s' M E) = true /\ e - 7 <= E <= e - 3 /\
    within (2 ^ (-52) + 2 ^ (-52) + 2 ^ (-52) * 2 ^ (-52))
      (B64.toQ (S754_finite s m e) * B64.toQ B64.pi64 / B64.toQ (lit 180))
      (B64.toQ (S754_finite s' M E)).
Proof.
  intros Dd He.
  change (Degree.toRadian (S754_finite s m e : B64.float))
    with (SFdiv B64.prec B64.emax
            (SFmul B64.prec B64.emax (S754_finite s m e) B64.pi64) (B64.of_Z 180)).
  change (@lit B64.float binary64 180) with (B64.of_Z 180).
  rewrite lit_180_bits. unfold B64.pi64.
  set (mp := 7074237752028440%positive). set (mc := 6333186975989760%positive).
  assert (Dp : Zpos (digits2_pos mp) = 53) by reflexivity.
  assert (Dc : Zpos (digits2_pos mc) = 53) by reflexivity.
  destruct (@SFmul_within s false m mp e (-51) Dd Dp ltac:(lia))
    as (Ma & Ea & -> & Va & HEa & Wa).
  assert (Da : Zpos (digits2_pos Ma) = 53)
    by (apply (@valid_normal_digits _ _ _ Va); lia).
  destruct (@SFdiv_within (xorb s false) false Ma mc Ea (-45) Da Dc ltac:(lia))
    as (Mb & Eb & -> & Vb & HEb & Wb).
  eexists _, Mb, Eb.
  split; [reflexivity | split; [exact Vb | split; [lia | ] ] ].
  exact (within_compose (within_scale (/ _) Wa) Wb).
Qed.

Lemma fromRadian_within (s : bool) (m : positive) (e : Z) :
  Zpos (digits2_pos m) = 53 -> -1073 <= e <= 961 ->
  exists s' M E,
    Degree.fromRadian (S754_finite s m e : B64.float) = S754_finite s' M E /\
    B64.valid (S754_finite s' M E) = true /\ e + 5 <= E <= e + 9 /\
    within (2 ^ (-52) + 2 ^ (-52) + 2 ^ (-52) * 2 ^ (-52))
      (B64.toQ (S754_finite s m e) * B64.toQ (lit 180) / B64.toQ B64.pi64)
      (B64.toQ (S754_finite s' M E)).
Proof.
  intros Dd He.
  change (Degree.fromRadian (S754_finite s m e : B64.float))
    with (SFdiv B64.prec B64.emax
            (SFmul B64.prec B64.emax (S754_finite s m e) (B64.of_Z 180)) B64.pi64).
  change (@lit B64.float binary64 180) with (B64.of_Z 180).
  rewrite lit_180_bits. unfold B64.pi64.
  set (mp := 7074237752028440%positive). set (mc := 6333186975989760%positive).
  assert (Dp : Zpos (digits2_pos mp) = 53) by reflexivity.
  assert (Dc : Zpos (digits2_pos mc) = 53) by reflexivity.
  destruct (@SFmul_within s false m mc e (-45) Dd Dc ltac:(lia))
    as (Ma & Ea & -> & Va & HEa & Wa).
  assert (Da : Zpos (digits2_pos Ma) = 53)
    by (apply (@valid_normal_digits _ _ _ Va); lia).
  destruct (@SFdiv_within (xorb s false) false Ma mp Ea (-51) Da Dp ltac:(lia))
    as (Mb & Eb & -> & Vb & HEb & Wb).
  eexists _, Mb, Eb.
  split; [reflexivity | split; [exact Vb | split; [lia | ] ] ].
  exact (within_compose (within_scale (/ _) Wa) Wb).
Qed.

Lemma pi64_nonzero : ~ (B64.toQ B64.pi64 == 0)%Q.
Proof. vm_compute. discriminate. Qed.

Lemma lit_180_value : (B64.toQ (lit 180) == 180)%Q.
Proof. vm_compute. reflexivity. Qed.

(** Accuracy of the conversions on doubles: for every normal double [d]
    with [2^-1014 <= |d| < 2^1014] (mantissa exponent [e] between [-1066] and
    [961]), [toRadian d] and [fromRadian d] are finite and differ from the
    exact rationals [d * pi / 180] and [d * 180 / pi], taken with the double
    [pi] of the code, by at most [3 * 2^-52] of their magnitude: each is one
    rounded product followed by one rounded quotient. *)
Theorem radian_conversions_accurate (s : bool) (m : positive) (e : Z) :
  B64.valid (S754_finite s m e) = true ->
  -1066 <= e <= 961 ->
  B64.is_finite (Degree.toRadian (S754_finite s m e : B64.float)) = true /\
  B64.is_finite (Degree.fromRadian (S754_finite s m e : B64.float)) = true /\
  (Qabs (B64.toQ (Degree.toRadian (S754_finite s m e : B64.float))
         - B64.toQ (S754_finite s m e) * B64.toQ B64.pi64 / 180)
     <= 3 * 2 ^ (-52) * Qabs (B64.toQ (S754_finite s m e) * B64.toQ B64.pi64 / 180))%Q /\
  (Qabs (B64.toQ (Degree.fromRadian (S754_finite s m e : B64.float))
         - B64.toQ (S754_finite s m e) * 180 / B64.toQ B64.pi64)
     <= 3 * 2 ^ (-52) * Qabs (B64.toQ (S754_finite s m e) * 180 / B64.toQ B64.pi64))%Q.
Proof.
  intros V He.
  assert (Dd : Zpos (digits2_pos m) = 53)
    by (apply (@valid_normal_digits _ _ _ V); lia).
  destruct (@toRadian_within s m e Dd ltac:(lia)) as (s1 & M1 & E1 & -> & V1 & HE1 & W1).
  destruct (@fromRadian_within s m e Dd ltac:(lia)) as (s2 & M2 & E2 & -> & V2 & HE2 & W2).
  split; [reflexivity | split; [reflexivity | split ] ].
  - apply within_abs. eapply within_mono; [ | eapply within_eq; [ | reflexivity | exact W1] ].
    + vm_compute. discriminate.
    + rewrite lit_180_value. reflexivity.
  - apply within_abs. eapply within_mono; [ | eapply within_eq; [ | reflexivity | exact W2] ].
    + vm_compute. discriminate.
    + rewrite lit_180_value. reflexivity.
Qed.

Lemma radian_conversions_accurate_witness :
  B64.is_finite (Degree.toRadian (lit 90 : B64.float)) = true /\
  B64.is_finite (Degree.fromRadian (lit 90 : B64.float)) = true /\
  (Qabs (B64.toQ (Degree.toRadian (lit 90 : B64.float))
         - B64.toQ (lit 90) * B64.toQ B64.pi64 / 180)
     <= 3 * 2 ^ (-52) * Qabs (B64.toQ (lit 90) * B64.toQ B64.pi64 / 180))%Q /\
  (Qabs (B64.toQ (Degree.fromRadian (lit 90 : B64.float))
         - B64.toQ (lit 90) * 180 / B64.toQ B64.pi64)
     <= 3 * 2 ^ (-52) * Qabs (B64.toQ (lit 90) * 180 / B64.toQ B64.pi64))%Q.
Proof.
  apply (@radian_conversions_accurate false 6333186975989760 (-46)).
  - vm_compute; reflexivity.
  - lia.
Defined.

(** The four roundings of the round trip, composed. *)
Lemma round_trip_within (s : bool) (m : positive) (e : Z) :
  B64.valid (S754_finite s m e) = true ->
  -1066 <= e <= 961 ->
  exists r : B64.float,
    Degree.fromRadian (Degree.toRadian (S754_finite s m e : B64.float)) = r /\
    B64.valid r = true /\ B64.is_finite r = true /\
    (Qabs (B64.toQ r - B64.toQ (S754_finite s m e))
       <= 5 * 2 ^ (-52) * Qabs (B64.toQ (S754_finite s m e)))%Q.
Proof.
  intros V He.
  assert (Dd : Zpos (digits2_pos m) = 53)
    by (apply (@valid_normal_digits _ _ _ V); lia).
  destruct (@toRadian_within s m e Dd ltac:(lia)) as (s1 & M1 & E1 & -> & V1 & HE1 & W1).
  assert (D1 : Zpos (digits2_pos M1) = 53)
    by (apply (@valid_normal_digits _ _ _ V1); lia).
  destruct (@fromRadian_within s1 M1 E1 D1 ltac:(lia))
    as (s2 & M2 & E2 & -> & V2 & HE2 & W2).
  eexists. split; [reflexivity | ]. split; [exact V2 | split; [reflexivity | ] ].
  pose proof pi64_nonzero as NP. pose proof lit_180_value as HC.
  set (d := B64.toQ (S754_finite s m e)) in *.
  set (P := B64.toQ B64.pi64) in *.
  set (C := B64.toQ (lit 180)) in *.
  clearbody d P C.
  pose proof (within_compose (within_scale (/ P) (within_scale C W1)) W2) as W.
  apply within_abs.
  eapply within_mono; [ | eapply within_eq; [ | reflexivity | exact W] ].
  - vm_compute. discriminate.
  - rewrite HC. field. exact NP.
Qed.

(** The round trip on doubles: for every normal double [d] with
    [2^-1014 <= |d| < 2^1014], [fromRadian (toRadian d)] is a finite double
    within [5 * 2^-52 * |d|] of [d]. The error of the constant [pi] cancels;
    what is left are the four roundings. *)
Theorem radian_round_trip_error (s : bool) (m : positive) (e : Z) :
  B64.valid (S754_finite s m e) = true ->
  -1066 <= e <= 961 ->
  exists r : B64.float,
    Degree.fromRadian (Degree.toRadian (S754_finite s m e : B64.float)) = r /\
    B64.valid r = true /\ B64.is_finite r = true /\
    (Qabs (B64.toQ r - B64.toQ (S754_finite s m e))
       <= 5 * 2 ^ (-52) * Qabs (B64.toQ (S754_finite s m e)))%Q.
Proof.
  intros V He.
  destruct (@round_trip_within s m e V He) as (r & Er & Vr & Fr & Hb).
  exists r. split; [exact Er | split; [exact Vr | split; [exact Fr | exact Hb] ] ].
Qed.

Lemma radian_round_trip_error_witness :
  exists r : B64.float,
    Degree.fromRadian (Degree.toRadian (lit 90 : B64.float)) = r /\
    B64.valid r = true /\ B64.is_finite r = true /\
    (Qabs (B64.toQ r - B64.toQ (lit 90)) <= 5 * 2 ^ (-52) * Qabs (B64.toQ (lit 90)))%Q.
Proof.
  apply (@radian_round_trip_error false 6333186975989760 (-46)).
  - vm_compute; reflexivity.
  - lia.
Defined.

(** ** The round trip on doubles, and where it overflows *)

Lemma binary_round_aux_finish_overflow (s : bool) (p : positive) (e : Z) :
  2 ^ 52 <= Zpos p <= 2 ^ 53 -> 971 < e ->
  (let '(mrs, e') := shr_fexp B64.prec B64.emax (Zpos p) e loc_Exact in
   match shr_m mrs with
   | Z0 => S754_zero s
   | Zpos m => if e' <=? B64.emax - B64.prec then S754_finite s m e'
               else S754_infinity s
   | Zneg _ => S754_nan
   end) = S754_infinity s.
Proof.
  intros Hp He. change (B64.emax - B64.prec) with 971.
  destruct (Z.eq_dec (Zpos p) (2 ^ 53)) as [Htop | Hlow].
  - assert (D : Zpos (digits2_pos p) = 54)
      by (apply digits2_pos_unique; rewrite Htop; cbn; lia).
    unfold shr_fexp. rewrite fexp_64. cbn [Zdigits2 shr_record_of_loc].
    rewrite D. replace (Z.max (54 + e - 53) (-1074) - e) with 1 by lia.
    cbn [shr iter_pos].
    injection Htop as ->. cbn [shr_1 shr_m].
    replace (e + 1 <=? 971) with false by (symmetry; apply Z.leb_gt; lia).
    reflexivity.
  - assert (D : Zpos (digits2_pos p) = 53)
      by (apply digits2_pos_unique; change (53 - 1) with 52; lia).
    rewrite shr_fexp_noshift by lia. cbn [shr_m].
    replace (e <=? 971) with false by (symmetry; apply Z.leb_gt; lia).
    reflexivity.
Qed.

Lemma binary_round_aux_overflow (s : bool) (m : positive) (e : Z) (l : location) :
  53 <= Zpos (digits2_pos m) ->
  971 < Zpos (digits2_pos m) + e - 53 ->
  binary_round_aux B64.prec B64.emax s (Zpos m) e l = S754_infinity s.
Proof.
  intros Hd Hr.
  destruct (digits2_pos_bounds m) as [Dlo Dhi].
  set (d := Zpos (digits2_pos m)) in *.
  set (n := d - 53) in *. set (fe := d + e - 53) in *.
  assert (Hfe : Z.max (d + e - 53) (-1074) = fe) by (subst fe; lia).
  assert (Hn : 0 <= n) by (subst n; lia).
  assert (Hpn : 0 < 2 ^ n) by (apply pow2_pos; lia).
  set (q := Zpos m / 2 ^ n).
  assert (Hq : 2 ^ 52 <= q < 2 ^ 53).
  { split.
    - apply Z.div_le_lower_bound; [lia | ].
      rewrite <- Z.pow_add_r by lia.
      replace (n + 52) with (d - 1) by (subst n; lia). exact Dlo.
    - apply Z.div_lt_upper_bound; [lia | ].
      rewrite <- Z.pow_add_r by lia.
      replace (n + 53) with d by (subst n; lia). exact Dhi. }
  assert (Hshr : exists mrs,
            shr_fexp B64.prec B64.emax (Zpos m) e l = (mrs, fe) /\ shr_m mrs = q).
  { unfold shr_fexp. rewrite fexp_64. cbn [Zdigits2]. fold d. rewrite Hfe.
    replace (fe - e) with n by (subst fe n; lia).
    destruct n as [ | pn | pn] eqn:En; try lia.
    - exists (shr_record_of_loc (Zpos m) l). cbn [shr]. split.
      + f_equal. subst fe. lia.
      + rewrite shr_record_of_loc_m. subst q. now rewrite Z.pow_0_r, Z.div_1_r.
    - exists (iter_pos shr_1 pn (shr_record_of_loc (Zpos m) l)). cbn [shr]. split.
      + f_equal. subst fe. lia.
      + destruct (iter_shr_1_spec pn (shr_record_of_loc (Zpos m) l)) as (Eq & _);
          [rewrite shr_record_of_loc_m; lia | ].
        rewrite Eq, shr_record_of_loc_m. reflexivity. }
  destruct Hshr as (mrs & Hshr & Hm).
  unfold binary_round_aux. rewrite Hshr.
  pose proof (round_nearest_even_near (shr_m mrs) (loc_of_shr_record mrs)) as Hnear.
  set (M1 := round_nearest_even (shr_m mrs) (loc_of_shr_record mrs)) in *.
  rewrite Hm in Hnear.
  destruct M1 as [ | p1 | p1] eqn:EM; try lia.
  apply binary_round_aux_finish_overflow; [lia | subst fe; lia].
Qed.

(** Doubles of magnitude [2^1023] and above: the product with [pi] overflows,
    and the infinity goes through the three remaining operations. *)
Lemma round_trip_overflow (s : bool) (m : positive) :
  B64.valid (S754_finite s m 971) = true ->
  Degree.toRadian (S754_finite s m 971 : B64.float) = S754_infinity s /\
  Degree.fromRadian (Degree.toRadian (S754_finite s m 971 : B64.float))
    = S754_infinity s.
Proof.
  intros V.
  assert (Dd : Zpos (digits2_pos m) = 53)
    by (apply (@valid_normal_digits _ _ _ V); lia).
  pose proof (digits_53 _ Dd) as Bm.
  assert (Hmul : SFmul B64.prec B64.emax (S754_finite s m 971) B64.pi64
                 = S754_infinity s).
  { unfold B64.pi64. cbn [SFmul]. rewrite xorb_false_r.
    set (mp := 7074237752028440%positive).
    assert (P : 2 ^ 104 <= Zpos (m * mp)).
    { rewrite Pos2Z.inj_mul. change (2 ^ 104) with (2 ^ 52 * 2 ^ 52).
      apply Z.mul_le_mono_nonneg; subst mp; lia. }
    destruct (digits2_pos_bounds (m * mp)) as [Blo Bhi].
    set (D := Zpos (digits2_pos (m * mp))) in *.
    assert (HD : 105 <= D).
    { assert (0 < D) by (subst D; lia).
      destruct (Z_le_gt_dec 105 D) as [ | G]; [assumption | exfalso].
      assert (2 ^ D <= 2 ^ 104) by (apply pow2_le; lia). lia. }
    apply binary_round_aux_overflow; fold D; lia. }
  assert (Hto : Degree.toRadian (S754_finite s m 971 : B64.float) = S754_infinity s).
  { change (Degree.toRadian (S754_finite s m 971 : B64.float))
      with (SFdiv B64.prec B64.emax
              (SFmul B64.prec B64.emax (S754_finite s m 971) B64.pi64) (B64.of_Z 180)).
    rewrite Hmul, lit_180_bits. cbn [SFdiv]. now rewrite xorb_false_r. }
  split; [exact Hto | ].
  rewrite Hto.
  change (Degree.fromRadian (S754_infinity s : B64.float))
    with (SFdiv B64.prec B64.emax
            (SFmul B64.prec B64.emax (S754_infinity s) (B64.of_Z 180)) B64.pi64).
  rewrite lit_180_bits. unfold B64.pi64. cbn [SFmul SFdiv]. now rewrite !xorb_false_r.
Qed.

(** C5, as the code has it.  [toRadian] is [deg * pi / 180] and [fromRadian]
    is [rad * 180 / pi], each a product followed by a quotient.  Over the
    reals the round trip is the identity.  On doubles, for a normal [d] with
    [2^-1014 <= |d| < 2^1014] (exponent [e] between [-1066] and [961]) each
    conversion is within [3 * 2^-52] of the exact quotient taken with the
    double [pi], and the round trip returns a finite double within
    [5 * 2^-52 * |d|] of [d]; for [|d| >= 2^1023] (exponent [971]) the
    product [d * pi] overflows: [toRadian d] is the infinity of the sign of
    [d], and so is the round trip. *)
Theorem radian_round_trip :
  (forall d : R,
     Degree.toRadian d = (d * PI / 180)%R /\
     Degree.fromRadian d = (d * 180 / PI)%R /\
     Degree.fromRadian (Degree.toRadian d) = d) /\
  (forall (s : bool) (m : positive) (e : Z),
     B64.valid (S754_finite s m e) = true -> -1066 <= e <= 961 ->
     (Qabs (B64.toQ (Degree.toRadian (S754_finite s m e : B64.float))
            - B64.toQ (S754_finite s m e) * B64.toQ B64.pi64 / 180)
        <= 3 * 2 ^ (-52)
           * Qabs (B64.toQ (S754_finite s m e) * B64.toQ B64.pi64 / 180))%Q /\
     (Qabs (B64.toQ (Degree.fromRadian (S754_finite s m e : B64.float))
            - B64.toQ (S754_finite s m e) * 180 / B64.toQ B64.pi64)
        <= 3 * 2 ^ (-52)
           * Qabs (B64.toQ (S754_finite s m e) * 180 / B64.toQ B64.pi64))%Q /\
     exists r : B64.float,
       Degree.fromRadian (Degree.toRadian (S754_finite s m e : B64.float)) = r /\
       B64.valid r = true /\ B64.is_finite r = true /\
       (Qabs (B64.toQ r - B64.toQ (S754_finite s m e))
          <= 5 * 2 ^ (-52) * Qabs (B64.toQ (S754_finite s m e)))%Q) /\
  (forall (s : bool) (m : positive),
     B64.valid (S754_finite s m 971) = true ->
     Degree.toRadian (S754_finite s m 971 : B64.float) = S754_infinity s /\
     Degree.fromRadian (Degree.toRadian (S754_finite s m 971 : B64.float))
       = S754_infinity s).
Proof.
  split; [ | split].
  - intros d. split; [reflexivity | split; [reflexivity | ] ].
    rewrite fromRadian_R, toRadian_R. field. exact PI_neq0.
  - intros s m e V He.
    assert (Dd : Zpos (digits2_pos m) = 53)
      by (apply (@valid_normal_digits _ _ _ V); lia).
    destruct (@toRadian_within s m e Dd ltac:(lia))
      as (s1 & M1 & E1 & E1' & V1 & HE1 & W1).
    destruct (@fromRadian_within s m e Dd ltac:(lia))
      as (s2 & M2 & E2 & E2' & V2 & HE2 & W2).
    split; [ | split].
    + rewrite E1'. apply within_abs.
      eapply within_mono; [ | eapply within_eq; [ | reflexivity | exact W1] ].
      * vm_compute. discriminate.
      * rewrite lit_180_value. reflexivity.
    + rewrite E2'. apply within_abs.
      eapply within_mono; [ | eapply within_eq; [ | reflexivity | exact W2] ].
      * vm_compute. discriminate.
      * rewrite lit_180_value. reflexivity.
    + exact (@round_trip_within s m e V He).
  - intros s m V. exact (@round_trip_overflow s m V).
Qed.

Lemma radian_round_trip_witness :
  exists r : B64.float,
    Degree.fromRadian (Degree.toRadian (lit 45 : B64.float)) = r /\
    B64.valid r = true /\ B64.is_finite r = true /\
    (Qabs (B64.toQ r - B64.toQ (lit 45)) <= 5 * 2 ^ (-52) * Qabs (B64.toQ (lit 45)))%Q.
Proof.
  apply (proj1 (proj2 radian_round_trip) false 6333186975989760%positive (-47)).
  - vm_compute; reflexivity.
  - lia.
Defined.

(** Below the normal range the guarantee is lost as well: the smallest
    positive double [2^-1074] goes to [+0] in [toRadian], and the round trip
    returns [+0]. *)
Lemma radian_round_trip_underflows :
  B64.valid (S754_finite false 1 (-1074)) = true /\
  Degree.toRadian (S754_finite false 1 (-1074) : B64.float) = S754_zero false /\
  Degree.fromRadian (Degree.toRadian (S754_finite false 1 (-1074) : B64.float))
    = S754_zero false.
Proof. repeat split; vm_compute; reflexivity. Qed.

(** ** A rational upper bound of pi *)

Local Open Scope R_scope.

Lemma Q2R_Qpow (x : Q) (n : nat) : Q2R (Qpow x n) = Q2R x ^ n.
Proof.
  induction n as [ | n IH]; cbn [Qpow pow].
  - unfold Q2R. cbn. lra.
  - now rewrite Q2R_mult, IH.
Qed.

Lemma Q2R_machin_term (n : nat) :
  Q2R (machin_term n) = tg_alt PI_2_3_7_tg n.
Proof.
  unfold machin_term, tg_alt, PI_2_3_7_tg, Ratan_seq.
  assert (Nz : ~ (inject_Z (Z.of_nat (2 * n + 1)) == 0)%Q).
  { change 0%Q with (inject_Z 0). rewrite inject_Z_injective. lia. }
  rewrite Q2R_mult, Q2R_plus, Q2R_mult, !Q2R_div, !Q2R_Qpow by exact Nz.
  rewrite INR_IZR_INZ.
  replace (Q2R (inject_Z (Z.of_nat (2 * n + 1)))) with (IZR (Z.of_nat (2 * n + 1)))
    by (unfold Q2R; cbn; lra).
  replace (Q2R (-1)) with (-1) by (unfold Q2R; cbn; lra).
  replace (Q2R 2) with 2 by (unfold Q2R; cbn; lra).
  replace (Q2R (1 # 3)) with (/ 3) by (unfold Q2R; cbn; lra).
  replace (Q2R (1 # 7)) with (/ 7) by (unfold Q2R; cbn; lra).
  reflexivity.
Qed.

Lemma Q2R_machin_sum (N : nat) :
  Q2R (machin_sum N) = sum_f_R0 (tg_alt PI_2_3_7_tg) N.
Proof.
  induction N as [ | N IH]; cbn [machin_sum sum_f_R0].
  - apply Q2R_machin_term.
  - now rewrite Q2R_plus, IH, Q2R_machin_term.
Qed.

Lemma PI_upper : PI < Q2R (31415926535897933 # 10000000000000000).
Proof.
  destruct (PI_2_3_7_ineq 8) as [_ Hup].
  change (2 * 8)%nat with 16%nat in Hup.
  rewrite <- Q2R_machin_sum in Hup.
  apply Rle_lt_trans with (Q2R (4 * machin_sum 16)).
  - rewrite Q2R_mult. replace (Q2R 4) with 4 by (unfold Q2R; cbn; lra). lra.
  - apply Qlt_Rlt. vm_compute. reflexivity.
Qed.

Local Open Scope Z_scope.

(** ** The bounds of distanceFrom *)

Lemma binary_round_aux_finish_low (s : bool) (p : positive) :
  Zpos p <= 2 ^ 53 ->
  exists r,
    (let '(mrs, e') := shr_fexp B64.prec B64.emax (Zpos p) (-1074) loc_Exact in
     match shr_m mrs with
     | Z0 => S754_zero s
     | Zpos m => if e' <=? B64.emax - B64.prec then S754_finite s m e'
                 else S754_infinity s
     | Zneg _ => S754_nan
     end) = r /\
    B64.valid r = true /\ B64.is_finite r = true /\
    ticks r = cond_Zopp s (Zpos p).
Proof.
  intros Hp. change (B64.emax - B64.prec) with 971.
  destruct (Z.eq_dec (Zpos p) (2 ^ 53)) as [Htop | Hlow].
  - injection Htop as ->. eexists. split; [reflexivity | ].
    split; [reflexivity | split; [reflexivity | ] ].
    destruct s; reflexivity.
  - destruct (digits2_pos_bounds p) as [Dlo Dhi].
    set (d := Zpos (digits2_pos p)) in *.
    assert (Hd : d <= 53).
    { destruct (Z_le_gt_dec d 53) as [ | G]; [assumption | exfalso].
      assert (2 ^ 53 <= 2 ^ (d - 1)) by (apply pow2_le; lia). lia. }
    rewrite shr_fexp_noshift by (fold d; lia). cbn [shr_m].
    change (-1074 <=? 971) with true. cbn iota.
    exists (S754_finite s p (-1074)). split; [reflexivity | ].
    split; [ | split; [reflexivity | ] ].
    + apply valid_finite_iff. fold d. lia.
    + cbn [ticks]. change (2 ^ (-1074 + 1074)) with 1. now rewrite Z.mul_1_r.
Qed.

(** Rounding into the subnormal range: everything below [2^-1074] is cut,
    and the result is the kept mantissa or its successor, in ticks. *)
Lemma binary_round_aux_subnormal (s : bool) (m : positive) (e : Z) (l : location) :
  e <= -1074 ->
  -1073 <= Zpos (digits2_pos m) + e <= -1021 ->
  exists r M1,
    binary_round_aux B64.prec B64.emax s (Zpos m) e l = r /\
    B64.valid r = true /\ B64.is_finite r = true /\
    ticks r = cond_Zopp s M1 /\ 0 < M1 <= 2 ^ 53.
Proof.
  intros He Hr.
  destruct (digits2_pos_bounds m) as [Dlo Dhi].
  set (d := Zpos (digits2_pos m)) in *.
  set (n := -1074 - e) in *.
  assert (Hfe : Z.max (d + e - 53) (-1074) = -1074) by lia.
  assert (Hn : 0 <= n) by (subst n; lia).
  assert (Hpn : 0 < 2 ^ n) by (apply pow2_pos; lia).
  set (q := Zpos m / 2 ^ n).
  assert (Hq : 1 <= q < 2 ^ 53).
  { split.
    - apply Z.div_le_lower_bound; [lia | ]. rewrite Z.mul_1_r.
      apply Z.le_trans with (2 ^ (d - 1)); [ | exact Dlo].
      apply pow2_le. subst n. lia.
    - apply Z.div_lt_upper_bound; [lia | ].
      rewrite <- Z.pow_add_r by lia.
      apply Z.lt_le_trans with (2 ^ d); [exact Dhi | ].
      apply pow2_le. subst n. lia. }
  assert (Hshr : exists mrs,
            shr_fexp B64.prec B64.emax (Zpos m) e l = (mrs, -1074) /\ shr_m mrs = q).
  { unfold shr_fexp. rewrite fexp_64. cbn [Zdigits2]. fold d. rewrite Hfe.
    fold n.
    destruct n as [ | pn | pn] eqn:En; try lia.
    - exists (shr_record_of_loc (Zpos m) l). cbn [shr]. split.
      + f_equal. lia.
      + rewrite shr_record_of_loc_m. subst q. now rewrite Z.pow_0_r, Z.div_1_r.
    - exists (iter_pos shr_1 pn (shr_record_of_loc (Zpos m) l)). cbn [shr]. split.
      + f_equal. lia.
      + destruct (iter_shr_1_spec pn (shr_record_of_loc (Zpos m) l)) as (Eq & _);
          [rewrite shr_record_of_loc_m; lia | ].
        rewrite Eq, shr_record_of_loc_m. reflexivity. }
  destruct Hshr as (mrs & Hshr & Hm).
  unfold binary_round_aux. rewrite Hshr.
  pose proof (round_nearest_even_near (shr_m mrs) (loc_of_shr_record mrs)) as Hnear.
  set (M1 := round_nearest_even (shr_m mrs) (loc_of_shr_record mrs)) in *.
  rewrite Hm in Hnear.
  destruct M1 as [ | p1 | p1] eqn:EM; try lia.
  destruct (@binary_round_aux_finish_low s p1) as (r & Er & V & F & T); [lia | ].
  exists r, (Zpos p1).
  split; [exact Er | split; [exact V | split; [exact F | split; [exact T | lia] ] ] ].
Qed.

Lemma radius_bits : B64.of_Z 6378137 = S754_finite false 6848472456101888 (-30).
Proof. vm_compute. reflexivity. Qed.

Lemma half_circumference_bits :
  SFmul B64.prec B64.emax (B64.of_Z 6378137) B64.pi64
  = S754_finite false 5378777689100435 (-28).
Proof. vm_compute. reflexivity. Qed.

(** [6378137 * a] for a double [a] between [0] and the double [pi]: a finite
    double between [0] and the rounded product [6378137 * pi]. *)
Lemma SFmul_radius_bounded (a : spec_float) :
  B64.valid a = true ->
  SFleb (B64.of_Z 0) a = true -> SFleb a B64.pi64 = true ->
  B64.valid (SFmul B64.prec B64.emax (B64.of_Z 6378137) a) = true /\
  B64.is_finite (SFmul B64.prec B64.emax (B64.of_Z 6378137) a) = true /\
  SFleb (B64.of_Z 0) (SFmul B64.prec B64.emax (B64.of_Z 6378137) a) = true /\
  SFleb (SFmul B64.prec B64.emax (B64.of_Z 6378137) a)
        (SFmul B64.prec B64.emax (B64.of_Z 6378137) B64.pi64) = true.
Proof.
  intros V H0 Hpi.
  rewrite half_circumference_bits, radius_bits.
  change (B64.of_Z 0) with (S754_zero false) in *.
  set (B := S754_finite false 5378777689100435 (-28)).
  assert (VB : B64.valid B = true) by reflexivity.
  assert (TB : ticks B = 5378777689100435 * 2 ^ 1046) by reflexivity.
  assert (Vz : B64.valid (S754_zero false) = true) by reflexivity.
  assert (Fin : forall r, B64.valid r = true -> B64.is_finite r = true ->
                  0 <= ticks r <= ticks B ->
                  B64.valid r = true /\ B64.is_finite r = true /\
                  SFleb (S754_zero false) r = true /\ SFleb r B = true).
  { intros r Vr Fr [Hlo Hhi]. split; [exact Vr | split; [exact Fr | split] ].
    - rewrite SFleb_ticks by auto. apply Z.leb_le. exact Hlo.
    - rewrite SFleb_ticks by auto. apply Z.leb_le. exact Hhi. }
  destruct a as [s | s | | s m e].
  - destruct s; repeat split; reflexivity.
  - destruct s; [discriminate H0 | discriminate Hpi].
  - discriminate H0.
  - destruct s; [discriminate H0 | ].
    assert (Ta : ticks (S754_finite false m e) <= ticks B64.pi64).
    { apply Z.leb_le. rewrite <- SFleb_ticks by auto. exact Hpi. }
    change (ticks B64.pi64) with (7074237752028440 * 2 ^ 1023) in Ta.
    cbn [ticks cond_Zopp] in Ta.
    destruct (valid_finite_inv _ _ _ V) as (He & Hm & _).
    cbn [SFmul xorb].
    set (mR := 6848472456101888%positive).
    assert (HmR : Zpos mR = 6378137 * 2 ^ 30) by reflexivity.
    set (p := (mR * m)%positive).
    assert (Hp : Zpos p = Zpos mR * Zpos m) by (subst p; apply Pos2Z.inj_mul).
    destruct (digits2_pos_bounds p) as [Dlo Dhi].
    set (D := Zpos (digits2_pos p)) in *.
    assert (HD : 53 <= D <= 106).
    { assert (0 < D) by (subst D; lia).
      assert (Plo : 2 ^ 52 <= Zpos p) by (rewrite Hp; change (Zpos mR) with 6848472456101888; nia).
      assert (Phi : Zpos p < 2 ^ 106).
      { rewrite Hp. change (2 ^ 106) with (2 ^ 53 * 2 ^ 53).
        apply Z.mul_lt_mono_nonneg; [lia | reflexivity | lia | exact Hm]. }
      split.
      - destruct (Z_le_gt_dec 53 D) as [ | G]; [assumption | exfalso].
        assert (2 ^ D <= 2 ^ 52) by (apply pow2_le; lia). lia.
      - destruct (Z_le_gt_dec D 106) as [ | G]; [assumption | exfalso].
        assert (2 ^ 106 <= 2 ^ (D - 1)) by (apply pow2_le; lia). lia. }
    destruct (Z_le_gt_dec (-1044) e) as [Hbig | Hsmall].
    + (* the exact product is a whole number of ticks *)
      assert (Hu : 0 < 2 ^ (e + 1074)) by (apply pow2_pos; lia).
      assert (Hexact : Zpos p * 2 ^ (-30 + e + 1074)
                       = 6378137 * (Zpos m * 2 ^ (e + 1074))).
      { rewrite Hp, HmR.
        replace (e + 1074) with (30 + (-30 + e + 1074)) by lia.
        rewrite (Z.pow_add_r 2 30 (-30 + e + 1074)) by lia. ring. }
      assert (Hv : Zpos p * 2 ^ (-30 + e + 1074) <= ticks B).
      { rewrite Hexact, TB.
        apply Z.le_trans with (6378137 * (7074237752028440 * 2 ^ 1023)); [lia | ].
        apply Z.leb_le. reflexivity. }
      assert (HDe : D + (-30 + e) - 53 <= 970).
      { assert (Q : 2 ^ (D - 1 + (-30 + e + 1074)) < 2 ^ 1129).
        { rewrite Z.pow_add_r by lia.
          apply Z.le_lt_trans with (Zpos p * 2 ^ (-30 + e + 1074)).
          - apply Z.mul_le_mono_nonneg_r; [apply Z.pow_nonneg; lia | exact Dlo].
          - apply Z.le_lt_trans with (ticks B); [exact Hv | ].
            rewrite TB. reflexivity. }
        apply Z.pow_lt_mono_r_iff in Q; lia. }
      destruct (@binary_round_aux_struct false p (-30 + e)) as (r & t & Er & Vr & Fr & Tr & Rt);
        [lia | fold D; lia | ].
      rewrite Er. cbn [cond_Zopp] in Tr.
      apply rounds_to_brackets in Rt; [ | lia | lia].
      destruct Rt as (Hpos & _ & Hhi).
      apply Fin; [exact Vr | exact Fr | ]. rewrite Tr. split; [lia | ].
      apply Hhi; [ | exact Hv].
      rewrite TB. exists 5378777689100435, 1046. repeat split; lia.
    + (* a product below [2^-990]: far below the bound *)
      assert (Big : 2 ^ 107 <= ticks B) by (rewrite TB; apply Z.leb_le; reflexivity).
      destruct (Z_le_gt_dec (D + (-30 + e)) (-1021)) as [Hsub | Hnorm].
      * destruct (@binary_round_aux_subnormal false p (-30 + e) loc_Exact)
          as (r & M1 & Er & Vr & Fr & Tr & HM1); [lia | fold D; lia | ].
        rewrite Er. cbn [cond_Zopp] in Tr.
        apply Fin; [exact Vr | exact Fr | ]. rewrite Tr.
        assert (2 ^ 53 <= 2 ^ 107) by (apply pow2_le; lia). lia.
      * destruct (@binary_round_aux_normal false p (-30 + e) loc_Exact)
          as (M & E & M1 & Er & Vr & HE & _); fold D; [lia | lia | ].
        fold D in HE. rewrite Er.
        apply Fin; [exact Vr | reflexivity | ].
        cbn [ticks cond_Zopp].
        destruct (valid_finite_inv _ _ _ Vr) as (HE' & HM & _).
        assert (0 < 2 ^ (E + 1074)) by (apply pow2_pos; lia).
        split; [lia | ].
        apply Z.le_trans with (2 ^ 53 * 2 ^ 54); [ | exact Big].
        apply Z.mul_le_mono_nonneg; [lia | lia | lia | apply pow2_le; lia].
Qed.

Local Open Scope R_scope.

Lemma acosArg_range (a b : BasicLatLng R) : -1 <= acosArg a b <= 1.
Proof.
  rewrite acosArg_R.
  set (x := lat a * PI / 180). set (y := lat b * PI / 180).
  set (z := (lng b - lng a) * PI / 180).
  pose proof (sin2_cos2 x) as Hx. pose proof (sin2_cos2 y) as Hy.
  pose proof (COS_bound z) as [Hz1 Hz2].
  unfold Rsqr in Hx, Hy.
  set (s1 := Rtrigo_def.sin x) in *. set (c1 := Rtrigo_def.cos x) in *.
  set (s2 := Rtrigo_def.sin y) in *. set (c2 := Rtrigo_def.cos y) in *.
  set (t := Rtrigo_def.cos z) in *.
  pose proof (Rle_0_sqr (s1 - s2)) as Q1. pose proof (Rle_0_sqr (c1 - c2)) as Q2.
  pose proof (Rle_0_sqr (s1 + s2)) as Q3. pose proof (Rle_0_sqr (c1 + c2)) as Q4.
  unfold Rsqr in Q1, Q2, Q3, Q4.
  destruct (Rle_dec 0 (c1 * c2)) as [P | N]; split; nra.
Qed.

Local Open Scope Z_scope.

Lemma table_libm_acos (y : B64.float) :
  SFleb (lit (-1)) y = true -> SFleb y (lit 1) = true ->
  B64.valid (@acos _ table_libm y) = true /\
  SFleb (lit 0) (@acos _ table_libm y) = true /\
  SFleb (@acos _ table_libm y) B64.pi64 = true.
Proof.
  intros Hlo Hhi. cbn [acos table_libm].
  change (@lit B64.float binary64 (-1)) with (B64.of_Z (-1)) in Hlo.
  change (@lit B64.float binary64 1) with (B64.of_Z 1) in Hhi.
  rewrite Hlo, Hhi. cbn [andb].
  destruct (SFleb y (B64.of_Z (-1))); [repeat split; reflexivity | ].
  destruct (SFleb (B64.of_Z 1) y); repeat split; reflexivity.
Qed.

(** C10, as the code has it.  In exact arithmetic the argument of [acos]
    always lies in [[-1, 1]] and the distance lies between [0] and
    [pi * 6378137].  On doubles, for a libm whose [acos] maps the doubles of
    [[-1, 1]] into [[0, pi]] ([pi] the double constant), whenever the
    computed argument lies in [[-1, 1]] the distance is a finite double
    between [0] and the rounded product [6378137 * pi]. *)
Theorem distanceFrom_bounds :
  (forall a b : BasicLatLng R,
     (-1 <= acosArg a b <= 1)%R /\ (0 <= distanceFrom a b <= PI * 6378137)%R) /\
  (forall (libm : Trig B64.float) (p q : BasicLatLng B64.float),
     (forall y : B64.float,
        SFleb (lit (-1)) y = true -> SFleb y (lit 1) = true ->
        B64.valid (acos y) = true /\ SFleb (lit 0) (acos y) = true /\
        SFleb (acos y) B64.pi64 = true) ->
     SFleb (lit (-1)) (acosArg p q) = true -> SFleb (acosArg p q) (lit 1) = true ->
     B64.valid (distanceFrom p q) = true /\ B64.is_finite (distanceFrom p q) = true /\
     SFleb (lit 0) (distanceFrom p q) = true /\
     SFleb (distanceFrom p q) (mul (lit 6378137) B64.pi64) = true).
Proof.
  split.
  - intros a b. split; [apply acosArg_range | ].
    unfold distanceFrom, kEarthRadius. cbn [mul lit acos exactR trigR].
    pose proof (acos_bound (acosArg a b)) as [Hlo Hhi]. nra.
  - intros libm p q Hacos Hlo Hhi.
    destruct (Hacos _ Hlo Hhi) as (Va & H0 & Hpi).
    exact (SFmul_radius_bounded _ Va H0 Hpi).
Qed.

Lemma distanceFrom_bounds_witness :
  B64.valid (@distanceFrom _ binary64 table_libm
               (mkLatLng (lit 0) (lit 170)) (mkLatLng (lit 0) (lit (-10)))) = true /\
  B64.is_finite (@distanceFrom _ binary64 table_libm
               (mkLatLng (lit 0) (lit 170)) (mkLatLng (lit 0) (lit (-10)))) = true /\
  SFleb (lit 0) (@distanceFrom _ binary64 table_libm
               (mkLatLng (lit 0) (lit 170)) (mkLatLng (lit 0) (lit (-10)))) = true /\
  SFleb (@distanceFrom _ binary64 table_libm
               (mkLatLng (lit 0) (lit 170)) (mkLatLng (lit 0) (lit (-10))))
        (mul (lit 6378137) B64.pi64) = true.
Proof.
  apply (proj2 distanceFrom_bounds table_libm).
  - exact table_libm_acos.
  - vm_compute; reflexivity.
  - vm_compute; reflexivity.
Defined.

(** C10, the claim as the specification states it, fails on doubles.  From
    [(0, 170)] to [(0, -10)] the longitudes differ by the double [pi] in
    radians, the argument of [acos] is exactly [-1], [acos] returns the
    double [pi], and the product [6378137 * pi] is rounded up to
    [5378777689100435 * 2^-28], which is more than [pi * 6378137]. *)
Lemma distanceFrom_exceeds_half_circumference :
  @sin _ table_libm (S754_zero false) = S754_zero false /\
  @cos _ table_libm (S754_zero false) = lit 1 /\
  @cos _ table_libm (SFopp B64.pi64) = lit (-1) /\
  @acos _ table_libm (lit (-1)) = B64.pi64 /\
  @acosArg _ binary64 table_libm
     (mkLatLng (lit 0) (lit 170)) (mkLatLng (lit 0) (lit (-10))) = lit (-1) /\
  @distanceFrom _ binary64 table_libm
     (mkLatLng (lit 0) (lit 170)) (mkLatLng (lit 0) (lit (-10)))
    = S754_finite false 5378777689100435 (-28) /\
  (PI * 6378137 < Q2R (B64.toQ (S754_finite false 5378777689100435 (-28))))%R.
Proof.
  split; [reflexivity | ]. split; [vm_compute; reflexivity | ].
  split; [vm_compute; reflexivity | ]. split; [vm_compute; reflexivity | ].
  split; [vm_compute; reflexivity | ]. split; [vm_compute; reflexivity | ].
  assert (E : (B64.toQ (S754_finite false 5378777689100435 (-28))
               == 5378777689100435 # 268435456)%Q) by (vm_compute; reflexivity).
  rewrite (Qeq_eqR _ _ E).
  apply Rlt_trans with (Q2R (31415926535897933 # 10000000000000000) * 6378137)%R.
  - apply Rmult_lt_compat_r; [lra | exact PI_upper].
  - replace 6378137%R with (Q2R 6378137) by (unfold Q2R; cbn; lra).
    rewrite <- Q2R_mult. apply Qlt_Rlt. vm_compute. reflexivity.
Qed.

(** ** The normaliser at float *)

(** The double literals of the normalisers are floats as well: a float
    literal converted back to double is the double literal of the header. *)
Lemma float_literals_exact :
  B32.to_double (@lit _ binary32 0) = B64.of_Z 0 /\
  B32.to_double (@lit _ binary32 180) = B64.of_Z 180 /\
  B32.to_double (@lit _ binary32 (-180)) = B64.of_Z (-180) /\
  B32.to_double (@lit _ binary32 360) = B64.of_Z 360 /\
  B32.to_double (@lit _ binary32 1000000000) = B64.of_Z 1000000000 /\
  B32.to_double (@lit _ binary32 (-1000000000)) = B64.of_Z (-1000000000).
Proof. repeat split; vm_compute; reflexivity. Qed.

Lemma fexp_32 (e : Z) : fexp B32.prec B32.emax e = Z.max (e - 24) (-149).
Proof. reflexivity. Qed.

Lemma binary_round_aux_canonical (m : positive) (e : Z) :
  Zpos (digits2_pos m) = 53 -> -1074 <= e <= 971 ->
  binary_round_aux B64.prec B64.emax false (Zpos m) e loc_Exact
  = S754_finite false m e.
Proof.
  intros D He. unfold binary_round_aux.
  rewrite shr_fexp_noshift by (rewrite D; lia).
  cbn [shr_m loc_of_shr_record round_nearest_even].
  rewrite shr_fexp_noshift by (rewrite D; lia).
  cbn [shr_m]. change (B64.emax - B64.prec) with 971.
  replace (e <=? 971) with true by (symmetry; apply Z.leb_le; lia).
  reflexivity.
Qed.

(** A double whose mantissa ends in 29 zeros is a float: storing it cuts the
    zeros, nothing is rounded. *)
Lemma float_store_exact (m : positive) (e : Z) :
  Zpos (digits2_pos m) = 53 -> (2 ^ 29 | Zpos m) -> -120 <= e <= 75 ->
  exists q : positive,
    Zpos m = Zpos q * 2 ^ 29 /\ Zpos (digits2_pos q) = 24 /\
    B32.of_double (S754_finite false m e) = S754_finite false q (e + 29).
Proof.
  intros D [k Hk] He.
  pose proof (digits_53 _ D) as Bm.
  assert (Hk' : 2 ^ 23 <= k < 2 ^ 24).
  { change (2 ^ 52) with (2 ^ 23 * 2 ^ 29) in Bm.
    change (2 ^ 53) with (2 ^ 24 * 2 ^ 29) in Bm.
    assert (0 < 2 ^ 29) by (apply pow2_pos; lia). nia. }
  destruct k as [ | q | q]; try lia.
  assert (Dq : Zpos (digits2_pos q) = 24)
    by (apply digits2_pos_unique; change (24 - 1) with 23; exact Hk').
  exists q. split; [exact Hk | split; [exact Dq | ] ].
  cbn [B32.of_double cond_Zopp binary_normalize]. unfold binary_round.
  rewrite D, fexp_32. unfold shl_align.
  replace (Z.max (53 + e - 24) (-149) - e) with 29 by lia. cbn iota.
  unfold binary_round_aux.
  assert (S1 : shr_fexp B32.prec B32.emax (Zpos m) e loc_Exact
               = (iter_pos shr_1 29 (Build_shr_record (Zpos m) false false), e + 29)).
  { unfold shr_fexp. cbn [Zdigits2]. rewrite D, fexp_32.
    replace (Z.max (53 + e - 24) (-149) - e) with 29 by lia. reflexivity. }
  rewrite S1.
  destruct (iter_shr_1_spec 29 (Build_shr_record (Zpos m) false false))
    as (Eq & _ & Xq); [cbn; lia | ].
  cbn [shr_m shr_r shr_s] in Eq, Xq.
  destruct Xq as [R S]; [exists (Zpos q); exact Hk | reflexivity | reflexivity | ].
  destruct (iter_pos shr_1 29 (Build_shr_record (Zpos m) false false)) as [m' r' s'].
  cbn [shr_m shr_r shr_s] in *. subst r' s'.
  cbn [loc_of_shr_record round_nearest_even].
  assert (Hm' : m' = Zpos q).
  { rewrite Eq, Hk. apply Z.div_mul. apply Z.pow_nonzero; lia. }
  rewrite Hm'.
  assert (S2 : shr_fexp B32.prec B32.emax (Zpos q) (e + 29) loc_Exact
               = (Build_shr_record (Zpos q) false false, e + 29)).
  { unfold shr_fexp. cbn [Zdigits2]. rewrite Dq, fexp_32.
    replace (Z.max (24 + (e + 29) - 24) (-149) - (e + 29)) with 0 by lia.
    reflexivity. }
  rewrite S2. cbn [shr_m].
  change (B32.emax - B32.prec) with 104.
  replace (e + 29 <=? 104) with true by (symmetry; apply Z.leb_le; lia).
  reflexivity.
Qed.

(** Converted back to double, the float is the double it came from. *)
Lemma float_load_exact (q m : positive) (e : Z) :
  Zpos m = Zpos q * 2 ^ 29 -> Zpos (digits2_pos q) = 24 ->
  Zpos (digits2_pos m) = 53 -> -1074 <= e <= 971 ->
  B32.to_double (S754_finite false q (e + 29)) = S754_finite false m e.
Proof.
  intros Hm Dq D He.
  cbn [B32.to_double cond_Zopp binary_normalize]. unfold binary_round.
  rewrite Dq, fexp_64.
  replace (Z.max (24 + (e + 29) - 53) (-1074)) with e by lia.
  unfold shl_align. replace (e - (e + 29)) with (Zneg 29) by lia. cbn iota.
  assert (Hi : Pos.iter xO q 29 = m).
  { apply Pos2Z.inj. rewrite iter_xO_pow. symmetry. exact Hm. }
  rewrite Hi. now apply binary_round_aux_canonical.
Qed.

(** The doubles [8 k] with [1 <= k <= 2^24] go through a float unchanged. *)
Lemma float_keeps_multiples_of_8 (d : spec_float) (k : Z) :
  B64.valid d = true -> B64.is_finite d = true ->
  1 <= k <= 2 ^ 24 -> ticks d = 8 * k * scale ->
  B32.to_double (B32.of_double d) = d.
Proof.
  intros V F Hk T.
  pose proof scale_pos as Hs.
  destruct d as [s | s | | s m e]; try discriminate F.
  - cbn [ticks] in T. nia.
  - cbn [ticks] in T.
    destruct (valid_finite_inv _ _ _ V) as (He & Hm & Hn).
    assert (Hu : 0 < 2 ^ (e + 1074)) by (apply pow2_pos; lia).
    destruct s; cbn [cond_Zopp] in T; [nia | ].
    unfold scale in T.
    assert (Hhi : e <= -25).
    { destruct (Z_le_gt_dec e (-25)) as [ | G]; [assumption | exfalso].
      specialize (Hn ltac:(lia)).
      assert (2 ^ 1050 <= 2 ^ (e + 1074)) by (apply pow2_le; lia).
      assert (2 ^ 52 * 2 ^ 1050 <= Zpos m * 2 ^ (e + 1074))
        by (apply Z.mul_le_mono_nonneg; lia).
      assert (8 * k * 2 ^ 1074 <= 8 * 2 ^ 24 * 2 ^ 1074)
        by (apply Z.mul_le_mono_nonneg_r; lia).
      change (8 * 2 ^ 24 * 2 ^ 1074) with (2 ^ 1101) in *.
      change (2 ^ 52 * 2 ^ 1050) with (2 ^ 1102) in *.
      assert (2 ^ 1101 < 2 ^ 1102) by (apply pow2_lt; lia). lia. }
    assert (Hlo : -49 <= e).
    { destruct (Z_le_gt_dec (-49) e) as [ | G]; [assumption | exfalso].
      assert (2 ^ (e + 1074) <= 2 ^ 1024) by (apply pow2_le; lia).
      assert (Zpos m * 2 ^ (e + 1074) < 2 ^ 53 * 2 ^ 1024).
      { apply Z.le_lt_trans with (Zpos m * 2 ^ 1024).
        - apply Z.mul_le_mono_nonneg_l; lia.
        - apply Z.mul_lt_mono_pos_r; [apply pow2_pos; lia | lia]. }
      assert (8 * 1 * 2 ^ 1074 <= 8 * k * 2 ^ 1074)
        by (apply Z.mul_le_mono_nonneg_r; lia).
      change (2 ^ 53 * 2 ^ 1024) with (2 ^ 1077) in *.
      change (8 * 1 * 2 ^ 1074) with (2 ^ 1077) in *. lia. }
    specialize (Hn ltac:(lia)).
    assert (D : Zpos (digits2_pos m) = 53)
      by (apply digits2_pos_unique; change (53 - 1) with 52; lia).
    assert (Hmk : Zpos m = 8 * k * 2 ^ (- e)).
    { apply (Z.mul_cancel_r _ _ (2 ^ (e + 1074))); [lia | ].
      assert (P : 2 ^ 1074 = 2 ^ (- e) * 2 ^ (e + 1074))
        by (rewrite <- Z.pow_add_r by lia; f_equal; lia).
      rewrite T, P. ring. }
    assert (Hdiv : (2 ^ 29 | Zpos m)).
    { destruct (Z.eq_dec e (-25)) as [-> | Ne].
      - change (2 ^ (- -25)) with (2 ^ 25) in Hmk.
        assert (k = 2 ^ 24) by lia. subst k.
        exists (2 ^ 23). rewrite Hmk. reflexivity.
      - exists (k * 2 ^ (- e - 26)). rewrite Hmk.
        replace (- e) with (- e - 26 + 26) at 1 by lia.
        rewrite (Z.pow_add_r 2 (- e - 26) 26) by lia.
        change (2 ^ 29) with (8 * 2 ^ 26). ring. }
    destruct (@float_store_exact m e D Hdiv ltac:(lia)) as (q & Hq & Dq & ->).
    apply float_load_exact; auto; lia.
Qed.

(** A double is determined by its value. *)
Lemma valid_ticks_unique (x y : spec_float) :
  B64.valid x = true -> B64.valid y = true ->
  B64.is_finite x = true -> B64.is_finite y = true ->
  ticks x = ticks y -> 0 < ticks x -> x = y.
Proof.
  intros Vx Vy Fx Fy T P.
  destruct x as [sx | sx | | sx mx ex]; try discriminate Fx; cbn [ticks] in P; try lia.
  destruct y as [sy | sy | | sy my ey]; try discriminate Fy; cbn [ticks] in T;
    try (rewrite T in P; cbn [ticks] in P; lia).
  cbn [ticks] in T.
  destruct (valid_finite_inv _ _ _ Vx) as (Hex & _).
  destruct (valid_finite_inv _ _ _ Vy) as (Hey & _).
  assert (Hux : 0 < 2 ^ (ex + 1074)) by (apply pow2_pos; lia).
  assert (Huy : 0 < 2 ^ (ey + 1074)) by (apply pow2_pos; lia).
  destruct sx; cbn [cond_Zopp] in T, P; [nia | ].
  destruct sy; cbn [cond_Zopp] in T; [nia | ].
  destruct (Z.lt_trichotomy ex ey) as [L | [E | G]].
  - pose proof (@canonical_lt _ _ _ _ _ _ Vx Vy L). lia.
  - subst ey. f_equal. apply Pos2Z.inj. nia.
  - pose proof (@canonical_lt _ _ _ _ _ _ Vy Vx G). lia.
Qed.


(** One turn of a loop, and its exit, for any number type. *)
Lemma while_ge_step (T : Type) (A : Arith T) (bound deg : T) (fuel : nat) :
  geb deg bound = true ->
  Degree.while_ge bound (S fuel) deg = Degree.while_ge bound fuel (sub deg (lit 360)).
Proof. intros H. cbn [Degree.while_ge]. now rewrite H. Qed.

Lemma while_ge_stop (T : Type) (A : Arith T) (bound deg : T) (fuel : nat) :
  geb deg bound = false -> Degree.while_ge bound fuel deg = Some (fuel, deg).
Proof. intros H. destruct fuel; cbn [Degree.while_ge]; now rewrite H. Qed.

Lemma while_lt_stop (T : Type) (A : Arith T) (bound deg : T) (fuel : nat) :
  ltb deg bound = false -> Degree.while_lt bound fuel deg = Some (fuel, deg).
Proof. intros H. destruct fuel; cbn [Degree.while_lt]; now rewrite H. Qed.

Lemma float_below_180 (x : spec_float) :
  B64.valid (B32.to_double x) = true -> B64.is_finite (B32.to_double x) = true ->
  @geb _ binary32 x (@lit _ binary32 180)
  = (180 * scale <=? ticks (B32.to_double x)).
Proof.
  intros V F. unfold geb. cbn [leb binary32].
  rewrite (proj1 (proj2 float_literals_exact)).
  destruct lit_180 as (V180 & F180 & T180).
  change (B64.of_Z 180) with (@lit B64.float binary64 180).
  rewrite SFleb_ticks by assumption. now rewrite T180.
Qed.

(** The subtracting loop at float from [8 + 360 i]: every difference is a
    multiple of [8] below [2^27], hence a float, and the loop arrives at
    [8] after [i] iterations. *)
Lemma float_run_down (i : nat) :
  forall (x : spec_float) (fuel : nat),
    Z.of_nat i <= 372827 ->
    B64.valid (B32.to_double x) = true -> B64.is_finite (B32.to_double x) = true ->
    ticks (B32.to_double x) = (8 + 360 * Z.of_nat i) * scale ->
    B32.of_double (B32.to_double x) = x ->
    @Degree.while_ge _ binary32 (@lit _ binary32 180) (i + fuel) x
    = Some (fuel, @lit _ binary32 8).
Proof.
  pose proof scale_pos as Hs.
  induction i as [ | i IH]; intros x fuel Hi V F T Hx.
  - cbn [Nat.add]. rewrite while_ge_stop.
    + do 2 f_equal. rewrite <- Hx. unfold lit. cbn [binary32]. f_equal.
      assert (V8 : B64.valid (B64.of_Z 8) = true) by reflexivity.
      assert (F8 : B64.is_finite (B64.of_Z 8) = true) by reflexivity.
      assert (T8 : ticks (B64.of_Z 8) = 8 * scale) by (vm_compute; reflexivity).
      apply valid_ticks_unique; [exact V | exact V8 | exact F | exact F8 | | ].
      * rewrite T, T8. change (Z.of_nat 0) with 0. lia.
      * rewrite T. change (Z.of_nat 0) with 0. lia.
    + rewrite float_below_180 by assumption. apply Z.leb_gt.
      rewrite T. change (Z.of_nat 0) with 0. lia.
  - cbn [Nat.add]. rewrite Nat2Z.inj_succ in T, Hi.
    rewrite while_ge_step.
    2:{ rewrite float_below_180 by assumption. apply Z.leb_le. rewrite T. nia. }
    set (d := B32.to_double x) in *.
    assert (Hstep : @sub _ binary32 x (@lit _ binary32 360)
                    = B32.of_double (SFsub B64.prec B64.emax d (B64.of_Z 360))).
    { cbn [sub binary32]. fold d.
      now rewrite (proj1 (proj2 (proj2 (proj2 float_literals_exact)))). }
    rewrite Hstep.
    destruct (@sub_360_exact d V F) as (V' & F' & T').
    { rewrite T. change (2 ^ 30) with 1073741824. nia. }
    change (sub d (lit 360)) with (SFsub B64.prec B64.emax d (B64.of_Z 360)) in V', F', T'.
    set (d' := SFsub B64.prec B64.emax d (B64.of_Z 360)) in *.
    assert (T'' : ticks d' = (8 + 360 * Z.of_nat i) * scale) by (rewrite T', T; ring).
    assert (K : B32.to_double (B32.of_double d') = d').
    { apply (@float_keeps_multiples_of_8 d' (1 + 45 * Z.of_nat i)); auto.
      - change (2 ^ 24) with 16777216. lia.
      - rewrite T''. ring. }
    apply IH.
    + lia.
    + now rewrite K.
    + now rewrite K.
    + now rewrite K.
    + now rewrite K.
Qed.

(** The fuel of the run below: one rounded step, [372827] exact ones, and
    the rest. *)
Lemma max_iterations_split :
  max_iterations = S (Z.to_nat 372827 + Z.to_nat 2404950).
Proof.
  apply Nat2Z.inj.
  rewrite max_iterations_Z, Nat2Z.inj_succ, Nat2Z.inj_add, !Z2Nat.id by lia.
  reflexivity.
Qed.

(** C1, the claim as the specification states it, fails at [T = float].
    The float [2^27 + 368 = 134218096] is not NaN and below [1e9]; floats
    are [16] apart there, so the first [deg -= 360.0] stores [2^27] (the
    difference [2^27 + 8] lies halfway between two floats).  From [2^27]
    on every difference is a float, and the run ends at [8], while
    [134218096] is [16] modulo [360]. *)
Lemma normalizeRelative_float_not_congruent :
  B32.valid (@lit _ binary32 134218096) = true /\
  (B64.toQ (@lit _ binary32 134218096) == 134218096)%Q /\
  @sub _ binary32 (@lit _ binary32 134218096) (@lit _ binary32 360)
    = @lit _ binary32 134217728 /\
  @Degree.normalizeRelative _ binary32 max_iterations (@lit _ binary32 134218096)
    = Some (@lit _ binary32 8) /\
  (B64.toQ (@lit _ binary32 8) == 8)%Q /\
  ~ (exists k : Z, (8 == 134218096 + 360 * inject_Z k)%Q).
Proof.
  assert (Hsub : @sub _ binary32 (@lit _ binary32 134218096) (@lit _ binary32 360)
                 = @lit _ binary32 134217728) by (vm_compute; reflexivity).
  split; [vm_compute; reflexivity | ].
  split; [vm_compute; reflexivity | ].
  split; [exact Hsub | ].
  split.
  - unfold Degree.normalizeRelative.
    assert (Hnan : @isnan _ binary32 (@lit _ binary32 134218096) = false)
      by (vm_compute; reflexivity).
    assert (Hg : @gtb _ binary32 (@lit _ binary32 134218096) (@lit _ binary32 1000000000)
                 || @ltb _ binary32 (@lit _ binary32 134218096)
                                   (@lit _ binary32 (-1000000000)) = false)
      by (vm_compute; reflexivity).
    rewrite Hnan, Hg. unfold Degree.loops.
    rewrite max_iterations_split, while_ge_step by (vm_compute; reflexivity).
    rewrite Hsub.
    rewrite (@float_run_down (Z.to_nat 372827) (@lit _ binary32 134217728)
               (Z.to_nat 2404950)).
    + rewrite while_lt_stop by (vm_compute; reflexivity). reflexivity.
    + rewrite Z2Nat.id by lia. lia.
    + vm_compute; reflexivity.
    + vm_compute; reflexivity.
    + rewrite Z2Nat.id by lia. vm_compute; reflexivity.
    + vm_compute; reflexivity.
  - split; [vm_compute; reflexivity | ].
    intros [k Hk].
    change 8%Q with (inject_Z 8) in Hk.
    change 134218096%Q with (inject_Z 134218096) in Hk.
    change 360%Q with (inject_Z 360) in Hk.
    rewrite <- inject_Z_mult, <- inject_Z_plus in Hk.
    apply (proj1 (inject_Z_injective _ _)) in Hk. lia.
Qed.
